(** * PyRTL wire vectors: a shallow embedding of [pyrtl/wirevector.py]

    The module builds a netlist as a side effect of constructing and
    combining wire vectors.  Python objects are mutable and are compared by
    identity, and an exception leaves behind whatever was mutated before it
    was raised.  The embedding therefore threads an explicit [State] (the
    heap of [Block] objects, the class-level counters of [Block], and the
    attributes that are assigned after construction) through a small
    state-and-exception monad in which a raised exception still returns the
    state reached so far. *)

From stdpp Require Import base gmap strings list list_numbers pretty.
From Stdlib Require Import Ascii ZArith Lia.

Local Open Scope Z_scope.

(** ** Strings *)

(** The double-quote character, used inside several error messages. *)
Definition dq : string := String (Ascii.ascii_of_nat 34) EmptyString.

(** [str.lower()] on a byte string: ASCII capitals are mapped to small
    letters, every other byte is kept. *)
Definition lower_ascii (c : ascii) : ascii :=
  let n := Ascii.nat_of_ascii c in
  if ((65 <=? n)%nat && (n <=? 90)%nat)%bool then Ascii.ascii_of_nat (n + 32) else c.

Fixpoint lower (s : string) : string :=
  match s with
  | EmptyString => EmptyString
  | String c r => String (lower_ascii c) (lower r)
  end.

(** [bin(num)] of Python: an optional minus sign, the prefix 0b, and the
    binary digits of the magnitude, most significant first. *)
Fixpoint bin_digits (p : positive) : string :=
  match p with
  | xH => "1"
  | xO q => bin_digits q +:+ "0"
  | xI q => bin_digits q +:+ "1"
  end.

Definition bin (num : Z) : string :=
  match num with
  | Z0 => "0b0"
  | Zpos p => "0b" +:+ bin_digits p
  | Zneg p => "-0b" +:+ bin_digits p
  end.

(** ** Data model *)

(** The classes of [wirevector.py] that derive from [WireVector]. *)
Inductive Class : Set :=
  | CWireVector | CInput | COutput | CConst | CRegister
  | CSignedWireVector | CSignedInput | CSignedOutput | CSignedConst
  | CSignedRegister.

Global Instance Class_eq_dec : EqDecision Class.
Proof. solve_decision. Defined.

(** A wire vector object.  [oid] stands for the identity of the Python
    object; the other fields are the attributes assigned by
    [WireVector.__init__], which the module never reassigns.  [block] is the
    handle of the owning [Block] object. *)
Record WireVector : Type := mkWire {
  oid : nat;
  cls : Class;
  block : nat;
  name : string;
  bitwidth : option Z
}.

(** The [op_param] field of a logic net: [None], a tuple of bit positions
    (select), or the triple of a memory net. *)
Inductive Param : Type :=
  | PNone
  | PTuple (sel : list Z)
  | PMem (id : nat) (nread nwrite : nat).

(** [LogicNet(op, op_param, args, dests)]; [op] is [None] for a connect net
    and a one-character string otherwise. *)
Record LogicNet : Type := mkNet {
  op : option string;
  op_param : Param;
  args : list WireVector;
  dests : list WireVector
}.

Global Instance Param_eq_dec : EqDecision Param.
Proof. solve_decision. Defined.

(** Equality of two nets as Python computes it for the record: the fields
    are compared in turn, and wire vectors, which define no [__eq__], are
    compared by identity. *)
Definition LogicNet_eqb (x y : LogicNet) : bool :=
  bool_decide (op x = op y) && bool_decide (op_param x = op_param y)
  && bool_decide (oid <$> args x = oid <$> args y)
  && bool_decide (oid <$> dests x = oid <$> dests y).

(** Modelled from the spec: the class [Block] (block.py is not among the
    sources).  The spec gives it a set of wire vectors keyed by unique name
    and an ordered collection of logic nodes. *)
Record Block : Type := mkBlock {
  wirevector_by_name : gmap string WireVector;
  logic : list LogicNet
}.

Definition empty_Block : Block := mkBlock ∅ [].

(** A memory block object ([MemBlock]); [mem_id] is [self.id]. *)
Record MemBlock : Type := mkMem {
  mem_block : nat;
  mem_bitwidth : Z;
  mem_name : string;
  mem_addrwidth : Z;
  stored_net : option LogicNet;
  mem_id : nat;
  read_addr : list WireVector;
  read_data : list WireVector;
  write_addr : list WireVector;
  write_data : list WireVector;
  write_enable : list WireVector
}.

(** The state of the interpreter that the module reads and writes:
    - [blocks]: the heap of [Block] objects, by handle;
    - [_singleton_block]: the module global of that name (a handle);
    - [next_oid]: the next unused object identity;
    - [tempvar_count], [constvar_count], [memid_count]: the counters behind
      the class-level allocators of [Block];
    - [reg_in]: the attribute [reg_in] of each register (absent is [None]);
    - [const_val]: the attribute [val] of each constant;
    - [memblocks]: the heap of [MemBlock] objects, by handle. *)
Record State : Type := mkState {
  blocks : gmap nat Block;
  _singleton_block : nat;
  next_oid : nat;
  tempvar_count : nat;
  constvar_count : nat;
  memid_count : nat;
  reg_in : gmap nat WireVector;
  const_val : gmap nat Z;
  memblocks : gmap nat MemBlock
}.

(** The state right after the module is imported: one empty block. *)
Definition initial_state : State :=
  mkState {[ 0%nat := empty_Block ]} 0 1 0 0 0 ∅ ∅ ∅.

Definition get_block (b : nat) (st : State) : Block :=
  default empty_Block (blocks st !! b).

Definition set_block (b : nat) (blk : Block) (st : State) : State :=
  mkState (<[b := blk]> (blocks st)) (_singleton_block st) (next_oid st)
          (tempvar_count st) (constvar_count st) (memid_count st)
          (reg_in st) (const_val st) (memblocks st).

Definition set_singleton (b : nat) (st : State) : State :=
  mkState (blocks st) b (next_oid st)
          (tempvar_count st) (constvar_count st) (memid_count st)
          (reg_in st) (const_val st) (memblocks st).

Definition set_next_oid (n : nat) (st : State) : State :=
  mkState (blocks st) (_singleton_block st) n
          (tempvar_count st) (constvar_count st) (memid_count st)
          (reg_in st) (const_val st) (memblocks st).

Definition set_tempvar_count (n : nat) (st : State) : State :=
  mkState (blocks st) (_singleton_block st) (next_oid st)
          n (constvar_count st) (memid_count st)
          (reg_in st) (const_val st) (memblocks st).

Definition set_constvar_count (n : nat) (st : State) : State :=
  mkState (blocks st) (_singleton_block st) (next_oid st)
          (tempvar_count st) n (memid_count st)
          (reg_in st) (const_val st) (memblocks st).

Definition set_memid_count (n : nat) (st : State) : State :=
  mkState (blocks st) (_singleton_block st) (next_oid st)
          (tempvar_count st) (constvar_count st) n
          (reg_in st) (const_val st) (memblocks st).

Definition set_reg_in (r : gmap nat WireVector) (st : State) : State :=
  mkState (blocks st) (_singleton_block st) (next_oid st)
          (tempvar_count st) (constvar_count st) (memid_count st)
          r (const_val st) (memblocks st).

Definition set_const_val (c : gmap nat Z) (st : State) : State :=
  mkState (blocks st) (_singleton_block st) (next_oid st)
          (tempvar_count st) (constvar_count st) (memid_count st)
          (reg_in st) c (memblocks st).

Definition set_memblocks (m : gmap nat MemBlock) (st : State) : State :=
  mkState (blocks st) (_singleton_block st) (next_oid st)
          (tempvar_count st) (constvar_count st) (memid_count st)
          (reg_in st) (const_val st) m.

(** ** Exceptions and the construction monad *)

(** The exceptions the module can raise.  [PyrtlError] carries its message
    (empty for a bare [raise PyrtlError]); the others are raised by the
    interpreter itself.  [UnboundLocalError] is raised when a local variable
    is read on a path that never assigned it.  [NameError] is what the
    model answers for a handle that denotes no object. *)
Inductive exn : Type :=
  | PyrtlError (msg : string)
  | TypeError
  | AssertionError
  | IndexError
  | ValueError
  | UnboundLocalError
  | NameError.

Inductive result (A : Type) : Type :=
  | Ok (a : A)
  | Raise (e : exn).
Arguments Ok {A} a.
Arguments Raise {A} e.

(** A computation returns a result or raises, and in both cases the state
    it has reached. *)
Definition M (A : Type) : Type := State → result A * State.

Definition ret {A} (a : A) : M A := λ st, (Ok a, st).
Definition raise {A} (e : exn) : M A := λ st, (Raise e, st).
Definition bind {A B} (c : M A) (k : A → M B) : M B :=
  λ st, match c st with
        | (Ok a, st') => k a st'
        | (Raise e, st') => (Raise e, st')
        end.
Definition lift {A} (r : result A) : M A := λ st, (r, st).
Definition gets {A} (f : State → A) : M A := λ st, (Ok (f st), st).
Definition modify (f : State → State) : M unit := λ st, (Ok tt, f st).

Declare Scope py_scope.
Delimit Scope py_scope with py.
Notation "x <- c ;; k" := (bind c (λ x, k))
  (at level 100, c at next level, k at level 200, right associativity) : py_scope.
Notation "c ;; k" := (bind c (λ _, k))
  (at level 100, k at level 200, right associativity) : py_scope.
Local Open Scope py_scope.

Fixpoint mapM {A B} (f : A → M B) (l : list A) : M (list B) :=
  match l with
  | [] => ret []
  | x :: r => y <- f x ;; ys <- mapM f r ;; ret (y :: ys)
  end.

(** ** The class [Block] *)

(** Modelled from the spec: [Block.next_tempvar_name], the allocator of
    temporary wire names (monotonic and deterministic).  The example of the
    repository says the generated names start with tmp; the counter follows. *)
Definition next_tempvar_name : M string := λ st,
  (Ok ("tmp" +:+ pretty (tempvar_count st)),
   set_tempvar_count (S (tempvar_count st)) st).

(** Modelled from the spec: [Block.next_constvar_name], the allocator of
    constant names (monotonic and deterministic); it receives the value. *)
Definition next_constvar_name (val : Z) : M string := λ st,
  (Ok ("const" +:+ pretty (constvar_count st) +:+ "_" +:+ pretty val),
   set_constvar_count (S (constvar_count st)) st).

(** Modelled from the spec: [Block.next_memid], the allocator of memory
    identities (monotonic and deterministic). *)
Definition next_memid : M nat := λ st,
  (Ok (memid_count st), set_memid_count (S (memid_count st)) st).

(** Modelled from the spec: [Block.add_wirevector], which registers a wire
    vector under its name and fails with a naming-conflict error when the
    name is taken. *)
Definition add_wirevector (b : nat) (w : WireVector) : M unit := λ st,
  let blk := get_block b st in
  match wirevector_by_name blk !! name w with
  | Some _ =>
      (Raise (PyrtlError ("duplicate wirevector name " +:+ name w)), st)
  | None =>
      (Ok tt,
       set_block b (mkBlock (<[name w := w]> (wirevector_by_name blk))
                            (logic blk)) st)
  end.

(** Modelled from the spec: [Block.add_net], which registers a logic node
    at the end of the ordered collection. *)
Definition add_net (b : nat) (net : LogicNet) : M unit := λ st,
  let blk := get_block b st in
  (Ok tt, set_block b (mkBlock (wirevector_by_name blk) (logic blk ++ [net])) st).

(** The identity of a new object. *)
Definition new_oid : M nat := λ st,
  (Ok (next_oid st), set_next_oid (S (next_oid st)) st).

(** [working_block()] and [reset_working_block()]. *)
Definition working_block : M nat := gets _singleton_block.

(** The identity of the object a call of [Block()] creates: the new object
    is distinct from every object there is, so its identity lies beyond the
    identities given out so far and beyond every handle of the heap of
    blocks. *)
Definition new_block_id (st : State) : nat :=
  next_oid st `max` S (max_list (elements (dom (blocks st)))).

Definition reset_working_block : M unit := λ st,
  let b := new_block_id st in
  (Ok tt, set_singleton b (set_next_oid (S b) (set_block b empty_Block st))).

(** ** [WireVector] *)

(** The [block] argument of a constructor: absent, a [Block] object, or an
    object of some other type. *)
Inductive BlockArg : Type :=
  | BNone
  | BBlock (b : nat)
  | BOther.

Definition clock_names : list string := ["clk"; "clock"].

(** Python 2 has two integer types, and [isinstance(x, int)] holds of the
    first only.  An integer of the model stands for the value the
    interpreter computes for it: an [int] when it fits the machine word,
    a [long] beyond, as integer literals and the results of [int]
    arithmetic are.  [maxint] is [sys.maxint] of a 64-bit build,
    [2 ^ 63 - 1]. *)
Definition maxint : Z := 9223372036854775807.

Definition is_int (v : Z) : bool := (- maxint - 1 <=? v) && (v <=? maxint).
Arguments is_int : simpl never.

(** [WireVector.__init__(self, bitwidth, name, block)].  [c] is the class of
    the object under construction: the subclasses run this body through
    [super].  The object identity is taken when the object is complete. *)
Definition WireVector_init (c : Class) (bitwidth : option Z)
    (name : option string) (blk : BlockArg) : M WireVector :=
  b <- match blk with
       | BBlock b => ret b
       | BNone => working_block
       | BOther => raise (PyrtlError
           "Attempt to link WireVector to block not derived of type Block")
       end ;;
  name <- match name with
          | None => next_tempvar_name
          | Some n => ret n
          end ;;
  if bool_decide (lower name ∈ clock_names) then
    raise (PyrtlError "Clock signals should never be explicitly instantiated")
  else
    match bitwidth with
    | Some bw =>
        if negb (is_int bw) then
          raise (PyrtlError
            ("error attempting to create wirevector with bitwidth of type "
             +:+ dq +:+ "<type 'long'>" +:+ dq +:+ " instead of integer"))
        else if bw <=? 0 then
          raise (PyrtlError
            ("error attempting to create wirevector with bitwidth of length "
             +:+ dq +:+ pretty bw +:+ dq +:+ ", all bitwidths must be > 0"))
        else ret tt
    | None => ret tt
    end ;;
    o <- new_oid ;;
    let self := mkWire o c b name bitwidth in
    add_wirevector b self ;;
    ret self.

(** [len(w)]: [__len__] returns the bit width, and [len] rejects [None].
    The width of a wire that a constructor has made is a positive [int]
    (lemma [WireVector_init_Ok_int]), which [len] returns as it is.  A
    width that no constructor accepts, negative or beyond the machine
    word, can only be put on a wire by assigning the attribute from
    outside the module; the interpreter's [len] would refuse it, and the
    model does not follow it there. *)
Definition len (w : WireVector) : M Z :=
  match bitwidth w with
  | Some n => ret n
  | None => raise TypeError
  end.

(** ** [Const] *)

(** [Const.__init__(self, val, bitwidth)] for an integer [val], an [int]
    or a [long]; [c] is [CConst] or [CSignedConst].  The local [num] is
    assigned in the branch of [isinstance(val, int)] only (the branch of
    the strings is not taken by an integer), so for a [long] it is unbound
    where it is first read, and the width is not inferred. *)
Definition Const_init (c : Class) (val : Z) (bitwidth : option Z) : M WireVector :=
  name <- next_constvar_name val ;;
  let num : option Z := if is_int val then Some val else None in
  let bitwidth : option Z :=
    if is_int val then
      match bitwidth with
      | None => Some (Z.of_nat (String.length (bin val)) - 2)
      | Some bw => Some bw
      end
    else bitwidth in
  match bitwidth with
  | None =>
      raise (PyrtlError
        ("error, bitwidth must be from type int, instead Const was passed "
         +:+ dq +:+ "None" +:+ dq +:+ " of type <type 'NoneType'>"))
  | Some bitwidth =>
      if negb (is_int bitwidth) then
        raise (PyrtlError
          ("error, bitwidth must be from type int, instead Const was passed "
           +:+ dq +:+ pretty bitwidth +:+ dq +:+ " of type <type 'long'>"))
      else
        match num with
        | None => raise UnboundLocalError
        | Some num =>
            if num <? 0 then
              raise (PyrtlError
                "error, Const is only for unsigned numbers and must be positive")
            else if bitwidth <? 0 then
              raise (PyrtlError
                "error, you are trying a negative bitwidth? awesome but wrong")
            else if negb (Z.shiftr num bitwidth =? 0) then
              raise (PyrtlError
                ("error constant " +:+ dq +:+ pretty num +:+ dq
                 +:+ " cannot fit in the specified " +:+ pretty bitwidth +:+ " bits"))
            else
              self <- WireVector_init c (Some bitwidth) (Some name) BNone ;;
              modify (λ st, set_const_val (<[oid self := num]> (const_val st)) st) ;;
              ret self
        end
  end.

(** ** Indexing and slicing of Python lists *)

(** The subscript of [w[item]]: an integer or a slice [start:stop:step]
    whose three parts may be absent. *)
Inductive Item : Type :=
  | IInt (i : Z)
  | ISlice (start stop step : option Z).

(** [l[i]] for an integer [i]: negative indices count from the end, and an
    index out of range raises [IndexError]. *)
Definition list_getitem {A} (l : list A) (i : Z) : result A :=
  let n := Z.of_nat (length l) in
  let i := if i <? 0 then i + n else i in
  if (i <? 0) || (n <=? i) then Raise IndexError
  else match l !! Z.to_nat i with
       | Some x => Ok x
       | None => Raise IndexError
       end.

(** How the interpreter clips one bound of a slice over a sequence of
    [length] elements. *)
Definition slice_clip (v step length : Z) : Z :=
  let v := if v <? 0 then v + length else v in
  if v <? 0 then (if step <? 0 then -1 else 0)
  else if length <=? v then (if step <? 0 then length - 1 else length)
  else v.

(** [l[start:stop:step]]: the bounds are clipped, the number of selected
    positions is computed, and the positions are read in turn.  A zero step
    raises [ValueError]. *)
Definition list_getslice {A} (l : list A) (start stop step : option Z)
    : result (list A) :=
  let length := Z.of_nat (length l) in
  let step := default 1 step in
  if step =? 0 then Raise ValueError
  else
    let start :=
      match start with
      | None => if step <? 0 then length - 1 else 0
      | Some v => slice_clip v step length
      end in
    let stop :=
      match stop with
      | None => if step <? 0 then -1 else length
      | Some v => slice_clip v step length
      end in
    let slicelength :=
      if ((step <? 0) && (start <=? stop)) || ((0 <? step) && (stop <=? start))
      then 0
      else if step <? 0 then (start - stop - 1) / (- step) + 1
      else (stop - start - 1) / step + 1 in
    Ok (omap (λ k, l !! Z.to_nat (start + k * step)) (seqZ 0 slicelength)).

(** ** Operators of [WireVector] *)

(** An operand that may be a wire vector or a raw Python integer. *)
Inductive Operand : Type :=
  | OWire (w : WireVector)
  | OInt (z : Z).

(** [WireVector.__invert__]. *)
Definition invert (self : WireVector) : M WireVector :=
  n <- len self ;;
  outwire <- WireVector_init CWireVector (Some n) None BNone ;;
  add_net (block self) (mkNet (Some "~") PNone [self] [outwire]) ;;
  ret outwire.

(** The bit positions [w[item]] selects out of [allindex]. *)
Definition selectednums (allindex : list Z) (item : Item) : result (list Z) :=
  match item with
  | IInt i =>
      match list_getitem allindex i with
      | Ok x => Ok [x]
      | Raise e => Raise e
      end
  | ISlice start stop step => list_getslice allindex start stop step
  end.

(** [WireVector.__getitem__]. *)
Definition getitem (self : WireVector) (item : Item) : M WireVector :=
  match bitwidth self with
  | None => raise AssertionError
  | Some bw =>
      let allindex := seqZ 0 bw in
      selectednums <- lift (selectednums allindex item) ;;
      outwire <- WireVector_init CWireVector
                   (Some (Z.of_nat (length selectednums))) None BNone ;;
      add_net (block self) (mkNet (Some "s") (PTuple selectednums) [self] [outwire]) ;;
      ret outwire
  end.

(** [concat], called with the wire vectors [args]. *)
Definition concat (args : list WireVector) : M WireVector :=
  match args with
  | [] => raise (PyrtlError EmptyString)
  | [a] => ret a
  | _ =>
      widths <- mapM len args ;;
      let final_width := foldr Z.add 0 widths in
      outwire <- WireVector_init CWireVector (Some final_width) None BNone ;;
      add_net (block outwire) (mkNet (Some "c") PNone args [outwire]) ;;
      ret outwire
  end.

(** [WireVector._extend_with_bit]. *)
Definition _extend_with_bit (self : WireVector) (bitwidth' : Z)
    (extbit : WireVector) : M WireVector :=
  match bitwidth self with
  | None => raise TypeError
  | Some sw =>
      let numext := bitwidth' - sw in
      if numext =? 0 then ret self
      else if numext <? 0 then
        raise (PyrtlError "error, zero_extended cannot reduce the number of bits")
      else
        extvector <- WireVector_init CWireVector (Some numext) None BNone ;;
        add_net (block self)
          (mkNet (Some "s") (PTuple (replicate (Z.to_nat numext) 0)) [extbit] [extvector]) ;;
        concat [extvector; self]
  end.

(** [WireVector.sign_extended]: the argument [self[-1]] is evaluated before
    the call. *)
Definition sign_extended (self : WireVector) (bitwidth' : Z) : M WireVector :=
  extbit <- getitem self (IInt (-1)) ;;
  _extend_with_bit self bitwidth' extbit.

(** [WireVector.zero_extended]: the argument [Const(0, bitwidth=1)] is
    evaluated before the call. *)
Definition zero_extended (self : WireVector) (bitwidth' : Z) : M WireVector :=
  extbit <- Const_init CConst 0 (Some 1) ;;
  _extend_with_bit self bitwidth' extbit.

Definition is_signed (c : Class) : bool :=
  match c with
  | CSignedWireVector | CSignedInput | CSignedOutput | CSignedConst
  | CSignedRegister => true
  | _ => false
  end.

(** [w.extended(bitwidth)], resolved on the class of [w]: the signed
    variants override it with [sign_extended]. *)
Definition extended (self : WireVector) (bitwidth' : Z) : M WireVector :=
  if is_signed (cls self) then sign_extended self bitwidth'
  else zero_extended self bitwidth'.

(** Python 2 orders [None] below every integer. *)
Definition py_lt (x : Z) (y : option Z) : bool :=
  match y with
  | Some y => x <? y
  | None => false
  end.

Definition py_gt (x : Z) (y : option Z) : bool :=
  match y with
  | Some y => y <? x
  | None => true
  end.

(** [WireVector.__ilshift__]. *)
Definition WireVector_ilshift (self : WireVector) (other : Operand) : M WireVector :=
  other <- match other with
           | OWire w => ret w
           | OInt z => Const_init CConst z None
           end ;;
  match bitwidth self with
  | None => raise (PyrtlError EmptyString)
  | Some sw =>
      other <- (if py_lt sw (bitwidth other)
                then getitem other (ISlice None (Some sw) None)
                else ret other) ;;
      other <- (if py_gt sw (bitwidth other)
                then extended other sw
                else ret other) ;;
      add_net (block self) (mkNet None PNone [other] [self]) ;;
      ret self
  end.

(** [self <<= other], resolved on the class of [self]: inputs, constants
    and registers (and their signed variants) override the operator. *)
Definition ilshift (self : WireVector) (other : Operand) : M WireVector :=
  match cls self with
  | CInput | CSignedInput =>
      raise (PyrtlError ("Input, such as " +:+ dq +:+ name self +:+ dq
                         +:+ ", cannot have values generated internally"))
  | CConst | CSignedConst =>
      raise (PyrtlError ("ConstWires, such as " +:+ dq +:+ name self +:+ dq
                         +:+ ", should never be assigned to with <<="))
  | CRegister | CSignedRegister =>
      raise (PyrtlError ("Registers, such as " +:+ dq +:+ name self +:+ dq
                         +:+ ", should never be assigned to with <<="))
  | CWireVector | COutput | CSignedWireVector | CSignedOutput =>
      WireVector_ilshift self other
  end.

(** [WireVector.logicop]. *)
Definition logicop (self : WireVector) (other : Operand) (op : string) : M WireVector :=
  let a := self in
  b <- match other with
       | OWire w => ret w
       | OInt z => Const_init CConst z None
       end ;;
  la <- len a ;;
  lb <- len b ;;
  ab <- (if la <? lb then
           a' <- extended a lb ;; ret (a', b)
         else if lb <? la then
           b' <- extended b la ;; ret (a, b')
         else ret (a, b)) ;;
  let '(a, b) := ab in
  resultlen <- len a ;;
  let resultlen :=
    if bool_decide (op = "+") || bool_decide (op = "-") then resultlen + 1
    else resultlen in
  let resultlen :=
    if bool_decide (op = "*") then resultlen * 2 else resultlen in
  s <- WireVector_init CWireVector (Some resultlen) None BNone ;;
  add_net (block self) (mkNet (Some op) PNone [a; b] [s]) ;;
  ret s.

Definition and_ (self : WireVector) (other : Operand) := logicop self other "&".
Definition or_ (self : WireVector) (other : Operand) := logicop self other "|".
Definition xor_ (self : WireVector) (other : Operand) := logicop self other "^".
Definition add_ (self : WireVector) (other : Operand) := logicop self other "+".
Definition sub_ (self : WireVector) (other : Operand) := logicop self other "-".
Definition mul_ (self : WireVector) (other : Operand) := logicop self other "*".

(** [as_wires(val)]: an [int] becomes a constant, a [long] is neither an
    [int] nor a wire vector. *)
Definition as_wires (val : Operand) : M WireVector :=
  match val with
  | OInt z =>
      if is_int z then Const_init CConst z None
      else raise (PyrtlError EmptyString)
  | OWire w => ret w
  end.

(** ** The derived classes *)

(** [Input.__init__] and [Output.__init__]. *)
Definition Input_init (c : Class) (bitwidth : option Z) (name : option string) :=
  WireVector_init c bitwidth name BNone.

Definition Output_init (c : Class) (bitwidth : option Z) (name : option string) :=
  WireVector_init c bitwidth name BNone.

(** [Register.__init__]. *)
Definition Register_init (c : Class) (bitwidth : option Z) (name : option string)
    : M WireVector :=
  self <- WireVector_init c bitwidth name BNone ;;
  modify (λ st, set_reg_in (delete (oid self) (reg_in st)) st) ;;
  ret self.

(** [Register._makereg]. *)
Definition _makereg (self : WireVector) : M WireVector :=
  r <- gets (λ st, reg_in st !! oid self) ;;
  match r with
  | None =>
      n <- WireVector_init CWireVector (bitwidth self)
             (Some (name self +:+ "'")) BNone ;;
      add_net (block self) (mkNet (Some "r") PNone [n] [self]) ;;
      modify (λ st, set_reg_in (<[oid self := n]> (reg_in st)) st) ;;
      ret n
  | Some n => ret n
  end.

(** The getter of the property [Register.next]. *)
Definition next_get (self : WireVector) : M WireVector := _makereg self.

(** The setter of the property [Register.next].  [self.reg_in == value]
    compares by identity. *)
Definition next_set (self : WireVector) (value : Operand) : M unit :=
  r <- gets (λ st, reg_in st !! oid self) ;;
  let same :=
    match r, value with
    | Some n, OWire v => bool_decide (oid n = oid v)
    | _, _ => false
    end in
  if same then ret tt
  else match r with
       | Some _ => raise (PyrtlError EmptyString)
       | None =>
           n <- _makereg self ;;
           ilshift n value ;;
           ret tt
       end.

(** The statement [r.next <<= value]: Python reads the property, applies
    [__ilshift__] to what it got, and assigns the outcome to the property. *)
Definition next_ilshift (self : WireVector) (value : Operand) : M unit :=
  n <- next_get self ;;
  n' <- ilshift n value ;;
  next_set self (OWire n').

(** ** [MemBlock] *)

Definition get_mem (h : nat) : M MemBlock := λ st,
  match memblocks st !! h with
  | Some m => (Ok m, st)
  | None => (Raise NameError, st)
  end.

Definition upd_mem (h : nat) (f : MemBlock → MemBlock) : M unit :=
  modify (λ st, set_memblocks (alter f h (memblocks st)) st).

(** [MemBlock.__init__]; the result is the handle of the new object. *)
Definition MemBlock_init (bitwidth addrwidth : Z) (name : option string)
    (blk : BlockArg) : M nat :=
  b <- match blk with
       | BBlock b => ret b
       | BNone => working_block
       | BOther => raise (PyrtlError
           "Attempt to link MemBlock to block not derived of type Block")
       end ;;
  if bitwidth <=? 0 then raise (PyrtlError EmptyString)
  else if addrwidth <=? 0 then raise (PyrtlError EmptyString)
  else
    name <- match name with
            | None => next_tempvar_name
            | Some n => ret n
            end ;;
    id <- next_memid ;;
    h <- new_oid ;;
    modify (λ st, set_memblocks
      (<[h := mkMem b bitwidth name addrwidth None id [] [] [] [] []]> (memblocks st)) st) ;;
    ret h.

(** [list.remove(x)]: the first element equal to [x] is dropped; [None]
    stands for the [ValueError] of a list without such an element. *)
Fixpoint list_remove (x : LogicNet) (l : list LogicNet) : option (list LogicNet) :=
  match l with
  | [] => None
  | y :: r => if LogicNet_eqb y x then Some r else (y ::.) <$> list_remove x r
  end.

Definition logic_remove (b : nat) (net : LogicNet) : M unit := λ st,
  let blk := get_block b st in
  match list_remove net (logic blk) with
  | Some l => (Ok tt, set_block b (mkBlock (wirevector_by_name blk) l) st)
  | None => (Raise ValueError, st)
  end.

(** [zip] of three lists, as long as the shortest of them. *)
Fixpoint zip3 {A} (xs ys zs : list A) : list (A * A * A) :=
  match xs, ys, zs with
  | x :: xs, y :: ys, z :: zs => (x, y, z) :: zip3 xs ys zs
  | _, _, _ => []
  end.

(** [MemBlock._update_net]. *)
Definition _update_net (h : nat) : M unit :=
  self <- get_mem h ;;
  match stored_net self with
  | Some net => logic_remove (mem_block self) net
  | None => ret tt
  end ;;
  if negb (bool_decide (length (write_addr self) = length (write_data self)))
  then raise AssertionError
  else
    let coupled_write_args :=
      zip3 (write_addr self) (write_data self) (write_enable self) in
    let flattened_write_args :=
      mjoin ((λ '(a, d, e), [a; d; e]) <$> coupled_write_args) in
    let net := mkNet (Some "m")
                 (PMem (mem_id self) (length (read_addr self)) (length (write_addr self)))
                 (read_addr self ++ flattened_write_args)
                 (read_data self) in
    add_net (mem_block self) net ;;
    upd_mem h (λ m, mkMem (mem_block m) (mem_bitwidth m) (mem_name m) (mem_addrwidth m)
                          (Some net) (mem_id m) (read_addr m) (read_data m)
                          (write_addr m) (write_data m) (write_enable m)).

(** [MemBlock.__getitem__]: a read access. *)
Definition MemBlock_getitem (h : nat) (item : Operand) : M WireVector :=
  match item with
  | OInt _ =>
      raise (PyrtlError
        "error, index to a memblock must be a WireVector (or derived) type")
  | OWire item =>
      self <- get_mem h ;;
      n <- len item ;;
      if negb (n =? mem_addrwidth self) then
        raise (PyrtlError
          ("error, width of memblock index " +:+ dq +:+ name item +:+ dq +:+ " is "
           +:+ pretty n +:+ ", addrwidth is " +:+ pretty (mem_addrwidth self)))
      else
        data <- WireVector_init CWireVector (Some (mem_bitwidth self)) None BNone ;;
        upd_mem h (λ m, mkMem (mem_block m) (mem_bitwidth m) (mem_name m) (mem_addrwidth m)
                          (stored_net m) (mem_id m) (read_addr m ++ [item])
                          (read_data m ++ [data])
                          (write_addr m) (write_data m) (write_enable m)) ;;
        _update_net h ;;
        ret data
  end.

(** The value stored by a write access: a wire vector, a
    [DataWithEnable(data, enable)] pair, or anything else. *)
Inductive MemVal : Type :=
  | MVWire (w : WireVector)
  | MVEnable (data enable : WireVector)
  | MVOther.

(** [MemBlock.__setitem__]: a write access. *)
Definition MemBlock_setitem (h : nat) (item : Operand) (val : MemVal) : M unit :=
  match item with
  | OInt _ => raise (PyrtlError EmptyString)
  | OWire item =>
      self <- get_mem h ;;
      n <- len item ;;
      if negb (n =? mem_addrwidth self) then raise (PyrtlError EmptyString)
      else
        let addr := item in
        de <- match val with
              | MVWire w => enable <- Const_init CConst 1 (Some 1) ;; ret (w, enable)
              | MVEnable data enable => ret (data, enable)
              | MVOther => raise (PyrtlError EmptyString)
              end ;;
        let '(data, enable) := de in
        ld <- len data ;;
        if negb (ld =? mem_bitwidth self) then raise (PyrtlError EmptyString)
        else
          le <- len enable ;;
          if negb (le =? 1) then raise (PyrtlError EmptyString)
          else
            upd_mem h (λ m, mkMem (mem_block m) (mem_bitwidth m) (mem_name m)
                          (mem_addrwidth m) (stored_net m) (mem_id m)
                          (read_addr m) (read_data m)
                          (write_addr m ++ [addr]) (write_data m ++ [data])
                          (write_enable m ++ [enable])) ;;
            _update_net h
  end.

(** * Vocabulary of the statements *)

(** ** Runs and the nets they append *)

(** The nets of block [b], in the order they were registered. *)
Definition logic_at (st : State) (b : nat) : list LogicNet := logic (get_block b st).

(** The nets of a log of (block, net) pairs that went to block [b]. *)
Definition log_at (b : nat) (adds : list (nat * LogicNet)) : list LogicNet :=
  (filter (λ p, p.1 = b) adds).*2.

(** [grows st st' adds]: from [st] to [st'] the nets of [adds] were appended,
    in that order, each to its block, and nothing else happened to the
    nets, the working block, the memory blocks or the memory identities;
    object identities are only ever taken upwards. *)
Record grows (st st' : State) (adds : list (nat * LogicNet)) : Prop := mkGrows {
  g_logic : ∀ b, logic_at st' b = logic_at st b ++ log_at b adds;
  g_oid : (next_oid st ≤ next_oid st')%nat;
  g_single : _singleton_block st' = _singleton_block st;
  g_mem : memblocks st' = memblocks st;
  g_memid : memid_count st' = memid_count st
}.

(** [steps st st' adds k]: as [grows], and moreover exactly [k] objects were
    created and no register was given its next wire. *)
Record steps (st st' : State) (adds : list (nat * LogicNet)) (k : nat) : Prop :=
  mkSteps {
    s_grows : grows st st' adds;
    s_oid : next_oid st' = (next_oid st + k)%nat;
    s_reg : reg_in st' = reg_in st
  }.

(** The block a constructor attaches the new object to. *)
Definition block_of (blk : BlockArg) (st : State) : nat :=
  match blk with
  | BBlock b => b
  | _ => _singleton_block st
  end.

(** The name a constructor gives the new object. *)
Definition name_of (name : option string) (st : State) : string :=
  match name with
  | Some n => n
  | None => "tmp" +:+ pretty (tempvar_count st)
  end.

(** [preserves R c]: whatever [c] returns or raises, the state it ends in is
    related by [R] to the state it started from. *)
Definition preserves {A} (R : State → State → Prop) (c : M A) : Prop :=
  ∀ st r st', c st = (r, st') → R st st'.

(** A net that is not the net of a memory block. *)
Definition nonmem (n : LogicNet) : Prop :=
  match op_param n with
  | PMem _ _ _ => False
  | _ => True
  end.

(** The wires an operator allocates: [fresh_wire st j w bw] says that [w] is
    the [j]-th object created from [st] on, a plain wire vector of the
    working block, [bw] bits wide. *)
Definition fresh_wire (st : State) (j : nat) (w : WireVector) (bw : Z) : Prop :=
  oid w = (next_oid st + j)%nat ∧ cls w = CWireVector
  ∧ block w = _singleton_block st ∧ bitwidth w = Some bw.

(** ** Shapes of wires and nets *)

(** The width [Const] infers when none is given. *)
Definition inferred_width (num : Z) : Z := Z.of_nat (String.length (bin num)) - 2.

(** The net that drives [n] extension bits from bit 0 of [extbit]. *)
Definition ext_net (n : Z) (extbit extvector : WireVector) : LogicNet :=
  mkNet (Some "s") (PTuple (replicate (Z.to_nat n) 0)) [extbit] [extvector].

(** The net that concatenates the extension bits above [self]. *)
Definition cat_net (extvector self w : WireVector) : LogicNet :=
  mkNet (Some "c") PNone [extvector; self] [w].

(** The net that reads the sign bit of a [k]-bit [self] into [sb]. *)
Definition signbit_net (k : Z) (self sb : WireVector) : LogicNet :=
  mkNet (Some "s") (PTuple [k - 1]) [self] [sb].

(** Constants are recorded by [Const] only: the operations that create no
    constant leave [const_val] alone. *)
Definition same_const_val (st st' : State) : Prop := const_val st' = const_val st.

(** The constant that drives the bits of a zero extension. *)
Definition zero_bit (st st' : State) (c : WireVector) : Prop :=
  oid c = next_oid st ∧ cls c = CConst ∧ bitwidth c = Some 1
  ∧ const_val st' !! oid c = Some 0.

(** A name is free in the working block. *)
Definition name_free (n : string) (st : State) : Prop :=
  wirevector_by_name (get_block (_singleton_block st) st) !! n = None.

(** The name [Const] would give a constant of value [v] created in [st]. *)
Definition const_name (v : Z) (st : State) : string :=
  "const" +:+ pretty (constvar_count st) +:+ "_" +:+ pretty v.

(** The classes that override [__ilshift__] or inherit the override. *)
Definition assign_forbidden (c : Class) : bool :=
  match c with
  | CInput | CSignedInput | CConst | CSignedConst | CRegister | CSignedRegister => true
  | _ => false
  end.

(** The nets an extension appends are select and concatenate nets. *)
Definition ext_kind (p : nat * LogicNet) : Prop :=
  op p.2 = Some "s" ∨ op p.2 = Some "c".

(** The extension rule of a class. *)
Definition extend_as (c : Class) (self : WireVector) (n : Z) : M WireVector :=
  if is_signed c then sign_extended self n else zero_extended self n.

(** The raw operand of an operator, once it is a wire vector. *)
Definition operand_wire (other : Operand) (st : State) (b : WireVector)
    (stb : State) : Prop :=
  match other with
  | OWire w => b = w ∧ stb = st
  | OInt z => Const_init CConst z None st = (Ok b, stb)
  end.

(** The width [logicop] gives its result, from the common operand width. *)
Definition result_width (op : string) (w : Z) : Z :=
  let r := if bool_decide (op = "+") || bool_decide (op = "-") then w + 1 else w in
  if bool_decide (op = "*") then r * 2 else r.

(** ** Sample designs *)

(** Two plain wire vectors [a] (2 bits) and [b] (3 bits) and a signed wire
    vector [sa] (2 bits), declared in this order in the initial state. *)
Definition wire_a : WireVector := mkWire 1 CWireVector 0 "a" (Some 2).
Definition wire_b : WireVector := mkWire 2 CWireVector 0 "b" (Some 3).
Definition wire_sa : WireVector := mkWire 3 CSignedWireVector 0 "sa" (Some 2).

(** The wire allocated for [a * b] right after the three declarations. *)
Definition wire_ab : WireVector := mkWire 7 CWireVector 0 "tmp2" (Some 6).

(** The three declarations, and the state they lead to. *)
Definition declare_abs : M unit :=
  WireVector_init CWireVector (Some 2) (Some "a") BNone ;;
  WireVector_init CWireVector (Some 3) (Some "b") BNone ;;
  WireVector_init CSignedWireVector (Some 2) (Some "sa") BNone ;;
  ret tt.

Definition st_abs : State := (declare_abs initial_state).2.

(** ** The statements that fail, as the specification words them *)

(** The claim that a product is as wide as the two operand widths added. *)
Definition mul_width_is_sum : Prop :=
  ∀ a b st s st' n m,
    bitwidth a = Some n → bitwidth b = Some m →
    mul_ a (OWire b) st = (Ok s, st') → bitwidth s = Some (n + m).

(** The claim that [concat] always allocates: its result differs from every
    argument and one net is appended to some block. *)
Definition concat_allocates (args : list WireVector) (st : State) : Prop :=
  ∀ r st', concat args st = (Ok r, st') →
    (∀ a, a ∈ args → oid r ≠ oid a)
    ∧ ∃ b net, logic_at st' b = logic_at st b ++ [net].

(** The net that keeps the [t] low-order bits of [src]. *)
Definition low_bits_net (t : Z) (src x : WireVector) : LogicNet :=
  mkNet (Some "s") (PTuple (seqZ 0 t)) [src] [x].

(** The net that connects [x] to the target [self]. *)
Definition connect_net (x self : WireVector) : LogicNet :=
  mkNet None PNone [x] [self].

(** Modelled from the spec: the value a select net gives its output (the
    simulator is not among the sources).  Bit 0 is the least significant
    bit, and the output takes the named bit positions of the input in
    order. *)
Fixpoint bits_value (bits : list bool) : Z :=
  match bits with
  | [] => 0
  | b :: r => Z.b2z b + 2 * bits_value r
  end.

Definition select_value (sel : list Z) (v : Z) : Z :=
  bits_value (Z.testbit v <$> sel).

(** The claim that a narrower source is extended by the rule of the
    target's class. *)
Definition connect_extends_by_target_rule : Prop :=
  ∀ tgt src st r st' t s,
    bitwidth tgt = Some t → bitwidth src = Some s → s < t →
    ilshift tgt (OWire src) st = (Ok r, st') →
    ∃ x st2, extend_as (cls tgt) src t st = (Ok x, st2)
      ∧ steps st2 st' [(block tgt, connect_net x tgt)] 0.

(** The net of the register [self] with next wire [n]. *)
Definition reg_net (n self : WireVector) : LogicNet :=
  mkNet (Some "r") PNone [n] [self].

(** A register [r], bound once with [r.next <<= a]. *)
Definition wire_r : WireVector := mkWire 4 CRegister 0 "r" (Some 2).
Definition wire_rn : WireVector := mkWire 5 CWireVector 0 "r'" (Some 2).

(** The state after the register is declared and bound once. *)
Definition st_reg : State :=
  ((declare_abs ;;
    r <- Register_init CRegister (Some 2) (Some "r") ;;
    next_ilshift r (OWire wire_a)) initial_state).2.

(** ** Memory blocks *)

(** A net is the net of the memory with identity [id]. *)
Definition is_mem_net (id : nat) (n : LogicNet) : bool :=
  match op_param n with
  | PMem i _ _ => bool_decide (i = id)
  | _ => false
  end.

(** The live nets of the memory [id] in block [b]. *)
Definition mem_nets (id : nat) (st : State) (b : nat) : list LogicNet :=
  filter (λ n, is_mem_net id n) (logic_at st b).

(** The arguments contributed by the write ports, as [_update_net] lays
    them out. *)
Definition flattened_write_args (m : MemBlock) : list WireVector :=
  mjoin ((λ '(a, d, e), [a; d; e])
           <$> zip3 (write_addr m) (write_data m) (write_enable m)).

(** The net [_update_net] derives from the port lists of [m]. *)
Definition mem_net_of (m : MemBlock) : LogicNet :=
  mkNet (Some "m")
        (PMem (mem_id m) (length (read_addr m)) (length (write_addr m)))
        (read_addr m ++ flattened_write_args m)
        (read_data m).

(** The netlist holds the stored net of [m], once, in the block of [m], and
    no other net of that memory. *)
Definition mem_ok (st : State) (m : MemBlock) : Prop :=
  ∀ b, mem_nets (mem_id m) st b
       = if decide (b = mem_block m) then option_list (stored_net m) else [].

(** The invariant of the memory blocks of a state. *)
Record wf (st : State) : Prop := mkWf {
  wf_ok : ∀ h m, memblocks st !! h = Some m → mem_ok st m;
  wf_len : ∀ h m, memblocks st !! h = Some m →
    length (write_addr m) = length (write_data m)
    ∧ length (write_data m) = length (write_enable m)
    ∧ length (read_addr m) = length (read_data m);
  wf_inj : ∀ h1 h2 m1 m2,
    memblocks st !! h1 = Some m1 → memblocks st !! h2 = Some m2 →
    mem_id m1 = mem_id m2 → h1 = h2;
  wf_ids : ∀ h m, memblocks st !! h = Some m → (mem_id m < memid_count st)%nat;
  wf_nets : ∀ b n i r w,
    n ∈ logic_at st b → op_param n = PMem i r w → (i < memid_count st)%nat
}.

(** What an access leaves behind for the block [h]: the object [m'], whose
    stored net is the one derived from its port lists and is its only live
    net, in a state that satisfies the invariant again. *)
Definition mem_post (st' : State) (h : nat) (m' : MemBlock) : Prop :=
  memblocks st' !! h = Some m'
  ∧ stored_net m' = Some (mem_net_of m')
  ∧ (∀ b, mem_nets (mem_id m') st' b
          = if decide (b = mem_block m') then [mem_net_of m'] else [])
  ∧ wf st'.

(** The changes of state that leave the memory blocks and their nets alone. *)
Definition mem_frame (st st' : State) : Prop :=
  ∃ adds, grows st st' adds ∧ Forall (λ p, nonmem p.2) adds.

(** The three ways the module updates a memory block object: a new stored
    net, *)
Definition store_net (net : LogicNet) (m : MemBlock) : MemBlock :=
  mkMem (mem_block m) (mem_bitwidth m) (mem_name m) (mem_addrwidth m)
        (Some net) (mem_id m) (read_addr m) (read_data m)
        (write_addr m) (write_data m) (write_enable m).

(** A further read port. *)
Definition add_read (item data : WireVector) (m : MemBlock) : MemBlock :=
  mkMem (mem_block m) (mem_bitwidth m) (mem_name m) (mem_addrwidth m)
        (stored_net m) (mem_id m) (read_addr m ++ [item]) (read_data m ++ [data])
        (write_addr m) (write_data m) (write_enable m).

(** A further write port. *)
Definition add_write (addr data enable : WireVector) (m : MemBlock) : MemBlock :=
  mkMem (mem_block m) (mem_bitwidth m) (mem_name m) (mem_addrwidth m)
        (stored_net m) (mem_id m) (read_addr m) (read_data m)
        (write_addr m ++ [addr]) (write_data m ++ [data])
        (write_enable m ++ [enable]).

(** How an access changed the nets of the block: the net stored before, if
    any, is gone, the new net is last, every other net kept its place. *)
Definition net_replaced (st st' : State) (m m' : MemBlock) : Prop :=
  (∀ b, b ≠ mem_block m → logic_at st' b = logic_at st b)
  ∧ match stored_net m with
    | Some old => ∃ l1 l2, logic_at st (mem_block m) = l1 ++ old :: l2
        ∧ logic_at st' (mem_block m) = l1 ++ l2 ++ [mem_net_of m']
    | None => logic_at st' (mem_block m)
              = logic_at st (mem_block m) ++ [mem_net_of m']
    end.

(** The data and enable wires of a write access, and the state in which the
    port is recorded: a plain data wire gets a new constant 1 as enable. *)
Definition write_value (val : MemVal) (st : State) (data enable : WireVector)
    (stc : State) : Prop :=
  match val with
  | MVWire w => data = w ∧ Const_init CConst 1 (Some 1) st = (Ok enable, stc)
  | MVEnable d e => data = d ∧ enable = e ∧ stc = st
  | MVOther => False
  end.

(** A design with the three sample wires and one memory block of 8-bit
    words under 2-bit addresses, not yet accessed. *)
Definition mem0 : MemBlock := mkMem 0 8 "tmp0" 2 None 0 [] [] [] [] [].

(** The state with the memory block, whose handle is 4. *)
Definition st_mem : State :=
  ((declare_abs ;; MemBlock_init 8 2 None BNone) initial_state).2.

(** The data wire of the first read access. *)
Definition wire_d : WireVector := mkWire 5 CWireVector 0 "tmp1" (Some 8).

(** ** Further vocabulary: slices *)

(** The bounds of a slice without a step over [k] positions, after the
    interpreter has clipped them: an absent start is 0, an absent stop is
    [k]. *)
Definition slice_lo (start : option Z) (k : Z) : Z :=
  match start with
  | None => 0
  | Some v => slice_clip v 1 k
  end.

Definition slice_hi (stop : option Z) (k : Z) : Z :=
  match stop with
  | None => k
  | Some v => slice_clip v 1 k
  end.

(** The select net of [w = self[item]] over the positions [sel]. *)
Definition select_net (sel : list Z) (self w : WireVector) : LogicNet :=
  mkNet (Some "s") (PTuple sel) [self] [w].

(** ** Further vocabulary: what a failed call leaves alone *)

(** Nothing that the module registers has changed from [st] to [st']: no
    wire, no net, no register binding, no constant value, no memory block.
    Only counters may have moved. *)
Definition registers_nothing (st st' : State) : Prop :=
  blocks st' = blocks st ∧ reg_in st' = reg_in st
  ∧ const_val st' = const_val st ∧ memblocks st' = memblocks st.

(** ** Further vocabulary: a register not yet bound *)

(** The state after the three sample wires and the register [r] are
    declared; the next surface of [r] has not been touched. *)
Definition st_r0 : State :=
  ((declare_abs ;; Register_init CRegister (Some 2) (Some "r")) initial_state).2.

(** ** Further vocabulary: memory blocks *)

(** The memory block objects and every net are the same in [st'] as in
    [st]. *)
Definition mem_untouched (st st' : State) : Prop :=
  memblocks st' = memblocks st ∧ ∀ b, logic_at st' b = logic_at st b.

(** The lists of a memory net are as long as its parameter says: one input
    per read port and three per write port, one output per read port. *)
Definition net_arity_ok (net : LogicNet) : Prop :=
  match op_param net with
  | PMem _ nread nwrite =>
      length (args net) = (nread + 3 * nwrite)%nat ∧ length (dests net) = nread
  | _ => False
  end.

(** Every port recorded in [m] has the widths of [m]: addresses the
    address width, data the data width, enables one bit. *)
Definition ports_ok (m : MemBlock) : Prop :=
  Forall (λ a, bitwidth a = Some (mem_addrwidth m)) (read_addr m)
  ∧ Forall (λ d, bitwidth d = Some (mem_bitwidth m)) (read_data m)
  ∧ Forall (λ a, bitwidth a = Some (mem_addrwidth m)) (write_addr m)
  ∧ Forall (λ d, bitwidth d = Some (mem_bitwidth m)) (write_data m)
  ∧ Forall (λ e, bitwidth e = Some 1) (write_enable m).

(** Every memory block object of [st] has ports of its own widths, and the
    net it stores, if any, is the net derived from its port lists. *)
Definition ports_inv (st : State) : Prop :=
  ∀ h m, memblocks st !! h = Some m →
    ports_ok m ∧ ∀ net, stored_net m = Some net → net = mem_net_of m.

(** The two invariants of the memory blocks together. *)
Definition mem_inv (st : State) : Prop := wf st ∧ ports_inv st.

(** [keeps c]: from a state that satisfies the invariants, [c] ends in a
    state that satisfies them, whatever it returns or raises. *)
Definition keeps {A} (c : M A) : Prop :=
  ∀ st r st', mem_inv st → c st = (r, st') → mem_inv st'.

(** The memory block objects other than [h], and the nets of these
    memories, are the same in [st'] as in [st]. *)
Definition others_kept (h : nat) (st st' : State) : Prop :=
  ∀ h' m2, h' ≠ h → memblocks st !! h' = Some m2 →
    memblocks st' !! h' = Some m2
    ∧ ∀ b, mem_nets (mem_id m2) st' b = mem_nets (mem_id m2) st b.

(** The sample memory after a first read at the address wire [a]. *)
Definition st_mem1 : State := (MemBlock_getitem 4 (OWire wire_a) st_mem).2.

(** The sample design with a second memory block, whose handle is 5. *)
Definition st_mem2 : State := (MemBlock_init 8 2 None BNone st_mem).2.

(** ** Further vocabulary: what no operation undoes *)

(** From [st] to [st'] nothing was undone: every wire registered in a block
    is still registered there under its name, the nets of every block are
    those of before followed by new ones, no identity was given back, the
    working block is the same, and the memory blocks and the nets of every
    memory are as they were. *)
Definition monotone (st st' : State) : Prop :=
  (∀ b n w, wirevector_by_name (get_block b st) !! n = Some w →
            wirevector_by_name (get_block b st') !! n = Some w)
  ∧ (∀ b, logic_at st b `prefix_of` logic_at st' b)
  ∧ (next_oid st ≤ next_oid st')%nat
  ∧ _singleton_block st' = _singleton_block st
  ∧ memblocks st' = memblocks st
  ∧ ∀ id b, mem_nets id st' b = mem_nets id st b.

(** * Properties *)

(** ** Reasoning about runs *)

Lemma bind_Ok {A B} (c : M A) (k : A → M B) st b st' :
  bind c k st = (Ok b, st') →
  ∃ a st1, c st = (Ok a, st1) ∧ k a st1 = (Ok b, st').
Proof.
  unfold bind. destruct (c st) as [[a|e] st1]; [eauto | discriminate].
Qed.

Lemma bind_run {A B} (c : M A) (k : A → M B) st r st' :
  bind c k st = (r, st') →
  (∃ a st1, c st = (Ok a, st1) ∧ k a st1 = (r, st'))
  ∨ (∃ e, c st = (Raise e, st') ∧ r = Raise e).
Proof.
  unfold bind. destruct (c st) as [[a|e] st1]; [eauto | ].
  intros [= <- <-]; eauto.
Qed.

Lemma ret_run {A} (a : A) st r st' : ret a st = (r, st') → r = Ok a ∧ st' = st.
Proof. by intros [= <- <-]. Qed.

Lemma raise_run {A} e st (r : result A) st' :
  raise e st = (r, st') → r = Raise e ∧ st' = st.
Proof. by intros [= <- <-]. Qed.

(** ** The nets a run appends *)

Lemma log_at_app b l1 l2 : log_at b (l1 ++ l2) = log_at b l1 ++ log_at b l2.
Proof. unfold log_at. by rewrite filter_app, fmap_app. Qed.

Lemma log_at_nil b : log_at b [] = [].
Proof. done. Qed.

Lemma log_at_here b net : log_at b [(b, net)] = [net].
Proof. unfold log_at. rewrite filter_cons_True by done. done. Qed.

Lemma log_at_there b b' net : b' ≠ b → log_at b [(b', net)] = [].
Proof. intros. unfold log_at. rewrite filter_cons_False by done. done. Qed.

Lemma grows_refl st : grows st st [].
Proof. split; auto. intros. by rewrite log_at_nil, app_nil_r. Qed.

Lemma grows_trans st1 st2 st3 l1 l2 :
  grows st1 st2 l1 → grows st2 st3 l2 → grows st1 st3 (l1 ++ l2).
Proof.
  intros [] []. split; try congruence; try lia.
  intros b. rewrite log_at_app, app_assoc. congruence.
Qed.

Lemma steps_refl st : steps st st [] 0.
Proof. split; auto using grows_refl. Qed.

Lemma steps_trans st1 st2 st3 l1 l2 k1 k2 :
  steps st1 st2 l1 k1 → steps st2 st3 l2 k2 → steps st1 st3 (l1 ++ l2) (k1 + k2).
Proof.
  intros [] []. split; eauto using grows_trans; try congruence; lia.
Qed.

Lemma logic_at_set_block b blk st b' :
  logic_at (set_block b blk st) b' = if decide (b = b') then logic blk else logic_at st b'.
Proof.
  unfold logic_at, get_block, set_block; simpl.
  case_decide; subst; [by rewrite lookup_insert_eq | by rewrite lookup_insert_ne].
Qed.

(** ** The primitives of [Block] *)

Lemma add_net_run b net st r st' :
  add_net b net st = (r, st') →
  r = Ok tt ∧ steps st st' [(b, net)] 0 ∧ const_val st' = const_val st.
Proof.
  intros [= <- <-]. split_and!; try done. split; simpl; try done; try lia.
  split; try done. intros b'. rewrite logic_at_set_block. simpl. case_decide; subst.
  - by rewrite log_at_here.
  - by rewrite log_at_there, app_nil_r.
Qed.

Lemma add_wirevector_run b w st r st' :
  add_wirevector b w st = (r, st') →
  steps st st' [] 0 ∧ const_val st' = const_val st
  ∧ (∀ e, r = Raise e → st' = st)
  ∧ (r = Ok tt → wirevector_by_name (get_block b st) !! name w = None
       ∧ wirevector_by_name (get_block b st') !! name w = Some w).
Proof.
  unfold add_wirevector.
  destruct (wirevector_by_name (get_block b st) !! name w) eqn:E; intros [= <- <-].
  - split_and!; auto using steps_refl. done.
  - split_and!; try done.
    + split; simpl; try done; try lia.
      split; try done. intros b'. rewrite logic_at_set_block, log_at_nil, app_nil_r.
      by case_decide; subst.
    + intros _. split; [done|].
      unfold get_block, set_block; simpl. rewrite lookup_insert_eq. simpl.
      by rewrite lookup_insert_eq.
Qed.

(** ** [WireVector.__init__] *)

Lemma maxint_eq : maxint = 2 ^ 63 - 1.
Proof. reflexivity. Qed.

Lemma is_int_spec v : is_int v = true ↔ - maxint - 1 ≤ v ≤ maxint.
Proof. unfold is_int. rewrite andb_true_iff, !Z.leb_le. done. Qed.

Lemma is_int_true v : - maxint - 1 ≤ v ≤ maxint → is_int v = true.
Proof. apply is_int_spec. Qed.

Lemma is_int_false v : v < - maxint - 1 ∨ maxint < v → is_int v = false.
Proof.
  intros H. destruct (is_int v) eqn:E; [|done].
  apply is_int_spec in E. lia.
Qed.

Lemma next_tempvar_name_run st r st' :
  next_tempvar_name st = (r, st') →
  r = Ok ("tmp" +:+ pretty (tempvar_count st)) ∧ steps st st' [] 0
  ∧ const_val st' = const_val st.
Proof.
  intros [= <- <-]. split_and!; try done. split; simpl; try done; try lia.
  split; try done. intros b. by rewrite log_at_nil, app_nil_r.
Qed.

Lemma next_constvar_name_run v st r st' :
  next_constvar_name v st = (r, st') →
  r = Ok ("const" +:+ pretty (constvar_count st) +:+ "_" +:+ pretty v)
  ∧ steps st st' [] 0 ∧ const_val st' = const_val st.
Proof.
  intros [= <- <-]. split_and!; try done. split; simpl; try done; try lia.
  split; try done. intros b. by rewrite log_at_nil, app_nil_r.
Qed.

Lemma new_oid_run st r st' :
  new_oid st = (r, st') →
  r = Ok (next_oid st) ∧ steps st st' [] 1 ∧ const_val st' = const_val st.
Proof.
  intros [= <- <-]. split_and!; try done. split; simpl; try done; try lia.
  split; simpl; try done; try lia. intros b. by rewrite log_at_nil, app_nil_r.
Qed.

Lemma WireVector_init_Ok c bw nm blk st w st' :
  WireVector_init c bw nm blk st = (Ok w, st') →
  w = mkWire (next_oid st) c (block_of blk st) (name_of nm st) bw
  ∧ steps st st' [] 1 ∧ const_val st' = const_val st
  ∧ (∀ n, bw = Some n → 0 < n)
  ∧ (lower (name w) ∉ clock_names)
  ∧ wirevector_by_name (get_block (block w) st') !! name w = Some w.
Proof.
  unfold WireVector_init. intros H.
  apply bind_Ok in H as (b & st1 & Hb & H).
  assert (b = block_of blk st ∧ st1 = st) as [-> ->].
  { destruct blk; simpl in *; unfold working_block, gets, ret, raise in *;
      by simplify_eq. }
  clear Hb.
  apply bind_Ok in H as (n & st1 & Hn & H).
  assert (n = name_of nm st ∧ steps st st1 [] 0 ∧ const_val st1 = const_val st)
    as (-> & Hs1 & Hc1).
  { destruct nm; simpl in *.
    - apply ret_run in Hn as [[= <-] ->]. auto using steps_refl.
    - apply next_tempvar_name_run in Hn as ([= <-] & ? & ?). done. }
  clear Hn. case_bool_decide as Hclk; [discriminate|].
  apply bind_Ok in H as ([] & st2 & Hbw & H).
  assert (st2 = st1 ∧ ∀ k, bw = Some k → 0 < k) as [-> Hpos].
  { destruct bw as [k|]; simpl in *.
    - destruct (is_int k); [|discriminate]. simpl in Hbw.
      destruct (Z.leb_spec k 0); [discriminate|].
      apply ret_run in Hbw as [_ ->]. split; [done|]. by intros ? [= <-].
    - apply ret_run in Hbw as [_ ->]. done. }
  clear Hbw.
  apply bind_Ok in H as (o & st2 & Ho & H).
  apply new_oid_run in Ho as ([= ->] & Hs2 & Hc2).
  apply bind_Ok in H as ([] & st3 & Hadd & H). apply ret_run in H as [[= ->] ->].
  apply add_wirevector_run in Hadd as (Hs3 & Hc3 & _ & Hw).
  destruct (Hw eq_refl) as [_ Hw']. simpl in *.
  pose proof (steps_trans _ _ _ _ _ _ _ (steps_trans _ _ _ _ _ _ _ Hs1 Hs2) Hs3) as Hs.
  simpl in Hs. pose proof (s_oid _ _ _ _ Hs1) as E.
  rewrite Nat.add_0_r in E. rewrite E in *.
  split_and!; try done; congruence.
Qed.

(** ** Relations every run of an operation respects *)

Section Preserve.
Variable R : State → State → Prop.
Hypothesis R_refl : ∀ st, R st st.
Hypothesis R_trans : ∀ st1 st2 st3, R st1 st2 → R st2 st3 → R st1 st3.

Lemma preserves_ret {A} (a : A) : preserves R (ret a).
Proof. intros st r st' [= <- <-]. apply R_refl. Qed.

Lemma preserves_raise {A} e : preserves R (@raise A e).
Proof. intros st r st' [= <- <-]. apply R_refl. Qed.

Lemma preserves_gets {A} (f : State → A) : preserves R (gets f).
Proof. intros st r st' [= <- <-]. apply R_refl. Qed.

Lemma preserves_lift {A} (x : result A) : preserves R (lift x).
Proof. intros st r st' [= <- <-]. apply R_refl. Qed.

Lemma preserves_bind {A B} (c : M A) (k : A → M B) :
  preserves R c → (∀ a, preserves R (k a)) → preserves R (bind c k).
Proof.
  intros Hc Hk st r st' H.
  apply bind_run in H as [(a & st1 & H1 & H2)|(e & H1 & _)]; [|by eapply Hc].
  eapply R_trans; [by eapply Hc | by eapply Hk].
Qed.

Lemma preserves_mapM {A B} (f : A → M B) l :
  (∀ a, preserves R (f a)) → preserves R (mapM f l).
Proof.
  intros Hf. induction l as [|x l IH]; simpl.
  - apply preserves_ret.
  - apply preserves_bind; [done|]. intros y.
    apply preserves_bind; [done|]. intros ys. apply preserves_ret.
Qed.

(** What the relation has to allow the primitives to do. *)
Hypothesis R_tempvar : preserves R next_tempvar_name.
Hypothesis R_constvar : ∀ v, preserves R (next_constvar_name v).
Hypothesis R_new_oid : preserves R new_oid.
Hypothesis R_add_wirevector : ∀ b w, preserves R (add_wirevector b w).
Hypothesis R_add_net : ∀ b net, nonmem net → preserves R (add_net b net).
Hypothesis R_const_val :
  ∀ f, preserves R (modify (λ st, set_const_val (f st) st)).

Ltac pres_with known :=
  repeat first
    [ known
    | apply preserves_ret | apply preserves_raise | apply preserves_gets
    | apply R_tempvar | apply R_constvar | apply R_new_oid
    | apply R_add_wirevector | apply R_const_val
    | apply R_add_net; exact I
    | apply preserves_mapM; intros ?
    | apply preserves_bind; [|intros ?]
    | match goal with
      | |- preserves _ (match ?x with _ => _ end) => destruct x
      | |- preserves _ (if ?b then _ else _) => destruct b
      end ].
Ltac pres := pres_with fail.

Lemma preserves_len w : preserves R (len w).
Proof. unfold len. pres. Qed.

Lemma preserves_WireVector_init c bw nm blk :
  preserves R (WireVector_init c bw nm blk).
Proof. unfold WireVector_init, working_block. pres. Qed.

Lemma preserves_Const_init c v bw : preserves R (Const_init c v bw).
Proof.
  unfold Const_init. pres_with ltac:(apply preserves_WireVector_init).
Qed.

Lemma preserves_invert w : preserves R (invert w).
Proof.
  unfold invert.
  pres_with ltac:(first [apply preserves_len | apply preserves_WireVector_init]).
Qed.

Lemma preserves_getitem w item : preserves R (getitem w item).
Proof.
  unfold getitem.
  pres_with ltac:(first [apply preserves_lift
                        | apply preserves_WireVector_init]).
Qed.

Lemma preserves_concat l : preserves R (concat l).
Proof.
  unfold concat.
  pres_with ltac:(first [apply preserves_len | apply preserves_WireVector_init]).
Qed.

Lemma preserves__extend_with_bit w n e : preserves R (_extend_with_bit w n e).
Proof.
  unfold _extend_with_bit.
  pres_with ltac:(first [apply preserves_concat | apply preserves_WireVector_init]).
Qed.

Lemma preserves_extended w n : preserves R (extended w n).
Proof.
  unfold extended, sign_extended, zero_extended.
  pres_with ltac:(first [apply preserves_getitem | apply preserves_Const_init
                        | apply preserves__extend_with_bit]).
Qed.

Lemma preserves_WireVector_ilshift w o : preserves R (WireVector_ilshift w o).
Proof.
  unfold WireVector_ilshift.
  pres_with ltac:(first [apply preserves_getitem | apply preserves_Const_init
                        | apply preserves_extended]).
Qed.

Lemma preserves_ilshift w o : preserves R (ilshift w o).
Proof. unfold ilshift. pres_with ltac:(apply preserves_WireVector_ilshift). Qed.

Lemma preserves_logicop w o op : preserves R (logicop w o op).
Proof.
  unfold logicop.
  pres_with ltac:(first [apply preserves_len | apply preserves_Const_init
                        | apply preserves_extended
                        | apply preserves_WireVector_init]).
Qed.

(** The operations on registers also assign [reg_in]. *)
Hypothesis R_reg_in :
  ∀ f, preserves R (modify (λ st, set_reg_in (f st) st)).

Lemma preserves_Register_init c bw nm : preserves R (Register_init c bw nm).
Proof.
  unfold Register_init.
  pres_with ltac:(first [apply preserves_WireVector_init | apply R_reg_in]).
Qed.

Lemma preserves__makereg w : preserves R (_makereg w).
Proof.
  unfold _makereg.
  pres_with ltac:(first [apply preserves_WireVector_init | apply R_reg_in]).
Qed.

Lemma preserves_next_set w v : preserves R (next_set w v).
Proof.
  unfold next_set.
  pres_with ltac:(first [apply preserves__makereg | apply preserves_ilshift]).
Qed.

Lemma preserves_next_ilshift w v : preserves R (next_ilshift w v).
Proof.
  unfold next_ilshift, next_get.
  pres_with ltac:(first [apply preserves__makereg | apply preserves_ilshift
                        | apply preserves_next_set]).
Qed.
End Preserve.

(** ** What a successful run of each operation does *)

Lemma fresh_wire_later st st1 l k j w bw :
  steps st st1 l k → fresh_wire st1 j w bw → fresh_wire st (k + j) w bw.
Proof.
  intros [[] Ho _] (? & ? & ? & ?). repeat split; try done; try congruence. lia.
Qed.

Lemma fresh_wire_new st j w bw : fresh_wire st j w bw → (next_oid st ≤ oid w)%nat.
Proof. intros (-> & _). lia. Qed.

Lemma WireVector_init_fresh bw st w st' :
  WireVector_init CWireVector (Some bw) None BNone st = (Ok w, st') →
  fresh_wire st 0 w bw ∧ steps st st' [] 1 ∧ 0 < bw.
Proof.
  intros H. apply WireVector_init_Ok in H as (-> & Hs & _ & Hpos & _).
  split_and!; [repeat split; simpl; lia | done | by apply Hpos].
Qed.

Lemma shiftr_zero_lt num w : 0 ≤ num → 0 ≤ w → Z.shiftr num w = 0 ↔ num < 2 ^ w.
Proof.
  intros Hn Hw. rewrite Z.shiftr_div_pow2 by done.
  rewrite Z.div_small_iff by lia. lia.
Qed.

Lemma Const_init_Ok c v bw st w st' :
  Const_init c v bw st = (Ok w, st') →
  let width := default (inferred_width v) bw in
  w = mkWire (next_oid st) c (_singleton_block st)
        ("const" +:+ pretty (constvar_count st) +:+ "_" +:+ pretty v) (Some width)
  ∧ steps st st' [] 1
  ∧ const_val st' = <[oid w := v]> (const_val st)
  ∧ 0 ≤ v < 2 ^ width ∧ 0 < width.
Proof.
  intros H width. unfold Const_init in H.
  apply bind_Ok in H as (n & st1 & Hn & H).
  apply next_constvar_name_run in Hn as ([= <-] & Hs1 & Hc1).
  destruct (is_int v).
  2:{ destruct bw as [b|]; [|discriminate]. destruct (is_int b); discriminate. }
  fold (inferred_width v) in H.
  replace (match bw with Some bw0 => Some bw0 | None => Some (inferred_width v) end)
    with (Some width) in H by (by destruct bw).
  destruct (is_int width); [|discriminate]. simpl in H.
  destruct (Z.ltb_spec v 0); [discriminate|].
  destruct (Z.ltb_spec width 0); [discriminate|].
  destruct (Z.eqb_spec (Z.shiftr v width) 0) as [Hfit|]; [|discriminate]. simpl in H.
  apply shiftr_zero_lt in Hfit; [|done..].
  apply bind_Ok in H as (self & st2 & Hw & H).
  apply WireVector_init_Ok in Hw as (-> & Hs2 & Hc2 & Hpos & _).
  apply bind_Ok in H as ([] & st3 & Hm & H). apply ret_run in H as [[= ->] ->].
  unfold modify in Hm. simplify_eq. simpl in *.
  pose proof (steps_trans _ _ _ _ _ _ _ Hs1 Hs2) as Hs. simpl in Hs.
  pose proof (s_oid _ _ _ _ Hs1) as E. rewrite Nat.add_0_r in E. rewrite E.
  assert (_singleton_block st1 = _singleton_block st) as ->
    by apply Hs1.
  split_and!; try done.
  - destruct Hs as [[] ? ?]. repeat split; simpl; done.
  - by rewrite Hc2, Hc1.
  - by apply Hpos.
Qed.

(** Positions selected by the subscripts the module itself uses. *)
Lemma selectednums_last bw :
  0 < bw → selectednums (seqZ 0 bw) (IInt (-1)) = Ok [bw - 1].
Proof.
  intros Hbw. unfold selectednums, list_getitem.
  rewrite length_seqZ, Z2Nat.id by lia. simpl.
  destruct (Z.ltb_spec (-1 + bw) 0); [lia|].
  destruct (Z.leb_spec bw (-1 + bw)); [lia|]. simpl.
  rewrite lookup_seqZ_lt by lia. do 3 f_equal. lia.
Qed.

Lemma omap_id_on {A} (f : A → option A) (l : list A) :
  (∀ x, x ∈ l → f x = Some x) → omap f l = l.
Proof.
  induction l as [|x l IH]; intros Hf; [done|]. simpl.
  rewrite (Hf x) by left. f_equal. apply IH. intros y Hy. apply Hf. by right.
Qed.

Lemma omap_lookup_seqZ (bw t : Z) :
  t ≤ bw →
  omap (λ k, seqZ 0 bw !! Z.to_nat (0 + k * 1)) (seqZ 0 t) = seqZ 0 t.
Proof.
  intros Ht. apply omap_id_on. intros x Hx. apply elem_of_seqZ in Hx.
  rewrite lookup_seqZ_lt by lia. f_equal. lia.
Qed.

Lemma selectednums_low bw t :
  0 < t → t ≤ bw → selectednums (seqZ 0 bw) (ISlice None (Some t) None) = Ok (seqZ 0 t).
Proof.
  intros H0 Ht. unfold selectednums, list_getslice, slice_clip. simpl.
  rewrite length_seqZ, Z2Nat.id by lia.
  destruct (Z.ltb_spec t 0); [lia|].
  destruct (Z.leb_spec bw t);
    repeat match goal with
    | |- context [Z.ltb ?a ?b] => destruct (Z.ltb_spec a b); try lia
    | |- context [Z.leb ?a ?b] => destruct (Z.leb_spec a b); try lia
    end; simpl.
  - assert (t = bw) as -> by lia.
    rewrite Z.sub_0_r, Z.div_1_r. replace (bw - 1 + 1) with bw by lia.
    by rewrite omap_lookup_seqZ.
  - rewrite Z.sub_0_r, Z.div_1_r. replace (t - 1 + 1) with t by lia.
    by rewrite omap_lookup_seqZ by lia.
Qed.

Lemma getitem_Ok self item st w st' :
  getitem self item st = (Ok w, st') →
  ∃ bw sel, bitwidth self = Some bw
    ∧ selectednums (seqZ 0 bw) item = Ok sel
    ∧ fresh_wire st 0 w (Z.of_nat (length sel))
    ∧ steps st st' [(block self, mkNet (Some "s") (PTuple sel) [self] [w])] 1.
Proof.
  unfold getitem. intros H. destruct (bitwidth self) as [bw|]; [|discriminate].
  apply bind_Ok in H as (sel & st1 & Hsel & H).
  unfold lift in Hsel. injection Hsel as Hsel <-.
  apply bind_Ok in H as (out & st2 & Hw & H).
  apply WireVector_init_fresh in Hw as (Hf & Hs1 & _).
  apply bind_Ok in H as ([] & st3 & Hn & H). apply ret_run in H as [[= ->] ->].
  apply add_net_run in Hn as (_ & Hs2 & _).
  exists bw, sel. split_and!; try done.
  apply (steps_trans _ _ _ _ _ _ _ Hs1 Hs2).
Qed.

Lemma invert_Ok self st w st' :
  invert self st = (Ok w, st') →
  ∃ n, bitwidth self = Some n ∧ fresh_wire st 0 w n
    ∧ steps st st' [(block self, mkNet (Some "~") PNone [self] [w])] 1.
Proof.
  unfold invert, len. intros H.
  apply bind_Ok in H as (n & st1 & Hn & H).
  destruct (bitwidth self) as [k|]; [|discriminate].
  apply ret_run in Hn as [[= ->] ->].
  apply bind_Ok in H as (out & st2 & Hw & H).
  apply WireVector_init_fresh in Hw as (Hf & Hs1 & _).
  apply bind_Ok in H as ([] & st3 & Hn & H). apply ret_run in H as [[= ->] ->].
  apply add_net_run in Hn as (_ & Hs2 & _).
  eexists. split_and!; try done.
  apply (steps_trans _ _ _ _ _ _ _ Hs1 Hs2).
Qed.

Lemma len_run w st r st' :
  len w st = (r, st') →
  st' = st ∧ r = match bitwidth w with Some n => Ok n | None => Raise TypeError end.
Proof. unfold len. destruct (bitwidth w); by intros [= <- <-]. Qed.

Lemma len_Ok w st n st' :
  len w st = (Ok n, st') → st' = st ∧ bitwidth w = Some n.
Proof.
  intros H. apply len_run in H as [-> H]. split; [done|].
  destruct (bitwidth w); congruence.
Qed.

Lemma mapM_len_Ok l st widths st' :
  mapM len l st = (Ok widths, st') →
  st' = st ∧ bitwidth <$> l = Some <$> widths.
Proof.
  revert widths st st'. induction l as [|x l IH]; intros widths st st' H; simpl in H.
  - by apply ret_run in H as [[= ->] ->].
  - apply bind_Ok in H as (n & st1 & Hn & H). apply len_Ok in Hn as [-> Hn].
    apply bind_Ok in H as (ns & st2 & Hns & H). apply IH in Hns as [-> Hns].
    apply ret_run in H as [[= ->] ->]. split; [done|]. simpl. by f_equal.
Qed.

(** Concatenating two or more wire vectors. *)
Lemma concat_Ok a b l st w st' :
  concat (a :: b :: l) st = (Ok w, st') →
  ∃ widths, bitwidth <$> (a :: b :: l) = Some <$> widths
    ∧ fresh_wire st 0 w (foldr Z.add 0 widths)
    ∧ steps st st'
        [(_singleton_block st, mkNet (Some "c") PNone (a :: b :: l) [w])] 1.
Proof.
  unfold concat. intros H.
  apply bind_Ok in H as (widths & st1 & Hn & H).
  apply mapM_len_Ok in Hn as [-> Hn].
  apply bind_Ok in H as (out & st2 & Hw & H).
  apply WireVector_init_fresh in Hw as (Hf & Hs1 & _).
  apply bind_Ok in H as ([] & st3 & Hadd & H). apply ret_run in H as [[= ->] ->].
  apply add_net_run in Hadd as (_ & Hs2 & _).
  exists widths. split_and!; try done.
  destruct Hf as (_ & _ & Hb & _). rewrite Hb in Hs2.
  apply (steps_trans _ _ _ _ _ _ _ Hs1 Hs2).
Qed.

(** Concatenating a single wire vector returns it and does nothing. *)
Lemma concat_single a st : concat [a] st = (Ok a, st).
Proof. done. Qed.

(** ** Extension *)

Lemma _extend_with_bit_run self n extbit st r st' :
  _extend_with_bit self n extbit st = (r, st') →
  match bitwidth self with
  | None => r = Raise TypeError ∧ st' = st
  | Some k =>
      if decide (n = k) then r = Ok self ∧ st' = st
      else if decide (n < k) then
        r = Raise (PyrtlError "error, zero_extended cannot reduce the number of bits")
        ∧ st' = st
      else
        ∀ w, r = Ok w →
          ∃ ext, fresh_wire st 0 ext (n - k) ∧ fresh_wire st 1 w n
            ∧ steps st st' [(block self, ext_net (n - k) extbit ext);
                            (_singleton_block st, cat_net ext self w)] 2
  end.
Proof.
  unfold _extend_with_bit. intros H. destruct (bitwidth self) as [k|] eqn:Hk.
  2:{ by apply raise_run in H. }
  destruct (Z.eqb_spec (n - k) 0).
  { apply ret_run in H as [-> ->]. rewrite decide_True by lia. done. }
  rewrite decide_False by lia.
  destruct (Z.ltb_spec (n - k) 0).
  { apply raise_run in H as [-> ->]. rewrite decide_True by lia. done. }
  rewrite decide_False by lia. intros w ->.
  apply bind_Ok in H as (ext & st1 & Hw & H).
  apply WireVector_init_fresh in Hw as (Hf & Hs1 & _).
  apply bind_Ok in H as ([] & st2 & Hadd & H).
  apply add_net_run in Hadd as (_ & Hs2 & _).
  pose proof (steps_trans _ _ _ _ _ _ _ Hs1 Hs2) as Hs12. simpl in Hs12.
  apply concat_Ok in H as (widths & Hwd & Hfw & Hs3).
  assert (widths = [n - k; k]) as ->.
  { destruct Hf as (_ & _ & _ & Hb). simpl in Hwd. rewrite Hb, Hk in Hwd.
    destruct widths as [|? [|? [|]]]; simplify_eq/=. done. }
  simpl in Hfw. replace (n - k + (k + 0)) with n in Hfw by lia.
  exists ext. split_and!; try done.
  - apply (fresh_wire_later _ _ _ _ _ _ _ Hs12 Hfw).
  - assert (_singleton_block st2 = _singleton_block st) as E by apply Hs12.
    rewrite E in Hs3.
    apply (steps_trans _ _ _ _ _ _ _ Hs12 Hs3).
Qed.

Lemma selectednums_last_inv k sel :
  selectednums (seqZ 0 k) (IInt (-1)) = Ok sel → 0 < k ∧ sel = [k - 1].
Proof.
  intros H. destruct (decide (0 < k)) as [Hk|Hk].
  - rewrite selectednums_last in H by done. by simplify_eq.
  - rewrite seqZ_nil in H by lia. discriminate.
Qed.

Lemma scv_refl st : same_const_val st st.
Proof. done. Qed.

Lemma scv_trans st1 st2 st3 :
  same_const_val st1 st2 → same_const_val st2 st3 → same_const_val st1 st3.
Proof. unfold same_const_val. congruence. Qed.

Lemma scv_tempvar : preserves same_const_val next_tempvar_name.
Proof. by intros st r st' [= <- <-]. Qed.

Lemma scv_new_oid : preserves same_const_val new_oid.
Proof. by intros st r st' [= <- <-]. Qed.

Lemma scv_add_wirevector b w : preserves same_const_val (add_wirevector b w).
Proof. intros st r st' H. by apply add_wirevector_run in H as (_ & ? & _). Qed.

Lemma scv_add_net b net : nonmem net → preserves same_const_val (add_net b net).
Proof. intros _ st r st' H. by apply add_net_run in H as (_ & _ & ?). Qed.

Lemma getitem_const_val w item : preserves same_const_val (getitem w item).
Proof.
  apply preserves_getitem;
    first [ exact scv_refl | exact scv_trans | exact scv_tempvar
          | exact scv_new_oid | exact scv_add_wirevector | exact scv_add_net ].
Qed.

Lemma _extend_with_bit_const_val w n e :
  preserves same_const_val (_extend_with_bit w n e).
Proof.
  apply preserves__extend_with_bit;
    first [ exact scv_refl | exact scv_trans | exact scv_tempvar
          | exact scv_new_oid | exact scv_add_wirevector | exact scv_add_net ].
Qed.

Lemma zero_extended_Ok self n st w st' :
  zero_extended self n st = (Ok w, st') →
  ∃ k c, bitwidth self = Some k ∧ k ≤ n ∧ zero_bit st st' c
    ∧ (n = k → w = self ∧ steps st st' [] 1)
    ∧ (k < n → ∃ ext, fresh_wire st 1 ext (n - k) ∧ fresh_wire st 2 w n
         ∧ steps st st' [(block self, ext_net (n - k) c ext);
                         (_singleton_block st, cat_net ext self w)] 3).
Proof.
  unfold zero_extended. intros H.
  apply bind_Ok in H as (c & st1 & Hc & H).
  pose proof (_extend_with_bit_const_val _ _ _ _ _ _ H) as Hcv.
  apply Const_init_Ok in Hc as (Hceq & Hs1 & Hcv1 & _ & _). simpl in Hceq.
  assert (zero_bit st st' c) as Hz.
  { subst c. repeat split. simpl. rewrite Hcv, Hcv1. simpl. apply lookup_insert_eq. }
  apply _extend_with_bit_run in H. destruct (bitwidth self) as [k|]; [|by destruct H].
  exists k, c. case_decide as E1; [|case_decide as E2].
  - destruct H as [[= ->] ->]. split_and!; try done; lia.
  - by destruct H.
  - destruct (H w eq_refl) as (ext & Hf1 & Hf2 & Hs2).
    split_and!; try done; try lia. intros _. exists ext.
    assert (_singleton_block st1 = _singleton_block st) as Eb by apply Hs1.
    rewrite Eb in Hs2. split_and!.
    + apply (fresh_wire_later _ _ _ _ _ _ _ Hs1 Hf1).
    + apply (fresh_wire_later _ _ _ _ _ _ _ Hs1 Hf2).
    + apply (steps_trans _ _ _ _ _ _ _ Hs1 Hs2).
Qed.

Lemma sign_extended_Ok self n st w st' :
  sign_extended self n st = (Ok w, st') →
  ∃ k sb, bitwidth self = Some k ∧ 0 < k ≤ n ∧ fresh_wire st 0 sb 1
    ∧ (n = k → w = self ∧ steps st st' [(block self, signbit_net k self sb)] 1)
    ∧ (k < n → ∃ ext, fresh_wire st 1 ext (n - k) ∧ fresh_wire st 2 w n
         ∧ steps st st' [(block self, signbit_net k self sb);
                         (block self, ext_net (n - k) sb ext);
                         (_singleton_block st, cat_net ext self w)] 3).
Proof.
  unfold sign_extended. intros H.
  apply bind_Ok in H as (sb & st1 & Hsb & H).
  apply getitem_Ok in Hsb as (k & sel & Hk & Hsel & Hf & Hs1).
  apply selectednums_last_inv in Hsel as [Hpos ->]. simpl in Hf.
  apply _extend_with_bit_run in H. rewrite Hk in H.
  exists k, sb. case_decide as E1; [|case_decide as E2].
  - destruct H as [[= ->] ->]. split_and!; try done; lia.
  - by destruct H.
  - destruct (H w eq_refl) as (ext & Hf1 & Hf2 & Hs2).
    split_and!; try done; try lia. intros _. exists ext.
    assert (_singleton_block st1 = _singleton_block st) as Eb by apply Hs1.
    rewrite Eb in Hs2. split_and!.
    + apply (fresh_wire_later _ _ _ _ _ _ _ Hs1 Hf1).
    + apply (fresh_wire_later _ _ _ _ _ _ _ Hs1 Hf2).
    + apply (steps_trans _ _ _ _ _ _ _ Hs1 Hs2).
Qed.

(** Asking for fewer bits than the wire has never succeeds. *)
Lemma zero_extended_small self k n st r st' :
  bitwidth self = Some k → n < k →
  zero_extended self n st = (r, st') → ∃ e, r = Raise e.
Proof.
  intros Hk Hn H. destruct r as [w|e]; [|by eauto].
  apply zero_extended_Ok in H as (k' & c & Hk' & Hle & _). simplify_eq. lia.
Qed.

Lemma sign_extended_small self k n st r st' :
  bitwidth self = Some k → n < k →
  sign_extended self n st = (r, st') → ∃ e, r = Raise e.
Proof.
  intros Hk Hn H. destruct r as [w|e]; [|by eauto].
  apply sign_extended_Ok in H as (k' & c & Hk' & Hle & _). simplify_eq. lia.
Qed.

(** ** Constants *)

Lemma string_length_app (s1 s2 : string) :
  String.length (s1 +:+ s2) = (String.length s1 + String.length s2)%nat.
Proof. induction s1 as [|c s1 IH]; simpl; [done|]. by rewrite IH. Qed.

(** The binary digits of [p] are as many as it takes to write [p]. *)
Lemma bin_digits_bounds p :
  let n := Z.of_nat (String.length (bin_digits p)) in
  0 < n ∧ 2 ^ (n - 1) ≤ Z.pos p < 2 ^ n.
Proof.
  induction p as [p IH|p IH|]; simpl in *.
  - rewrite string_length_app. simpl. destruct IH as [Hn IH].
    replace (Z.of_nat (String.length (bin_digits p) + 1))
      with (Z.succ (Z.of_nat (String.length (bin_digits p)))) by lia.
    rewrite Z.pow_succ_r by lia.
    replace (Z.succ (Z.of_nat (String.length (bin_digits p))) - 1)
      with (Z.succ (Z.of_nat (String.length (bin_digits p)) - 1)) by lia.
    rewrite Z.pow_succ_r by lia. lia.
  - rewrite string_length_app. simpl. destruct IH as [Hn IH].
    replace (Z.of_nat (String.length (bin_digits p) + 1))
      with (Z.succ (Z.of_nat (String.length (bin_digits p)))) by lia.
    rewrite Z.pow_succ_r by lia.
    replace (Z.succ (Z.of_nat (String.length (bin_digits p))) - 1)
      with (Z.succ (Z.of_nat (String.length (bin_digits p)) - 1)) by lia.
    rewrite Z.pow_succ_r by lia. lia.
  - simpl. lia.
Qed.

(** The inferred width is the least positive width that holds the value. *)
Lemma inferred_width_minimal v :
  0 ≤ v →
  0 < inferred_width v ∧ v < 2 ^ inferred_width v
  ∧ ∀ w, 0 < w → v < 2 ^ w → inferred_width v ≤ w.
Proof.
  intros Hv. unfold inferred_width. destruct v as [|p|p]; [| |lia].
  - simpl. split_and!; lia.
  - unfold bin. rewrite string_length_app.
    pose proof (bin_digits_bounds p) as Hb. cbv zeta in Hb.
    destruct Hb as (Hn & Hlo & Hhi).
    set (n := Z.of_nat (String.length (bin_digits p))) in *.
    replace (Z.of_nat (String.length "0b" + String.length (bin_digits p)) - 2)
      with n by (simpl String.length; lia).
    split_and!; [lia | lia |]. intros w Hw Hlt.
    destruct (decide (n ≤ w)) as [|Hnw]; [done|]. exfalso.
    assert (2 ^ w ≤ 2 ^ (n - 1)) by (apply Z.pow_le_mono_r; lia). lia.
Qed.

(** Names made by the allocators never collide with the clock names. *)
Lemma const_name_not_clock s : lower ("const" +:+ s) ∉ clock_names.
Proof.
  simpl. unfold clock_names. intros H.
  apply elem_of_cons in H as [H|H]; [discriminate|].
  apply elem_of_cons in H as [H|H]; [discriminate|].
  by apply elem_of_nil in H.
Qed.

Lemma tmp_name_not_clock s : lower ("tmp" +:+ s) ∉ clock_names.
Proof.
  simpl. unfold clock_names. intros H.
  apply elem_of_cons in H as [H|H]; [discriminate|].
  apply elem_of_cons in H as [H|H]; [discriminate|].
  by apply elem_of_nil in H.
Qed.

Lemma WireVector_init_succeeds c k n st :
  0 < k ≤ maxint → lower n ∉ clock_names → name_free n st →
  ∃ st', WireVector_init c (Some k) (Some n) BNone st
         = (Ok (mkWire (next_oid st) c (_singleton_block st) n (Some k)), st').
Proof.
  intros Hk Hclk Hfree. unfold WireVector_init, bind, working_block, gets, ret.
  rewrite bool_decide_false by done.
  rewrite is_int_true by (unfold maxint in *; lia).
  destruct (Z.leb_spec k 0); [lia|]. simpl.
  unfold add_wirevector. simpl.
  unfold name_free, get_block in Hfree. unfold get_block. simpl.
  rewrite Hfree. eauto.
Qed.

(** The wire of an operator's result can be built when the next temporary
    name is free and the width is a positive [int]. *)
Lemma WireVector_init_tmp k st :
  0 < k ≤ maxint → name_free (name_of None st) st →
  ∃ w st', WireVector_init CWireVector (Some k) None BNone st = (Ok w, st').
Proof.
  intros Hk Hfree.
  unfold WireVector_init, bind, working_block, gets, ret, next_tempvar_name.
  rewrite bool_decide_false by apply tmp_name_not_clock.
  rewrite is_int_true by (unfold maxint in *; lia). simpl.
  destruct (Z.leb_spec k 0); [lia|]. simpl.
  unfold add_wirevector. simpl.
  unfold name_free, name_of, get_block in Hfree. unfold get_block. simpl.
  rewrite Hfree. eauto.
Qed.

Lemma Const_init_fits c v bw st :
  let width := default (inferred_width v) bw in
  0 ≤ v ≤ maxint → 0 < width ≤ maxint → v < 2 ^ width →
  name_free (const_name v st) st →
  ∃ k st', Const_init c v bw st = (Ok k, st')
    ∧ bitwidth k = Some width ∧ cls k = c ∧ const_val st' !! oid k = Some v.
Proof.
  intros width Hv Hw Hfit Hfree.
  destruct (WireVector_init_succeeds c width (const_name v st)
              (set_constvar_count (S (constvar_count st)) st))
    as (st1 & Hinit); [done | apply const_name_not_clock | done |].
  assert (∃ k st', Const_init c v bw st = (Ok k, st')) as (k & st' & Hrun).
  { unfold Const_init, bind, next_constvar_name.
    rewrite (is_int_true v) by (unfold maxint in *; lia).
    fold (inferred_width v).
    replace (match bw with Some bw0 => Some bw0 | None => Some (inferred_width v) end)
      with (Some width) by (by destruct bw).
    rewrite (is_int_true width) by (unfold maxint in *; lia). simpl.
    destruct (Z.ltb_spec v 0); [lia|]. destruct (Z.ltb_spec width 0); [lia|].
    destruct (Z.eqb_spec (Z.shiftr v width) 0) as [|Hne].
    - simpl. fold (const_name v st). rewrite Hinit. simpl. eauto.
    - exfalso. apply Hne. apply shiftr_zero_lt; lia. }
  exists k, st'. split; [done|].
  apply Const_init_Ok in Hrun as (-> & _ & Hcv & _). simpl in *.
  split_and!; try done. rewrite Hcv. apply lookup_insert_eq.
Qed.

Lemma Const_init_overflow c v w st :
  0 ≤ v ≤ maxint → 0 ≤ w ≤ maxint → 2 ^ w ≤ v →
  Const_init c v (Some w) st
  = (Raise (PyrtlError ("error constant " +:+ dq +:+ pretty v +:+ dq
        +:+ " cannot fit in the specified " +:+ pretty w +:+ " bits")),
     set_constvar_count (S (constvar_count st)) st).
Proof.
  intros Hv Hw Hbig. unfold Const_init, bind, next_constvar_name.
  rewrite (is_int_true v), (is_int_true w) by (unfold maxint in *; lia). simpl.
  destruct (Z.ltb_spec v 0); [lia|]. destruct (Z.ltb_spec w 0); [lia|].
  destruct (Z.eqb_spec (Z.shiftr v w) 0) as [Hz|Hne]; [|done].
  apply shiftr_zero_lt in Hz; lia.
Qed.

(** A [long] with an explicit [int] width: [num] was never assigned. *)
Lemma Const_init_long c v w st :
  maxint < v → - maxint - 1 ≤ w ≤ maxint →
  Const_init c v (Some w) st
  = (Raise UnboundLocalError, set_constvar_count (S (constvar_count st)) st).
Proof.
  intros Hv Hw. unfold Const_init, bind, next_constvar_name.
  rewrite (is_int_false v) by lia. by rewrite (is_int_true w).
Qed.

(** A [long] without a width: no width is inferred, and [None] is refused. *)
Lemma Const_init_long_unsized c v st :
  maxint < v →
  ∃ msg, Const_init c v None st
         = (Raise (PyrtlError msg), set_constvar_count (S (constvar_count st)) st).
Proof.
  intros Hv. unfold Const_init, bind, next_constvar_name.
  rewrite (is_int_false v) by lia. unfold raise. eauto.
Qed.

(** C8.  Constructing a constant from a non-negative integer [v] with an
    explicit positive bit width [w], in a block where the name of the new
    constant is free.  For a value that is a Python [int] the code does what
    the specification says: when [v] does not fit ([2^w <= v]) the
    construction fails with an error and no block is touched; when it fits
    the construction succeeds and the value recorded for the new constant
    is exactly [v]; and when no width is given the construction succeeds
    with the least positive width that holds [v].  For a value beyond the
    machine word, a [long], it does not: the construction raises
    [UnboundLocalError] whatever the width, also when the value fits, and
    without a width it raises [PyrtlError] and infers nothing. *)
Theorem C8_const_width c v w st :
  0 ≤ v → 0 < w ≤ maxint → name_free (const_name v st) st →
  (v ≤ maxint →
     (2 ^ w ≤ v →
        ∃ msg st', Const_init c v (Some w) st = (Raise (PyrtlError msg), st')
          ∧ blocks st' = blocks st)
     ∧ (v < 2 ^ w →
        ∃ k st', Const_init c v (Some w) st = (Ok k, st')
          ∧ bitwidth k = Some w ∧ const_val st' !! oid k = Some v)
     ∧ (∃ k st' iw, Const_init c v None st = (Ok k, st')
          ∧ bitwidth k = Some iw ∧ const_val st' !! oid k = Some v
          ∧ 0 < iw ∧ v < 2 ^ iw ∧ ∀ w', 0 < w' → v < 2 ^ w' → iw ≤ w'))
  ∧ (maxint < v →
     (∃ st', Const_init c v (Some w) st = (Raise UnboundLocalError, st')
        ∧ blocks st' = blocks st ∧ const_val st' = const_val st)
     ∧ (∃ msg st', Const_init c v None st = (Raise (PyrtlError msg), st')
        ∧ blocks st' = blocks st ∧ const_val st' = const_val st)).
Proof.
  intros Hv Hw Hfree. split.
  - intros Hint. split_and!.
    + intros Hbig. rewrite Const_init_overflow by lia. eauto.
    + intros Hfit.
      destruct (Const_init_fits c v (Some w) st) as (k & st' & ? & ? & ? & ?);
        simpl; eauto.
    + destruct (inferred_width_minimal v Hv) as (Hpos & Hlt & Hmin).
      assert (inferred_width v ≤ 63) as H63.
      { apply Hmin; [lia|]. unfold maxint in Hint. lia. }
      destruct (Const_init_fits c v None st) as (k & st' & ? & ? & ? & ?);
        simpl; try done; try (unfold maxint; lia).
      exists k, st', (inferred_width v). split_and!; done.
  - intros Hlong. split.
    + rewrite Const_init_long by lia. eauto.
    + destruct (Const_init_long_unsized c v st Hlong) as [msg ->]. eauto.
Qed.

(** The construction scenario of the specification: the value 5 with width 2
    is rejected, and with width 3 it is accepted and recorded as 5.  And
    the value [2^63], which fits 64 bits, is refused with 64 bits. *)
Lemma C8_const_width_witness :
  (∃ msg st', Const_init CConst 5 (Some 2) initial_state
                = (Raise (PyrtlError msg), st')
     ∧ blocks st' = blocks initial_state)
  ∧ (∃ k st', Const_init CConst 5 (Some 3) initial_state = (Ok k, st')
     ∧ bitwidth k = Some 3 ∧ const_val st' !! oid k = Some 5)
  ∧ (2 ^ 63 < 2 ^ 64
     ∧ ∃ st', Const_init CConst (2 ^ 63) (Some 64) initial_state
              = (Raise UnboundLocalError, st')
       ∧ blocks st' = blocks initial_state
       ∧ const_val st' = const_val initial_state).
Proof.
  split_and!.
  - apply (C8_const_width CConst 5 2 initial_state);
      [lia | unfold maxint; lia | reflexivity | unfold maxint; lia | ].
    vm_compute. discriminate.
  - apply (C8_const_width CConst 5 3 initial_state);
      [lia | unfold maxint; lia | reflexivity | unfold maxint; lia | ].
    reflexivity.
  - reflexivity.
  - apply (C8_const_width CConst (2 ^ 63) 64 initial_state);
      [lia | unfold maxint; lia | reflexivity | unfold maxint; lia].
Defined.

(** ** Wires that refuse the connect operation *)

(** C9. Applying the connect operation directly to an input, a constant or a
    register (signed or not) fails with a [PyrtlError] whose message quotes
    the name of that wire, and the state, hence the netlist, is unchanged. *)
Theorem C9_assign_forbidden self other st :
  assign_forbidden (cls self) = true →
  ∃ pre post,
    ilshift self other st
    = (Raise (PyrtlError (pre +:+ dq +:+ name self +:+ dq +:+ post)), st).
Proof.
  intros H. unfold ilshift. destruct (cls self); try discriminate; eauto.
Qed.

Lemma C9_assign_forbidden_witness :
  ∃ pre post,
    ilshift (mkWire 1 CInput 0 "a" (Some 1)) (OInt 0) initial_state
    = (Raise (PyrtlError (pre +:+ dq +:+ "a" +:+ dq +:+ post)), initial_state).
Proof.
  apply (C9_assign_forbidden (mkWire 1 CInput 0 "a" (Some 1)) (OInt 0) initial_state).
  reflexivity.
Defined.

(** ** Reserved names *)

(** C10. Constructing a wire vector of any class with an explicit name that
    is clk or clock up to the case of its letters fails with a
    [PyrtlError], and the state is the one before the call: the wire is not
    added to any block.  The same holds for the constructor of registers. *)
Theorem C10_clock_name_rejected c bw nm st :
  lower nm ∈ clock_names →
  (∀ blk, ∃ msg,
     WireVector_init c bw (Some nm) blk st = (Raise (PyrtlError msg), st))
  ∧ (∃ msg, Register_init c bw (Some nm) st = (Raise (PyrtlError msg), st)).
Proof.
  intros Hclk.
  assert (∀ blk, ∃ msg,
     WireVector_init c bw (Some nm) blk st = (Raise (PyrtlError msg), st)) as H.
  { intros blk. unfold WireVector_init, bind, working_block, gets, ret.
    destruct blk; simpl; try rewrite bool_decide_true by done; eauto. }
  split; [done|]. destruct (H BNone) as [msg Hrun].
  exists msg. unfold Register_init, bind. by rewrite Hrun.
Qed.

Lemma C10_clock_name_rejected_witness :
  ∃ msg, WireVector_init CInput (Some 1) (Some "ClOcK") BNone initial_state
         = (Raise (PyrtlError msg), initial_state).
Proof.
  apply (C10_clock_name_rejected CInput (Some 1) "ClOcK" initial_state).
  apply (bool_decide_unpack _). reflexivity.
Defined.

(** ** Width matching in the two-operand operators *)

Lemma extended_own_rule self n : extended self n = extend_as (cls self) self n.
Proof. done. Qed.

Lemma extended_Ok self n st w st' :
  extended self n st = (Ok w, st') →
  ∃ k adds j, bitwidth self = Some k ∧ k ≤ n ∧ bitwidth w = Some n
    ∧ (n = k → w = self)
    ∧ (k < n → fresh_wire st 2 w n)
    ∧ steps st st' adds j ∧ Forall ext_kind adds.
Proof.
  unfold extended. intros H. destruct (is_signed (cls self)).
  - apply sign_extended_Ok in H as (k & sb & Hk & Hle & Hsb & Heq & Hlt).
    destruct (decide (n = k)) as [->|Hne].
    + destruct (Heq eq_refl) as [-> Hs].
      exists k, [(block self, signbit_net k self sb)], 1%nat.
      split_and!;
        first [done | lia | (intros; lia) | (repeat (apply Forall_cons_2; [first [by left | by right]|]); apply Forall_nil_2)].
    + destruct Hlt as (ext & Hf1 & Hf2 & Hs); [lia|].
      exists k, [(block self, signbit_net k self sb);
                 (block self, ext_net (n - k) sb ext);
                 (_singleton_block st, cat_net ext self w)], 3%nat.
      split_and!;
        first [done | lia | (intros; lia) | (intros; apply Hf2) | (repeat (apply Forall_cons_2; [first [by left | by right]|]); apply Forall_nil_2)].
  - apply zero_extended_Ok in H as (k & c & Hk & Hle & Hc & Heq & Hlt).
    destruct (decide (n = k)) as [->|Hne].
    + destruct (Heq eq_refl) as [-> Hs]. exists k, [], 1%nat.
      split_and!;
        first [done | lia | (intros; lia) | (repeat (apply Forall_cons_2; [first [by left | by right]|]); apply Forall_nil_2)].
    + destruct Hlt as (ext & Hf1 & Hf2 & Hs); [lia|].
      exists k, [(block self, ext_net (n - k) c ext);
                 (_singleton_block st, cat_net ext self w)], 3%nat.
      split_and!;
        first [done | lia | (intros; lia) | (intros; apply Hf2) | (repeat (apply Forall_cons_2; [first [by left | by right]|]); apply Forall_nil_2)].
Qed.

Lemma operand_wire_steps other st b stb :
  operand_wire other st b stb → ∃ j, steps st stb [] j.
Proof.
  destruct other as [w|z]; simpl.
  - intros [-> ->]. eauto using steps_refl.
  - intros H. apply Const_init_Ok in H as (_ & Hs & _). eauto.
Qed.

Lemma logicop_Ok self other op st s st' :
  logicop self other op st = (Ok s, st') →
  ∃ b stb n m a' b' st2,
    operand_wire other st b stb
    ∧ bitwidth self = Some n ∧ bitwidth b = Some m
    ∧ ((n < m ∧ extended self m stb = (Ok a', st2) ∧ b' = b)
       ∨ (m < n ∧ a' = self ∧ extended b n stb = (Ok b', st2))
       ∨ (n = m ∧ a' = self ∧ b' = b ∧ st2 = stb))
    ∧ bitwidth a' = Some (Z.max n m) ∧ bitwidth b' = Some (Z.max n m)
    ∧ fresh_wire st2 0 s (result_width op (Z.max n m))
    ∧ steps st2 st' [(block self, mkNet (Some op) PNone [a'; b'] [s])] 1.
Proof.
  unfold logicop. intros H.
  apply bind_Ok in H as (b & stb & Hb & H).
  assert (operand_wire other st b stb) as Hop.
  { destruct other; simpl in *; [by apply ret_run in Hb as [[= ->] ->] | done]. }
  clear Hb.
  apply bind_Ok in H as (n & ? & Hn & H). apply len_Ok in Hn as [-> Hn].
  apply bind_Ok in H as (m & ? & Hm & H). apply len_Ok in Hm as [-> Hm].
  apply bind_Ok in H as ([a' b'] & st2 & Hext & H).
  assert (((n < m ∧ extended self m stb = (Ok a', st2) ∧ b' = b)
       ∨ (m < n ∧ a' = self ∧ extended b n stb = (Ok b', st2))
       ∨ (n = m ∧ a' = self ∧ b' = b ∧ st2 = stb))) as Hcases.
  { destruct (Z.ltb_spec n m); [|destruct (Z.ltb_spec m n)].
    - apply bind_Ok in Hext as (x & ? & Hx & Hext).
      apply ret_run in Hext as [[= -> ->] ->]. left. done.
    - apply bind_Ok in Hext as (x & ? & Hx & Hext).
      apply ret_run in Hext as [[= -> ->] ->]. right. left. done.
    - apply ret_run in Hext as [[= -> ->] ->]. right. right.
      split_and!; try done. lia. }
  clear Hext.
  assert (bitwidth a' = Some (Z.max n m) ∧ bitwidth b' = Some (Z.max n m))
    as [Ha' Hb'].
  { destruct Hcases as [(? & Hx & ->)|[(? & -> & Hx)|(-> & -> & -> & _)]].
    - apply extended_Ok in Hx as (? & ? & ? & _ & _ & Hw & _).
      rewrite Z.max_r by lia. done.
    - apply extended_Ok in Hx as (? & ? & ? & _ & _ & Hw & _).
      rewrite Z.max_l by lia. done.
    - rewrite Z.max_id. done. }
  apply bind_Ok in H as (l & ? & Hl & H). apply len_Ok in Hl as [-> Hl].
  assert (l = Z.max n m) as -> by congruence.
  apply bind_Ok in H as (out & st3 & Hw & H).
  apply WireVector_init_fresh in Hw as (Hf & Hs1 & _).
  apply bind_Ok in H as ([] & st4 & Hadd & H). apply ret_run in H as [[= ->] ->].
  apply add_net_run in Hadd as (_ & Hs2 & _).
  exists b, stb, n, m, a', b', st2. split_and!; try done.
  apply (steps_trans _ _ _ _ _ _ _ Hs1 Hs2).
Qed.

(** ** Sample designs *)

Lemma declare_abs_run :
  (a <- WireVector_init CWireVector (Some 2) (Some "a") BNone ;;
   b <- WireVector_init CWireVector (Some 3) (Some "b") BNone ;;
   sa <- WireVector_init CSignedWireVector (Some 2) (Some "sa") BNone ;;
   ret (a, b, sa)) initial_state = (Ok (wire_a, wire_b, wire_sa), st_abs).
Proof. vm_compute. reflexivity. Qed.

(** ** Multiplication *)

Lemma product_fits n m x y :
  0 ≤ x < 2 ^ n → 0 ≤ y < 2 ^ m → x * y < 2 ^ (2 * Z.max n m).
Proof.
  intros Hx Hy.
  assert (0 ≤ n) as Hn.
  { destruct (decide (0 ≤ n)); [done|]. rewrite Z.pow_neg_r in Hx; lia. }
  assert (0 ≤ m) as Hm.
  { destruct (decide (0 ≤ m)); [done|]. rewrite Z.pow_neg_r in Hy; lia. }
  assert (x * y < 2 ^ n * 2 ^ m) by nia.
  rewrite <- Z.pow_add_r in * by done.
  assert (2 ^ (n + m) ≤ 2 ^ (2 * Z.max n m)) by (apply Z.pow_le_mono_r; lia).
  lia.
Qed.

(** C1, as the code has it.  A multiplication that succeeds on operands of
    widths [n] and [m] first brings both operands to the common width
    [max n m]: when the widths differ the narrower operand is replaced by
    its extension to the wider width, by the extension rule of its own
    class.  The net of the multiplication is appended after that, over the
    two operands of the common width, and its result is a freshly allocated
    wire of exactly twice that width.  This is [n + m] when the widths
    agree and more otherwise, so that every product of an [n]-bit and an
    [m]-bit value fits the result. *)
Theorem C1_mul_width self other st s st' :
  mul_ self other st = (Ok s, st') →
  ∃ b stb n m a' b' st2,
    operand_wire other st b stb
    ∧ bitwidth self = Some n ∧ bitwidth b = Some m
    ∧ (n < m → extend_as (cls self) self m stb = (Ok a', st2) ∧ b' = b)
    ∧ (m < n → a' = self ∧ extend_as (cls b) b n stb = (Ok b', st2))
    ∧ (n = m → a' = self ∧ b' = b ∧ st2 = stb)
    ∧ bitwidth a' = Some (Z.max n m) ∧ bitwidth b' = Some (Z.max n m)
    ∧ fresh_wire st2 0 s (2 * Z.max n m)
    ∧ steps st2 st' [(block self, mkNet (Some "*") PNone [a'; b'] [s])] 1
    ∧ n + m ≤ 2 * Z.max n m
    ∧ (n = m → bitwidth s = Some (n + m))
    ∧ (n ≠ m → ∃ w, bitwidth s = Some w ∧ n + m < w)
    ∧ (next_oid st ≤ oid s)%nat
    ∧ ∀ x y, 0 ≤ x < 2 ^ n → 0 ≤ y < 2 ^ m → x * y < 2 ^ (2 * Z.max n m).
Proof.
  intros H. apply logicop_Ok in H
    as (b & stb & n & m & a' & b' & st2 & Hop & Hn & Hm & Hc & Ha' & Hb' & Hf & Hs).
  exists b, stb, n, m, a', b', st2.
  assert (result_width "*" (Z.max n m) = 2 * Z.max n m) as Hrw
    by (unfold result_width; simpl; lia).
  rewrite Hrw in Hf.
  assert (bitwidth s = Some (2 * Z.max n m)) as Hw by apply Hf.
  split_and!; try done; try lia.
  - intros Hlt. destruct Hc as [(_ & Hx & ->)|[(? & _)|(? & _)]]; [done|lia..].
  - intros Hlt. destruct Hc as [(? & _)|[(_ & -> & Hx)|(? & _)]]; [lia|done|lia].
  - intros Heq. destruct Hc as [(? & _)|[(? & _)|(_ & -> & -> & ->)]]; [lia..|done].
  - intros ->. rewrite Hw. f_equal. lia.
  - intros Hne. exists (2 * Z.max n m). split; [done|]. lia.
  - apply operand_wire_steps in Hop as [j Hj].
    apply fresh_wire_new in Hf.
    assert (next_oid stb ≤ next_oid st2)%nat.
    { destruct Hc as [(_ & Hx & _)|[(_ & _ & Hx)|(_ & _ & _ & ->)]]; [..|lia];
        apply extended_Ok in Hx as (? & ? & ? & _ & _ & _ & _ & _ & Hs' & _);
        destruct Hs' as [_ -> _]; lia. }
    destruct Hj as [_ Ho _]. lia.
  - intros x y. apply product_fits.
Qed.

(** [a * b] on the 2-bit [a] and the 3-bit [b]: [a] is zero extended to 3
    bits, and the product is the 6-bit wire [tmp2]. *)
Lemma C1_mul_width_witness :
  ∃ b stb n m a' b' st2,
    operand_wire (OWire wire_b) st_abs b stb
    ∧ bitwidth wire_a = Some n ∧ bitwidth b = Some m
    ∧ (n < m → extend_as (cls wire_a) wire_a m stb = (Ok a', st2) ∧ b' = b)
    ∧ (m < n → a' = wire_a ∧ extend_as (cls b) b n stb = (Ok b', st2))
    ∧ (n = m → a' = wire_a ∧ b' = b ∧ st2 = stb)
    ∧ bitwidth a' = Some (Z.max n m) ∧ bitwidth b' = Some (Z.max n m)
    ∧ fresh_wire st2 0 wire_ab (2 * Z.max n m)
    ∧ steps st2 (mul_ wire_a (OWire wire_b) st_abs).2
        [(block wire_a, mkNet (Some "*") PNone [a'; b'] [wire_ab])] 1
    ∧ n + m ≤ 2 * Z.max n m
    ∧ (n = m → bitwidth wire_ab = Some (n + m))
    ∧ (n ≠ m → ∃ w, bitwidth wire_ab = Some w ∧ n + m < w)
    ∧ (next_oid st_abs ≤ oid wire_ab)%nat
    ∧ ∀ x y, 0 ≤ x < 2 ^ n → 0 ≤ y < 2 ^ m → x * y < 2 ^ (2 * Z.max n m).
Proof.
  apply (C1_mul_width wire_a (OWire wire_b) st_abs
           wire_ab
           (mul_ wire_a (OWire wire_b) st_abs).2).
  vm_compute. reflexivity.
Defined.

(** A 2-bit by 3-bit product is 6 bits wide, not 5. *)
Lemma C1_counterexample : ¬ mul_width_is_sum.
Proof.
  intros H.
  specialize (H wire_a wire_b st_abs wire_ab
                (mul_ wire_a (OWire wire_b) st_abs).2 2 3 eq_refl eq_refl).
  assert (mul_ wire_a (OWire wire_b) st_abs
          = (Ok wire_ab,
             (mul_ wire_a (OWire wire_b) st_abs).2)) as E
    by (vm_compute; reflexivity).
  specialize (H E). discriminate H.
Qed.

(** ** Bitwise and arithmetic operators *)

(** C7. A bitwise (and, or, xor) or arithmetic (add, subtract) operation
    that succeeds on operands of widths [n] and [m] gives its result the
    width [max n m], plus one for add and subtract.  When the widths
    differ, the narrower operand is replaced by its extension to the wider
    width, computed by the extension rule of that operand's own class
    (sign extension for the signed classes, zero extension otherwise); the
    net of the operation is appended after that, over the two operands
    brought to the common width. *)
Theorem C7_logic_arith_width self other op st s st' :
  op ∈ ["&"; "|"; "^"; "+"; "-"] →
  logicop self other op st = (Ok s, st') →
  ∃ b stb n m a' b' st2,
    operand_wire other st b stb
    ∧ bitwidth self = Some n ∧ bitwidth b = Some m
    ∧ bitwidth s
      = Some (if bool_decide (op ∈ ["+"; "-"]) then Z.max n m + 1 else Z.max n m)
    ∧ (n < m → extend_as (cls self) self m stb = (Ok a', st2) ∧ b' = b)
    ∧ (m < n → a' = self ∧ extend_as (cls b) b n stb = (Ok b', st2))
    ∧ (n = m → a' = self ∧ b' = b ∧ st2 = stb)
    ∧ bitwidth a' = Some (Z.max n m) ∧ bitwidth b' = Some (Z.max n m)
    ∧ steps st2 st' [(block self, mkNet (Some op) PNone [a'; b'] [s])] 1.
Proof.
  intros Hop H. apply logicop_Ok in H
    as (b & stb & n & m & a' & b' & st2 & Hb & Hn & Hm & Hc & Ha' & Hb' & Hf & Hs).
  exists b, stb, n, m, a', b', st2. split_and!; try done.
  - destruct Hf as (_ & _ & _ & ->). f_equal.
    repeat (apply elem_of_cons in Hop as [->|Hop]); [done..|].
    by apply elem_of_nil in Hop.
  - intros Hlt. destruct Hc as [(_ & Hx & ->)|[(? & _)|(? & _)]]; [done|lia..].
  - intros Hlt. destruct Hc as [(? & _)|[(_ & -> & Hx)|(? & _)]]; [lia|done|lia].
  - intros Heq. destruct Hc as [(? & _)|[(? & _)|(_ & -> & -> & ->)]]; [lia..|done].
Qed.

Lemma C7_logic_arith_width_witness :
  ∃ b stb n m a' b' st2,
    operand_wire (OWire wire_b) st_abs b stb
    ∧ bitwidth wire_sa = Some n ∧ bitwidth b = Some m
    ∧ bitwidth (mkWire 7 CWireVector 0 "tmp3" (Some 4))
      = Some (if bool_decide ("+" ∈ ["+"; "-"]) then Z.max n m + 1 else Z.max n m)
    ∧ (n < m → extend_as (cls wire_sa) wire_sa m stb = (Ok a', st2) ∧ b' = b)
    ∧ (m < n → a' = wire_sa ∧ extend_as (cls b) b n stb = (Ok b', st2))
    ∧ (n = m → a' = wire_sa ∧ b' = b ∧ st2 = stb)
    ∧ bitwidth a' = Some (Z.max n m) ∧ bitwidth b' = Some (Z.max n m)
    ∧ steps st2 (add_ wire_sa (OWire wire_b) st_abs).2
        [(block wire_sa,
          mkNet (Some "+") PNone [a'; b'] [mkWire 7 CWireVector 0 "tmp3" (Some 4)])] 1.
Proof.
  apply (C7_logic_arith_width wire_sa (OWire wire_b) "+" st_abs
           (mkWire 7 CWireVector 0 "tmp3" (Some 4))
           (add_ wire_sa (OWire wire_b) st_abs).2).
  - apply (bool_decide_unpack _). reflexivity.
  - vm_compute. reflexivity.
Defined.

(** ** Extension to the same width *)

(** C3, at the point where the code departs from it.  Sign extension of a
    [k]-bit wire to the same width [k] returns the wire itself, as the
    specification says, but it is not a no-op: reading the sign bit, which
    the code does before it compares the widths, has already allocated a
    one-bit wire and appended its select net to the block of the wire. *)
Theorem C3_sign_extended_same_width self k st w st' :
  is_signed (cls self) = true → bitwidth self = Some k →
  extended self k st = (Ok w, st') →
  w = self
  ∧ ∃ sb, fresh_wire st 0 sb 1
      ∧ steps st st' [(block self, signbit_net k self sb)] 1
      ∧ logic_at st' (block self)
        = logic_at st (block self) ++ [signbit_net k self sb].
Proof.
  intros Hsg Hk H. unfold extended in H. rewrite Hsg in H.
  apply sign_extended_Ok in H as (k' & sb & Hk' & _ & Hsb & Heq & _).
  simplify_eq. destruct (Heq eq_refl) as [-> Hs]. split; [done|].
  exists sb. split_and!; try done.
  destruct Hs as [[L _ _ _ _] _ _]. by rewrite L, log_at_here.
Qed.

Lemma C3_sign_extended_same_width_witness :
  wire_sa = wire_sa
  ∧ ∃ sb, fresh_wire st_abs 0 sb 1
      ∧ steps st_abs (extended wire_sa 2 st_abs).2
          [(block wire_sa, signbit_net 2 wire_sa sb)] 1
      ∧ logic_at (extended wire_sa 2 st_abs).2 (block wire_sa)
        = logic_at st_abs (block wire_sa) ++ [signbit_net 2 wire_sa sb].
Proof.
  apply (C3_sign_extended_same_width wire_sa 2 st_abs wire_sa
           (extended wire_sa 2 st_abs).2); [reflexivity | reflexivity | ].
  vm_compute. reflexivity.
Defined.

(** The rest of the extension contract holds as stated.  Asking for fewer
    bits fails; zero extension to the same width returns the wire and
    appends no net, the one object it has created being the constant 0; a
    wider request appends the net of the extension bits, driven by the
    constant 0 or by the sign bit, and the net that concatenates them above
    the bits of the wire. *)
Lemma extension_contract self k n st :
  bitwidth self = Some k →
  (n < k → ∀ r st', extended self n st = (r, st') → ∃ e, r = Raise e)
  ∧ (∀ w st', zero_extended self k st = (Ok w, st') →
       w = self ∧ steps st st' [] 1 ∧ ∃ c, zero_bit st st' c)
  ∧ (k < n → ∀ w st', zero_extended self n st = (Ok w, st') →
       ∃ c ext, zero_bit st st' c ∧ fresh_wire st 1 ext (n - k) ∧ fresh_wire st 2 w n
         ∧ steps st st' [(block self, ext_net (n - k) c ext);
                         (_singleton_block st, cat_net ext self w)] 3)
  ∧ (k < n → ∀ w st', sign_extended self n st = (Ok w, st') →
       ∃ sb ext, fresh_wire st 0 sb 1 ∧ fresh_wire st 1 ext (n - k)
         ∧ fresh_wire st 2 w n
         ∧ steps st st' [(block self, signbit_net k self sb);
                         (block self, ext_net (n - k) sb ext);
                         (_singleton_block st, cat_net ext self w)] 3).
Proof.
  intros Hk. split_and!.
  - intros Hlt r st' H. unfold extended in H. destruct (is_signed (cls self)).
    + by eapply sign_extended_small.
    + by eapply zero_extended_small.
  - intros w st' H.
    apply zero_extended_Ok in H as (k' & c & Hk' & _ & Hz & Heq & _).
    simplify_eq. destruct (Heq eq_refl) as [-> Hs]. split_and!; try done.
    by exists c.
  - intros Hlt w st' H.
    apply zero_extended_Ok in H as (k' & c & Hk' & _ & Hz & _ & Hgt).
    simplify_eq. destruct (Hgt Hlt) as (ext & ? & ? & ?). by exists c, ext.
  - intros Hlt w st' H.
    apply sign_extended_Ok in H as (k' & sb & Hk' & _ & Hsb & _ & Hgt).
    simplify_eq. destruct (Hgt Hlt) as (ext & ? & ? & ?). by exists sb, ext.
Qed.

(** ** Allocation by the operators *)

(** Concatenating the single wire [a] returns [a]. *)
Lemma C6_counterexample : ¬ concat_allocates [wire_a] st_abs.
Proof.
  intros H. destruct (H wire_a st_abs eq_refl) as [Hne _].
  apply (Hne wire_a); [left | done].
Qed.

Lemma logicop_steps self other op st s st' :
  logicop self other op st = (Ok s, st') →
  ∃ pre j a' b',
    steps st st' (pre ++ [(block self, mkNet (Some op) PNone [a'; b'] [s])]) (S j)
    ∧ Forall ext_kind pre ∧ oid s = (next_oid st + j)%nat
    ∧ cls s = CWireVector.
Proof.
  intros H. apply logicop_Ok in H
    as (b & stb & n & m & a' & b' & st2 & Hb & Hn & Hm & Hc & _ & _ & Hf & Hs).
  apply operand_wire_steps in Hb as [j1 Hs1].
  assert (∃ pre j2, steps stb st2 pre j2 ∧ Forall ext_kind pre)
    as (pre & j2 & Hs2 & Hpre).
  { destruct Hc as [(_ & Hx & _)|[(_ & _ & Hx)|(_ & _ & _ & ->)]].
    - apply extended_Ok in Hx as (? & pre & j2 & _ & _ & _ & _ & _ & ? & ?). eauto.
    - apply extended_Ok in Hx as (? & pre & j2 & _ & _ & _ & _ & _ & ? & ?). eauto.
    - exists [], 0%nat. auto using steps_refl. }
  pose proof (steps_trans _ _ _ _ _ _ _ Hs1 Hs2) as Hs12. simpl in Hs12.
  pose proof (steps_trans _ _ _ _ _ _ _ Hs12 Hs) as Hall.
  exists pre, (j1 + j2)%nat, a', b'.
  replace (S (j1 + j2)) with (j1 + j2 + 1)%nat by lia. split_and!; try done.
  - destruct Hf as (-> & _). destruct Hs12 as [_ -> _]. lia.
  - apply Hf.
Qed.

(** C6, as the code has it.  In every successful call: not, select and the
    concatenation of two or more wires allocate one new wire and append
    exactly one net, whose output is that wire; so do and, or, xor, add,
    subtract and multiply on two wires of equal width.  On operands of
    different widths these six append their net last, after the nets that
    extend the narrower operand, and their result is still a new object.
    The concatenation of a single wire returns that wire and changes
    nothing. *)
Theorem C6_operator_allocation st :
  (∀ self w st', invert self st = (Ok w, st') →
     ∃ n, fresh_wire st 0 w n
       ∧ steps st st' [(block self, mkNet (Some "~") PNone [self] [w])] 1)
  ∧ (∀ self item w st', getitem self item st = (Ok w, st') →
     ∃ sel, fresh_wire st 0 w (Z.of_nat (length sel))
       ∧ steps st st' [(block self, mkNet (Some "s") (PTuple sel) [self] [w])] 1)
  ∧ (∀ a b l w st', concat (a :: b :: l) st = (Ok w, st') →
     ∃ n, fresh_wire st 0 w n
       ∧ steps st st'
           [(_singleton_block st, mkNet (Some "c") PNone (a :: b :: l) [w])] 1)
  ∧ (∀ a, concat [a] st = (Ok a, st))
  ∧ (∀ self b op s st', bitwidth self = bitwidth b →
     logicop self (OWire b) op st = (Ok s, st') →
     ∃ n, fresh_wire st 0 s n
       ∧ steps st st' [(block self, mkNet (Some op) PNone [self; b] [s])] 1)
  ∧ (∀ self other op s st', logicop self other op st = (Ok s, st') →
     ∃ pre j a' b',
       steps st st'
         (pre ++ [(block self, mkNet (Some op) PNone [a'; b'] [s])]) (S j)
       ∧ Forall ext_kind pre ∧ oid s = (next_oid st + j)%nat
       ∧ cls s = CWireVector).
Proof.
  split_and!.
  - intros self w st' H. apply invert_Ok in H as (n & _ & ? & ?). eauto.
  - intros self item w st' H.
    apply getitem_Ok in H as (bw & sel & _ & _ & ? & ?). eauto.
  - intros a b l w st' H. apply concat_Ok in H as (ws & _ & ? & ?). eauto.
  - done.
  - intros self b op s st' Hw H. apply logicop_Ok in H
      as (b0 & stb & n & m & a' & b' & st2 & Hb & Hn & Hm & Hc & _ & _ & Hf & Hs).
    destruct Hb as [-> ->].
    assert (n = m) as -> by congruence.
    destruct Hc as [(? & _)|[(? & _)|(_ & -> & -> & ->)]]; [lia..|]. eauto.
  - intros self other op s st'. apply logicop_steps.
Qed.

Lemma C6_operator_allocation_witness :
  ∃ n, fresh_wire st_abs 0 (mkWire 4 CWireVector 0 "tmp0" (Some 2)) n
    ∧ steps st_abs (invert wire_a st_abs).2
        [(block wire_a,
          mkNet (Some "~") PNone [wire_a] [mkWire 4 CWireVector 0 "tmp0" (Some 2)])] 1.
Proof.
  apply (proj1 (C6_operator_allocation st_abs) wire_a
           (mkWire 4 CWireVector 0 "tmp0" (Some 2)) (invert wire_a st_abs).2).
  vm_compute. reflexivity.
Defined.

(** ** The connect operation *)

Lemma WireVector_ilshift_Ok self other st r st' t :
  bitwidth self = Some t → 0 < t →
  WireVector_ilshift self other st = (Ok r, st') →
  r = self
  ∧ ∃ src stb s x st2,
      operand_wire other st src stb ∧ bitwidth src = Some s
      ∧ (t < s → fresh_wire stb 0 x t
                 ∧ steps stb st2 [(block src, low_bits_net t src x)] 1)
      ∧ (s < t → extend_as (cls src) src t stb = (Ok x, st2))
      ∧ (s = t → x = src ∧ st2 = stb)
      ∧ bitwidth x = Some t
      ∧ steps st2 st' [(block self, connect_net x self)] 0.
Proof.
  intros Ht Hpos H. unfold WireVector_ilshift in H.
  apply bind_Ok in H as (src & stb & Hsrc & H).
  assert (operand_wire other st src stb) as Hop.
  { destruct other; simpl in *; [by apply ret_run in Hsrc as [[= ->] ->] | done]. }
  clear Hsrc. rewrite Ht in H.
  apply bind_Ok in H as (x1 & st1 & H1 & H).
  apply bind_Ok in H as (x & st2 & H2 & H).
  apply bind_Ok in H as ([] & st3 & Hadd & H). apply ret_run in H as [[= ->] ->].
  apply add_net_run in Hadd as (_ & Hs3 & _).
  split; [done|].
  destruct (bitwidth src) as [s|] eqn:Hs.
  2:{ simpl in H1. apply ret_run in H1 as [[= ->] ->]. rewrite Hs in H2. simpl in H2.
      apply extended_Ok in H2 as (k & ? & ? & Hk & _). congruence. }
  simpl in H1. exists src, stb, s, x, st2.
  destruct (Z.ltb_spec t s) as [Hlt|Hge].
  - apply getitem_Ok in H1 as (bw & sel & Hbw & Hsel & Hf & Hs1).
    assert (bw = s) as -> by congruence.
    rewrite selectednums_low in Hsel by lia. injection Hsel as <-.
    rewrite length_seqZ, Z2Nat.id in Hf by lia.
    assert (bitwidth x1 = Some t) as Hx1 by apply Hf.
    rewrite Hx1 in H2. simpl in H2. rewrite Z.ltb_irrefl in H2.
    apply ret_run in H2 as [[= ->] ->].
    split_and!; try done; intros; lia.
  - apply ret_run in H1 as [[= ->] ->]. rewrite Hs in H2. simpl in H2.
    destruct (Z.ltb_spec s t) as [Hlt|Hge'].
    + pose proof H2 as H2'.
      apply extended_Ok in H2' as (k & ? & ? & _ & _ & Hw & _).
      split_and!; try done; intros; lia.
    + apply ret_run in H2 as [[= ->] ->].
      assert (s = t) as -> by lia.
      split_and!; try done; intros; lia.
Qed.

Lemma select_range_value v n k :
  0 ≤ k →
  select_value (seqZ k (Z.of_nat n)) v = (v / 2 ^ k) mod 2 ^ Z.of_nat n.
Proof.
  revert k. induction n as [|n IH]; intros k Hk.
  - by rewrite Z.pow_0_r, Z.mod_1_r.
  - rewrite seqZ_cons by lia. unfold select_value in *. simpl.
    replace (Z.pred (Z.of_nat (S n))) with (Z.of_nat n) by lia.
    rewrite IH by lia. rewrite Z.testbit_spec' by done.
    replace (Z.of_nat (S n)) with (Z.succ (Z.of_nat n)) by lia.
    rewrite (Z.pow_succ_r 2 (Z.of_nat n)) by lia.
    rewrite Z.rem_mul_r by lia.
    rewrite (Z.pow_succ_r 2 k) by lia.
    rewrite (Z.mul_comm 2 (2 ^ k)), <- Z.div_div by lia.
    reflexivity.
Qed.

(** With that reading of a select net, the net of a truncating connect
    keeps exactly the [t] least significant bits of the source value. *)
Lemma low_bits_value t src x v :
  0 ≤ t →
  ∃ sel, op_param (low_bits_net t src x) = PTuple sel
    ∧ select_value sel v = v mod 2 ^ t.
Proof.
  intros Ht. exists (seqZ 0 t). split; [done|].
  rewrite <- (Z2Nat.id t) by done. rewrite select_range_value by done.
  by rewrite Z.pow_0_r, Z.div_1_r.
Qed.

(** Whatever the connect operation does to its source, it does with select
    and concatenate nets. *)
Lemma ilshift_source_steps src stb s t x st2 :
  (t < s → fresh_wire stb 0 x t
           ∧ steps stb st2 [(block src, low_bits_net t src x)] 1) →
  (s < t → extend_as (cls src) src t stb = (Ok x, st2)) →
  (s = t → x = src ∧ st2 = stb) →
  ∃ pre j, steps stb st2 pre j ∧ Forall ext_kind pre.
Proof.
  intros Hgt Hlt Heq. destruct (Z.lt_trichotomy t s) as [Hc|[Hc|Hc]].
  - destruct (Hgt Hc) as [_ Hsel]. eexists _, _. split; [done|].
    apply Forall_cons_2; [by left | apply Forall_nil_2].
  - destruct Heq as (_ & ->); [lia|]. exists [], 0%nat. auto using steps_refl.
  - specialize (Hlt ltac:(lia)). rewrite <- extended_own_rule in Hlt.
    apply extended_Ok in Hlt as (? & pre & j2 & _ & _ & _ & _ & _ & ? & ?). eauto.
Qed.

Lemma ilshift_plain self other st r st' :
  ilshift self other st = (Ok r, st') →
  WireVector_ilshift self other st = (Ok r, st').
Proof. unfold ilshift. destruct (cls self); done. Qed.

(** A successful connect appends its connect net last. *)
Lemma ilshift_steps self other st r st' t :
  bitwidth self = Some t → 0 < t →
  ilshift self other st = (Ok r, st') →
  r = self
  ∧ ∃ x pre j, steps st st' (pre ++ [(block self, connect_net x self)]) j.
Proof.
  intros Ht Hpos H. apply ilshift_plain in H.
  apply WireVector_ilshift_Ok with (t := t) in H
    as (-> & src & stb & s & x & st2 & Hop & Hs & Hgt & Hlt & Heq & Hx & Hc);
    try done.
  split; [done|].
  apply operand_wire_steps in Hop as [j1 Hs1].
  destruct (ilshift_source_steps _ _ _ _ _ _ Hgt Hlt Heq) as (pre & j2 & Hs2 & _).
  pose proof (steps_trans _ _ _ _ _ _ _ Hs1 Hs2) as Hs12. simpl in Hs12.
  pose proof (steps_trans _ _ _ _ _ _ _ Hs12 Hc) as Hall. eauto.
Qed.

(** The plain 3-bit wire [b] connected from the signed 2-bit wire [sa]: the
    source is sign extended, although the target is unsigned. *)
Lemma C2_counterexample : ¬ connect_extends_by_target_rule.
Proof.
  intros H.
  destruct (H wire_b wire_sa st_abs wire_b (ilshift wire_b (OWire wire_sa) st_abs).2
              3 2 eq_refl eq_refl) as (x & st2 & Hx & Hs); [lia | by vm_compute |].
  destruct Hs as [[L _ _ _ _] _ _]. specialize (L 0%nat).
  assert (∃ n1 l1, logic_at (ilshift wire_b (OWire wire_sa) st_abs).2 0
                   = n1 :: l1 ∧ op_param n1 = PTuple [1])
    as (n1 & l1 & E1 & P1) by (vm_compute; eauto).
  assert (∃ n2 l2, logic_at (extend_as (cls wire_b) wire_sa 3 st_abs).2 0
                   = n2 :: l2 ∧ op_param n2 = PTuple [0])
    as (n2 & l2 & E2 & P2) by (vm_compute; eauto).
  rewrite Hx in E2. simpl in E2. rewrite E1, E2 in L. simpl in L.
  injection L as -> _. rewrite P1 in P2. discriminate.
Qed.

(** C2, as the code has it.  A connect operation that succeeds on a target
    of positive width [t] returns the target and appends exactly one
    connect net, last, whose output is the target and whose input [x] is
    [t] bits wide: a source wider than [t] is first cut to its [t]
    low-order bits by a select net over the positions [0 .. t-1]; a source
    narrower than [t] is first extended to [t] bits by the extension rule
    of the source's own class; a source of width [t] is connected as it
    is.  The nets appended before the connect net are select and
    concatenate nets. *)
Theorem C2_connect self other st r st' t :
  bitwidth self = Some t → 0 < t →
  ilshift self other st = (Ok r, st') →
  r = self
  ∧ ∃ src stb s x st2 pre j,
      operand_wire other st src stb ∧ bitwidth src = Some s
      ∧ (t < s → fresh_wire stb 0 x t
                 ∧ steps stb st2 [(block src, low_bits_net t src x)] 1)
      ∧ (s < t → extend_as (cls src) src t stb = (Ok x, st2))
      ∧ (s = t → x = src ∧ st2 = stb)
      ∧ bitwidth x = Some t
      ∧ steps st st' (pre ++ [(block self, connect_net x self)]) j
      ∧ Forall ext_kind pre.
Proof.
  intros Ht Hpos H. apply ilshift_plain in H.
  apply WireVector_ilshift_Ok with (t := t) in H
    as (-> & src & stb & s & x & st2 & Hop & Hs & Hgt & Hlt & Heq & Hx & Hc);
    try done.
  split; [done|].
  pose proof Hop as Hop'. apply operand_wire_steps in Hop' as [j1 Hs1].
  destruct (ilshift_source_steps _ _ _ _ _ _ Hgt Hlt Heq) as (pre & j2 & Hs2 & Hpre).
  pose proof (steps_trans _ _ _ _ _ _ _ Hs1 Hs2) as Hs12. simpl in Hs12.
  pose proof (steps_trans _ _ _ _ _ _ _ Hs12 Hc) as Hall.
  exists src, stb, s, x, st2, pre, (j1 + j2 + 0)%nat. split_and!; done.
Qed.

Lemma C2_connect_witness :
  wire_a = wire_a
  ∧ ∃ src stb s x st2 pre j,
      operand_wire (OWire wire_b) st_abs src stb ∧ bitwidth src = Some s
      ∧ (2 < s → fresh_wire stb 0 x 2
                 ∧ steps stb st2 [(block src, low_bits_net 2 src x)] 1)
      ∧ (s < 2 → extend_as (cls src) src 2 stb = (Ok x, st2))
      ∧ (s = 2 → x = src ∧ st2 = stb)
      ∧ bitwidth x = Some 2
      ∧ steps st_abs (ilshift wire_a (OWire wire_b) st_abs).2
          (pre ++ [(block wire_a, connect_net x wire_a)]) j
      ∧ Forall ext_kind pre.
Proof.
  apply (C2_connect wire_a (OWire wire_b) st_abs wire_a
           (ilshift wire_a (OWire wire_b) st_abs).2 2); [reflexivity | lia | ].
  vm_compute. reflexivity.
Defined.

(** ** Registers *)

(** The first use of the next surface of a register creates the wire that
    carries the next value, and the register net. *)
Lemma _makereg_first self st n st' :
  reg_in st !! oid self = None →
  _makereg self st = (Ok n, st') →
  n = mkWire (next_oid st) CWireVector (_singleton_block st)
        (name self +:+ "'") (bitwidth self)
  ∧ grows st st' [(block self, reg_net n self)]
  ∧ next_oid st' = S (next_oid st)
  ∧ reg_in st' = <[oid self := n]> (reg_in st).
Proof.
  intros Hnone H. unfold _makereg, bind, gets in H. rewrite Hnone in H.
  destruct (WireVector_init CWireVector (bitwidth self) (Some (name self +:+ "'"))
              BNone st) as [[w|e] st1] eqn:Hw; [|discriminate].
  apply WireVector_init_Ok in Hw as (Hweq & Hs1 & _).
  destruct (add_net (block self) (mkNet (Some "r") PNone [w] [self]) st1)
    as [[[]|e] st2] eqn:Hadd; [|discriminate].
  apply add_net_run in Hadd as (_ & Hs2 & _).
  unfold modify, ret in H. simplify_eq. simpl in *.
  pose proof (steps_trans _ _ _ _ _ _ _ Hs1 Hs2) as [[L ? ? ? ?] Ho Hr].
  split_and!; simpl;
    first [done | lia | (split; simpl; done) | by rewrite Hr].
Qed.

Lemma _makereg_again self st n :
  reg_in st !! oid self = Some n → _makereg self st = (Ok n, st).
Proof. intros H. unfold _makereg, bind, gets. by rewrite H. Qed.

(** Binding the next surface by assignment: the first binding creates the
    register net and connects the value to the next wire. *)
Lemma next_set_first_binding self value st st' :
  reg_in st !! oid self = None →
  next_set self value st = (Ok tt, st') →
  ∃ n st1, _makereg self st = (Ok n, st1)
    ∧ grows st st1 [(block self, reg_net n self)]
    ∧ ilshift n value st1 = (Ok n, st')
    ∧ reg_in st' !! oid self = Some n.
Proof.
  intros Hnone H. unfold next_set in H.
  apply bind_Ok in H as (r & st0 & Hr & H). unfold gets in Hr. simplify_eq.
  rewrite Hnone in H. simpl in H.
  apply bind_Ok in H as (n & st1 & Hn & H).
  apply bind_Ok in H as (n' & st2 & Hi & H). apply ret_run in H as [_ ->].
  rename st2 into st'.
  pose proof Hn as Hn'. apply _makereg_first in Hn' as (Hneq & Hg & _ & Hreg); [|done].
  assert (n' = n) as ->.
  { unfold ilshift in Hi. rewrite Hneq in Hi. simpl in Hi. rewrite <- Hneq in Hi.
    unfold WireVector_ilshift in Hi.
    apply bind_Ok in Hi as (? & ? & _ & Hi).
    destruct (bitwidth n); [|discriminate].
    apply bind_Ok in Hi as (? & ? & _ & Hi). apply bind_Ok in Hi as (? & ? & _ & Hi).
    apply bind_Ok in Hi as (? & ? & _ & Hi). by apply ret_run in Hi as [[= ->] _]. }
  exists n, st1. split_and!; try done.
  assert (reg_in st' = reg_in st1) as ->.
  { eapply (preserves_ilshift (λ s s', reg_in s' = reg_in s)); try exact Hi;
      try done; try congruence.
    - by intros ? ? ? [= <- <-].
    - by intros ? ? ? ? [= <- <-].
    - by intros ? ? ? [= <- <-].
    - intros ? ? ? ? ? Hrun. by apply add_wirevector_run in Hrun as ([_ _ ?] & _).
    - intros ? ? _ ? ? ? Hrun. by apply add_net_run in Hrun as (_ & [_ _ ?] & _).
    - by intros ? ? ? ? [= <- <-]. }
  rewrite Hreg. apply lookup_insert_eq.
Qed.

(** Binding it again by assignment, to anything but the next wire itself,
    is rejected, and the state is left as it was. *)
Lemma next_set_rebinding_rejected self value n st :
  reg_in st !! oid self = Some n →
  (∀ v, value = OWire v → oid v ≠ oid n) →
  next_set self value st = (Raise (PyrtlError EmptyString), st).
Proof.
  intros Hn Hv. unfold next_set, bind, gets. rewrite Hn.
  destruct value as [v|z]; [|done].
  rewrite bool_decide_false; [done|]. intros E. by apply (Hv v).
Qed.

(** C4, at the point where the code departs from it.  Once the next surface
    of a register is bound (its next wire [n] exists), binding it again
    with the statement [r.next <<= value] is not rejected: whenever
    connecting [value] to the plain wire [n] succeeds, the statement
    succeeds too, and the netlist has received a further connect net that
    drives [n]. *)
Theorem C4_second_ilshift_binding self n value st r st1 t :
  reg_in st !! oid self = Some n →
  bitwidth n = Some t → 0 < t →
  ilshift n value st = (Ok r, st1) →
  next_ilshift self value st = (Ok tt, st1)
  ∧ ∃ x pre j, steps st st1 (pre ++ [(block n, connect_net x n)]) j.
Proof.
  intros Hn Ht Hpos Hi.
  pose proof Hi as Hi'.
  apply ilshift_steps with (t := t) in Hi' as (-> & x & pre & j & Hs); try done.
  split; [|eauto].
  unfold next_ilshift, next_get, bind. rewrite (_makereg_again _ _ _ Hn), Hi.
  unfold next_set, bind, gets. rewrite (s_reg _ _ _ _ Hs), Hn.
  by rewrite bool_decide_true.
Qed.

Lemma st_reg_bound :
  reg_in st_reg !! oid wire_r = Some wire_rn
  ∧ logic_at st_reg 0 = [reg_net wire_rn wire_r; connect_net wire_a wire_rn].
Proof. vm_compute. done. Qed.

Lemma C4_second_ilshift_binding_witness :
  next_ilshift wire_r (OWire wire_sa) st_reg
  = (Ok tt, (ilshift wire_rn (OWire wire_sa) st_reg).2)
  ∧ ∃ x pre j, steps st_reg (ilshift wire_rn (OWire wire_sa) st_reg).2
                 (pre ++ [(block wire_rn, connect_net x wire_rn)]) j.
Proof.
  apply (C4_second_ilshift_binding wire_r wire_rn (OWire wire_sa) st_reg wire_rn
           (ilshift wire_rn (OWire wire_sa) st_reg).2 2);
    [by vm_compute | reflexivity | lia | by vm_compute].
Defined.

(** After the two statements the next wire of [r] has two drivers. *)
Lemma second_binding_double_driver :
  logic_at (next_ilshift wire_r (OWire wire_sa) st_reg).2 0
  = [reg_net wire_rn wire_r; connect_net wire_a wire_rn;
     connect_net wire_sa wire_rn].
Proof. vm_compute. done. Qed.

(** ** Memory blocks *)

Lemma LogicNet_eqb_refl x : LogicNet_eqb x x = true.
Proof. unfold LogicNet_eqb. by rewrite !bool_decide_true. Qed.

Lemma LogicNet_eqb_param x y : LogicNet_eqb x y = true → op_param x = op_param y.
Proof.
  unfold LogicNet_eqb. intros H.
  repeat (apply andb_prop in H as [H ?]).
  by match goal with H : bool_decide (op_param x = _) = true |- _ =>
    apply bool_decide_eq_true in H end.
Qed.

Lemma list_remove_spec x l l' :
  list_remove x l = Some l' →
  ∃ l1 y l2, l = l1 ++ y :: l2 ∧ l' = l1 ++ l2 ∧ LogicNet_eqb y x = true.
Proof.
  revert l'. induction l as [|y l IH]; intros l' H; simpl in H; [discriminate|].
  destruct (LogicNet_eqb y x) eqn:E.
  - simplify_eq. by exists [], y, l'.
  - destruct (list_remove x l) as [r|]; [|discriminate]. simpl in H. simplify_eq.
    destruct (IH r eq_refl) as (l1 & z & l2 & -> & -> & ?).
    by exists (y :: l1), z, l2.
Qed.

Lemma list_remove_elem x l : x ∈ l → is_Some (list_remove x l).
Proof.
  induction l as [|y l IH]; intros H; [by apply elem_of_nil in H|]. simpl.
  destruct (LogicNet_eqb y x) eqn:E; [done|].
  apply elem_of_cons in H as [->|H]; [by rewrite LogicNet_eqb_refl in E|].
  destruct (IH H) as [r ->]. done.
Qed.

(** Removing the stored net from a list that holds exactly that net of the
    memory [id] leaves no net of [id] and every other net in place. *)
Lemma list_remove_mem id x l :
  is_mem_net id x = true →
  filter (λ n, is_mem_net id n) l = [x] →
  ∃ l', list_remove x l = Some l'
    ∧ filter (λ n, is_mem_net id n) l' = []
    ∧ (∀ id', id' ≠ id →
         filter (λ n, is_mem_net id' n) l' = filter (λ n, is_mem_net id' n) l)
    ∧ (∀ n, n ∈ l' → n ∈ l)
    ∧ ∃ l1 l2, l = l1 ++ x :: l2 ∧ l' = l1 ++ l2.
Proof.
  intros Hx Hf.
  assert (x ∈ l) as Hin.
  { assert (x ∈ filter (λ n, is_mem_net id n) l) as H by (rewrite Hf; left).
    by apply list_elem_of_filter in H as [_ ?]. }
  destruct (list_remove_elem x l Hin) as [l' Hl']. exists l'. split; [done|].
  apply list_remove_spec in Hl' as (l1 & y & l2 & -> & -> & Heq).
  assert (is_mem_net id y = true) as Hy.
  { unfold is_mem_net in *. by rewrite (LogicNet_eqb_param _ _ Heq). }
  rewrite filter_app, filter_cons_True in Hf by (by rewrite Hy).
  assert (filter (λ n, is_mem_net id n) l1 = []
          ∧ filter (λ n, is_mem_net id n) l2 = [] ∧ y = x) as (E1 & E2 & ->).
  { destruct (filter (λ n, is_mem_net id n) l1) as [|? [|]];
      destruct (filter (λ n, is_mem_net id n) l2); simplify_eq/=; done. }
  split_and!; [| | |by exists l1, l2].
  - by rewrite filter_app, E1, E2.
  - intros id' Hne. rewrite !filter_app. f_equal.
    rewrite filter_cons_False; [done|].
    unfold is_mem_net in *. destruct (op_param x); try done.
    apply bool_decide_eq_true in Hy as ->. rewrite bool_decide_false; [|done].
    by intros [].
  - intros n Hn. apply elem_of_app in Hn as [?|?]; apply elem_of_app;
      [by left | right; by right].
Qed.

Lemma is_mem_net_of m : is_mem_net (mem_id m) (mem_net_of m) = true.
Proof. unfold is_mem_net. simpl. by rewrite bool_decide_true. Qed.

Lemma is_mem_net_other id m : id ≠ mem_id m → is_mem_net id (mem_net_of m) = false.
Proof. intros H. unfold is_mem_net. simpl. by rewrite bool_decide_false. Qed.

(** [_update_net] on a block whose stored net is its only live net: it
    succeeds, and replaces that net by the net of the current port lists. *)
Lemma _update_net_run h m st :
  memblocks st !! h = Some m → mem_ok st m →
  length (write_addr m) = length (write_data m) →
  ∃ st' l',
    _update_net h st = (Ok tt, st')
    ∧ memblocks st' = alter (store_net (mem_net_of m)) h (memblocks st)
    ∧ memid_count st' = memid_count st
    ∧ logic_at st' (mem_block m) = l' ++ [mem_net_of m]
    ∧ filter (λ n, is_mem_net (mem_id m) n) l' = []
    ∧ (∀ id', id' ≠ mem_id m →
         filter (λ n, is_mem_net id' n) l'
         = filter (λ n, is_mem_net id' n) (logic_at st (mem_block m)))
    ∧ (∀ n, n ∈ l' → n ∈ logic_at st (mem_block m))
    ∧ (∀ b, b ≠ mem_block m → logic_at st' b = logic_at st b)
    ∧ match stored_net m with
      | Some old => ∃ l1 l2, logic_at st (mem_block m) = l1 ++ old :: l2
                             ∧ l' = l1 ++ l2
      | None => l' = logic_at st (mem_block m)
      end.
Proof.
  intros Hh Hok Hlen.
  assert (∃ st1 l',
    match stored_net m with
    | Some net => logic_remove (mem_block m) net
    | None => ret tt
    end st = (Ok tt, st1)
    ∧ memblocks st1 = memblocks st ∧ memid_count st1 = memid_count st
    ∧ logic_at st1 (mem_block m) = l'
    ∧ filter (λ n, is_mem_net (mem_id m) n) l' = []
    ∧ (∀ id', id' ≠ mem_id m →
         filter (λ n, is_mem_net id' n) l'
         = filter (λ n, is_mem_net id' n) (logic_at st (mem_block m)))
    ∧ (∀ n, n ∈ l' → n ∈ logic_at st (mem_block m))
    ∧ (∀ b, b ≠ mem_block m → logic_at st1 b = logic_at st b)
    ∧ match stored_net m with
      | Some old => ∃ l1 l2, logic_at st (mem_block m) = l1 ++ old :: l2
                             ∧ l' = l1 ++ l2
      | None => l' = logic_at st (mem_block m)
      end)
    as (st1 & l' & Hrm & Hm1 & Hid1 & Hl' & Hf & Hoth & Hsub & Hb & Hold).
  { pose proof (Hok (mem_block m)) as Hhere. rewrite decide_True in Hhere by done.
    unfold mem_nets in Hhere.
    destruct (stored_net m) as [net|]; simpl in Hhere.
    - assert (is_mem_net (mem_id m) net = true) as Hnet.
      { assert (net ∈ filter (λ n, is_mem_net (mem_id m) n)
                         (logic_at st (mem_block m))) as Hin
          by (rewrite Hhere; left).
        apply list_elem_of_filter in Hin as [Hin _]. by destruct (is_mem_net _ net). }
      destruct (list_remove_mem _ _ _ Hnet Hhere) as (l' & Hrem & ? & ? & ? & ?).
      eexists _, l'. unfold logic_remove. fold (logic_at st (mem_block m)).
      rewrite Hrem. split_and!; try done.
      + rewrite logic_at_set_block. by rewrite decide_True.
      + intros b Hb. rewrite logic_at_set_block. by rewrite decide_False.
    - exists st, (logic_at st (mem_block m)). by split_and!. }
  unfold _update_net, bind, get_mem. rewrite Hh, Hrm.
  rewrite bool_decide_true by done. simpl.
  eexists _, l'. split; [reflexivity|]. simpl. split_and!; try done.
  - by rewrite Hm1.
  - change (logic_at (set_block (mem_block m)
              (mkBlock (wirevector_by_name (get_block (mem_block m) st1))
                       (logic_at st1 (mem_block m) ++ [mem_net_of m])) st1)
              (mem_block m) = l' ++ [mem_net_of m]).
    rewrite logic_at_set_block, decide_True by done. simpl. by rewrite Hl'.
  - intros b Hne.
    change (logic_at (set_block (mem_block m)
              (mkBlock (wirevector_by_name (get_block (mem_block m) st1))
                       (logic_at st1 (mem_block m) ++ [mem_net_of m])) st1) b
            = logic_at st b).
    rewrite logic_at_set_block, decide_False by done. by apply Hb.
Qed.

(** Re-deriving the net of block [h] after its object was replaced by [m2],
    which differs from [m] in its port lists only. *)
Lemma update_post h m m2 st st2 :
  wf st → memblocks st !! h = Some m →
  (∀ b, logic_at st2 b = logic_at st b) →
  memid_count st2 = memid_count st →
  memblocks st2 = <[h := m2]> (memblocks st) →
  mem_id m2 = mem_id m → mem_block m2 = mem_block m →
  stored_net m2 = stored_net m →
  length (write_addr m2) = length (write_data m2) →
  length (write_data m2) = length (write_enable m2) →
  length (read_addr m2) = length (read_data m2) →
  ∃ st3, _update_net h st2 = (Ok tt, st3)
    ∧ mem_post st3 h (store_net (mem_net_of m2) m2)
    ∧ net_replaced st st3 m (store_net (mem_net_of m2) m2).
Proof.
  intros Hwf Hh Hlog Hcnt Hmem Hid Hblk Hst Hl1 Hl2 Hl3.
  assert (memblocks st2 !! h = Some m2) as Hh2
    by (rewrite Hmem; apply lookup_insert_eq).
  assert (mem_ok st2 m2) as Hok2.
  { intros b. unfold mem_nets. rewrite Hlog, Hid, Hblk, Hst.
    apply (wf_ok _ Hwf _ _ Hh). }
  destruct (_update_net_run h m2 st2 Hh2 Hok2 Hl1)
    as (st3 & l' & Hrun & Hm3 & Hc3 & Hhere & Hnone & Hoth & Hsub & Hb & Hold).
  assert (memblocks st3 !! h = Some (store_net (mem_net_of m2) m2)) as Hh3.
  { rewrite Hm3, lookup_alter, decide_True by done. by rewrite Hh2. }
  assert (∀ h', h' ≠ h → memblocks st3 !! h' = memblocks st !! h') as Hother.
  { intros h' Hne. rewrite Hm3, lookup_alter, decide_False by done.
    rewrite Hmem. by apply lookup_insert_ne. }
  assert (∀ b, mem_nets (mem_id m2) st3 b
               = if decide (b = mem_block m2) then [mem_net_of m2] else []) as Hone.
  { intros b. unfold mem_nets. case_decide as Eb.
    - subst b. rewrite Hhere, filter_app, Hnone. simpl.
      rewrite filter_cons_True by (by rewrite is_mem_net_of). done.
    - rewrite (Hb b Eb), Hlog. pose proof (wf_ok _ Hwf _ _ Hh b) as Hm.
      unfold mem_nets in Hm. rewrite Hid, Hm. rewrite decide_False; [done|].
      by rewrite <- Hblk. }
  exists st3. split; [done|]. split; [split_and!; try done|].
  - split.
    + intros h' m' Hm'. destruct (decide (h' = h)) as [->|Hne].
      * rewrite Hh3 in Hm'. injection Hm' as <-. intros b. simpl. apply Hone.
      * rewrite Hother in Hm' by done.
        assert (mem_id m' ≠ mem_id m2) as Hidne.
        { rewrite Hid. intros E. apply Hne. by apply (wf_inj _ Hwf _ _ _ _ Hm' Hh). }
        intros b. pose proof (wf_ok _ Hwf _ _ Hm' b) as Hm. rewrite <- Hm.
        unfold mem_nets. destruct (decide (b = mem_block m2)) as [->|Eb].
        -- rewrite Hhere, filter_app, (Hoth _ Hidne), Hlog. simpl.
           rewrite filter_cons_False; [by rewrite app_nil_r|].
           rewrite is_mem_net_other by done. by intros [].
        -- by rewrite (Hb b Eb), Hlog.
    + intros h' m' Hm'. destruct (decide (h' = h)) as [->|Hne].
      * rewrite Hh3 in Hm'. injection Hm' as <-. simpl. done.
      * rewrite Hother in Hm' by done. apply (wf_len _ Hwf _ _ Hm').
    + intros h1 h2 m1 m1' H1 H2 E.
      assert (∀ h' m', memblocks st3 !! h' = Some m' →
                ∃ m0, memblocks st !! h' = Some m0 ∧ mem_id m0 = mem_id m') as Hback.
      { intros h' m' Hm'. destruct (decide (h' = h)) as [->|Hne].
        - rewrite Hh3 in Hm'. injection Hm' as <-. simpl. eauto.
        - rewrite Hother in Hm' by done. eauto. }
      destruct (Hback _ _ H1) as (m0 & ? & E0).
      destruct (Hback _ _ H2) as (m0' & ? & E0').
      apply (wf_inj _ Hwf _ _ m0 m0'); try done. congruence.
    + intros h' m' Hm'. rewrite Hc3, Hcnt. destruct (decide (h' = h)) as [->|Hne].
      * rewrite Hh3 in Hm'. injection Hm' as <-. simpl. rewrite Hid.
        apply (wf_ids _ Hwf _ _ Hh).
      * rewrite Hother in Hm' by done. apply (wf_ids _ Hwf _ _ Hm').
    + intros b n i r w Hn Hp. rewrite Hc3, Hcnt.
      destruct (decide (b = mem_block m2)) as [->|Eb].
      * rewrite Hhere in Hn. apply elem_of_app in Hn as [Hn|Hn].
        -- apply Hsub in Hn. rewrite Hlog in Hn. by apply (wf_nets _ Hwf _ _ _ _ _ Hn Hp).
        -- apply list_elem_of_singleton in Hn as ->. simpl in Hp. injection Hp as <- _ _.
           rewrite Hid. apply (wf_ids _ Hwf _ _ Hh).
      * rewrite (Hb b Eb), Hlog in Hn. by apply (wf_nets _ Hwf _ _ _ _ _ Hn Hp).
  - split.
    + intros b Eb. rewrite Hb, Hlog; [done|]. by rewrite Hblk.
    + rewrite <- Hst, <- Hblk. destruct (stored_net m2) as [old|].
      * destruct Hold as (l1 & l2 & E1 & ->). exists l1, l2.
        rewrite <- Hlog, E1, Hhere. split; [done|]. by rewrite <- app_assoc.
      * rewrite Hhere, Hold, Hlog. done.
Qed.

Lemma alter_present {A} (f : A → A) (h : nat) (x : A) (mm : gmap nat A) :
  mm !! h = Some x → alter f h mm = <[h := f x]> mm.
Proof.
  intros H. apply map_eq. intros i. rewrite lookup_alter, lookup_insert.
  case_decide; subst; [by rewrite H | done].
Qed.

Lemma zip3_snoc {A} (xs ys zs : list A) x y z :
  length xs = length ys → length ys = length zs →
  zip3 (xs ++ [x]) (ys ++ [y]) (zs ++ [z]) = zip3 xs ys zs ++ [(x, y, z)].
Proof.
  revert ys zs. induction xs as [|a xs IH]; intros [|b ys] [|c zs] H1 H2;
    simplify_eq/=; [done|]. f_equal. by apply IH.
Qed.

(** A further write port contributes its address, data and enable wires,
    in this order, after the arguments of the earlier write ports. *)
Lemma flattened_write_args_snoc m addr data enable :
  length (write_addr m) = length (write_data m) →
  length (write_data m) = length (write_enable m) →
  flattened_write_args (add_write addr data enable m)
  = flattened_write_args m ++ [addr; data; enable].
Proof.
  intros H1 H2. unfold flattened_write_args. simpl.
  rewrite zip3_snoc by done. rewrite fmap_app, join_app. simpl.
  by rewrite ?app_nil_r.
Qed.

Lemma MemBlock_getitem_Ok h m item data st st' :
  wf st → memblocks st !! h = Some m →
  MemBlock_getitem h (OWire item) st = (Ok data, st') →
  let m' := store_net (mem_net_of (add_read item data m)) (add_read item data m) in
  bitwidth item = Some (mem_addrwidth m)
  ∧ fresh_wire st 0 data (mem_bitwidth m)
  ∧ mem_post st' h m' ∧ net_replaced st st' m m'.
Proof.
  intros Hwf Hh H m'. unfold MemBlock_getitem in H.
  apply bind_Ok in H as (m0 & st0 & Hg & H).
  unfold get_mem in Hg. rewrite Hh in Hg. simplify_eq.
  apply bind_Ok in H as (n & ? & Hn & H). apply len_Ok in Hn as [-> Hn].
  destruct (Z.eqb_spec n (mem_addrwidth m0)) as [->|]; [|discriminate]. simpl in H.
  apply bind_Ok in H as (d & st1 & Hd & H).
  apply WireVector_init_fresh in Hd as (Hf & [[L1 _ _ M1 C1] _ _] & _).
  apply bind_Ok in H as ([] & st2 & Hu & H).
  unfold upd_mem, modify in Hu. simplify_eq.
  apply bind_Ok in H as ([] & st3 & Hup & H). apply ret_run in H as [Hd' E3].
  injection Hd' as Hd'. subst d st3.
  destruct (update_post h m0 (add_read item data m0) st0
              (set_memblocks (alter (add_read item data) h (memblocks st1)) st1)
              Hwf Hh)
    as (st3' & Hrun & Hpost & Hrep); simpl; try done.
  - intros b. change (logic_at st1 b = logic_at st0 b).
    by rewrite L1, log_at_nil, app_nil_r.
  - rewrite M1. by apply alter_present.
  - apply (wf_len _ Hwf _ _ Hh).
  - apply (wf_len _ Hwf _ _ Hh).
  - rewrite !length_app. simpl. f_equal. apply (wf_len _ Hwf _ _ Hh).
  - change (_update_net h
      (set_memblocks (alter (add_read item data) h (memblocks st1)) st1)
      = (Ok (), st')) in Hup.
    rewrite Hup in Hrun. by simplify_eq.
Qed.

Lemma MemBlock_setitem_Ok h m item val st st' :
  wf st → memblocks st !! h = Some m →
  MemBlock_setitem h (OWire item) val st = (Ok tt, st') →
  ∃ data enable stc,
    write_value val st data enable stc
    ∧ bitwidth item = Some (mem_addrwidth m)
    ∧ bitwidth data = Some (mem_bitwidth m) ∧ bitwidth enable = Some 1
    ∧ let m' := store_net (mem_net_of (add_write item data enable m))
                          (add_write item data enable m) in
      mem_post st' h m' ∧ net_replaced st st' m m'.
Proof.
  intros Hwf Hh H. unfold MemBlock_setitem in H.
  apply bind_Ok in H as (m0 & st0 & Hg & H).
  unfold get_mem in Hg. rewrite Hh in Hg.
  injection Hg as Hm0 Hst0. subst m0 st0.
  apply bind_Ok in H as (n & ? & Hn & H). apply len_Ok in Hn as [-> Hn].
  destruct (Z.eqb_spec n (mem_addrwidth m)) as [->|]; [|discriminate]. simpl in H.
  apply bind_Ok in H as ([data enable] & stc & Hde & H).
  assert (write_value val st data enable stc) as Hval.
  { destruct val; simpl in *.
    - apply bind_Ok in Hde as (e & ? & He & Hde).
      apply ret_run in Hde as [Hde ->]. injection Hde as -> ->. done.
    - apply ret_run in Hde as [Hde ->]. injection Hde as -> ->. done.
    - discriminate. }
  assert ((∀ b, logic_at stc b = logic_at st b)
          ∧ memblocks stc = memblocks st ∧ memid_count stc = memid_count st)
    as (Lc & Mc & Cc).
  { destruct val; simpl in Hval.
    - destruct Hval as [_ Hc].
      apply Const_init_Ok in Hc as (_ & [[L ? ? ? ?] _ _] & _).
      split_and!; try done. intros b. by rewrite L, log_at_nil, app_nil_r.
    - by destruct Hval as (_ & _ & ->).
    - done. }
  clear Hde.
  apply bind_Ok in H as (ld & ? & Hld & H). apply len_Ok in Hld as [-> Hld].
  destruct (Z.eqb_spec ld (mem_bitwidth m)) as [->|]; [|discriminate]. simpl in H.
  apply bind_Ok in H as (le & ? & Hle & H). apply len_Ok in Hle as [-> Hle].
  destruct (Z.eqb_spec le 1) as [->|]; [|discriminate]. simpl in H.
  apply bind_Ok in H as ([] & st2 & Hu & H).
  unfold upd_mem, modify in Hu. injection Hu as Hu. subst st2.
  change (_update_net h
      (set_memblocks (alter (add_write item data enable) h (memblocks stc)) stc)
      = (Ok (), st')) in H.
  exists data, enable, stc. split_and!; try done.
  destruct (update_post h m (add_write item data enable m) st
              (set_memblocks (alter (add_write item data enable) h (memblocks stc)) stc)
              Hwf Hh)
    as (st3' & Hrun & Hpost & Hrep); simpl; try done.
  - rewrite Mc. by apply alter_present.
  - rewrite !length_app. simpl. f_equal. apply (wf_len _ Hwf _ _ Hh).
  - rewrite !length_app. simpl. f_equal. apply (wf_len _ Hwf _ _ Hh).
  - apply (wf_len _ Hwf _ _ Hh).
  - rewrite H in Hrun. by simplify_eq.
Qed.

(** An access that passes the checks of the block succeeds: a write with
    an address, data and enable of the widths of the block (for a plain
    data wire the enable is the constant 1 built for it), *)
Lemma MemBlock_setitem_succeeds h m item val data enable stc st :
  wf st → memblocks st !! h = Some m →
  0 < mem_addrwidth m ≤ maxint → 0 < mem_bitwidth m ≤ maxint →
  write_value val st data enable stc →
  bitwidth item = Some (mem_addrwidth m) →
  bitwidth data = Some (mem_bitwidth m) → bitwidth enable = Some 1 →
  ∃ st', MemBlock_setitem h (OWire item) val st = (Ok tt, st').
Proof.
  intros Hwf Hm _ _ Hval Hi Hd He.
  assert (match val with
          | MVWire w => enable <- Const_init CConst 1 (Some 1) ;; ret (w, enable)
          | MVEnable data enable => ret (data, enable)
          | MVOther => raise (PyrtlError EmptyString)
          end st = (Ok (data, enable), stc)
          ∧ (∀ b, logic_at stc b = logic_at st b)
          ∧ memblocks stc = memblocks st ∧ memid_count stc = memid_count st)
    as (Hde & Lc & Mc & Cc).
  { destruct val as [w|d e|]; simpl in Hval.
    - destruct Hval as [-> Hc]. unfold bind. rewrite Hc. split; [done|].
      apply Const_init_Ok in Hc as (_ & [[L ? ? ? ?] _ _] & _).
      split_and!; try done. intros b. by rewrite L, log_at_nil, app_nil_r.
    - by destruct Hval as (-> & -> & ->).
    - done. }
  destruct (update_post h m (add_write item data enable m) st
              (set_memblocks (alter (add_write item data enable) h (memblocks stc)) stc)
              Hwf Hm)
    as (st3 & Hrun & _); simpl; try done.
  - rewrite Mc. by apply alter_present.
  - rewrite !length_app. simpl. f_equal. apply (wf_len _ Hwf _ _ Hm).
  - rewrite !length_app. simpl. f_equal. apply (wf_len _ Hwf _ _ Hm).
  - apply (wf_len _ Hwf _ _ Hm).
  - exists st3. unfold MemBlock_setitem, bind at 1, get_mem. rewrite Hm.
    unfold bind at 1, len at 1. rewrite Hi. unfold ret at 1.
    rewrite Z.eqb_refl. cbn [negb]. unfold bind at 1. rewrite Hde.
    unfold bind at 1, len at 1. rewrite Hd. unfold ret at 1.
    rewrite Z.eqb_refl. cbn [negb].
    unfold bind at 1, len at 1. rewrite He. unfold ret at 1.
    rewrite Z.eqb_refl. cbn [negb].
    unfold bind, upd_mem, modify. exact Hrun.
Qed.

(** and a read with an address of the address width, when the wire for the
    data can be built. *)
Lemma MemBlock_getitem_succeeds h m item st :
  wf st → memblocks st !! h = Some m →
  0 < mem_addrwidth m ≤ maxint → 0 < mem_bitwidth m ≤ maxint →
  bitwidth item = Some (mem_addrwidth m) →
  name_free (name_of None st) st →
  ∃ data st', MemBlock_getitem h (OWire item) st = (Ok data, st').
Proof.
  intros Hwf Hm _ Hbw Hi Hfree.
  destruct (WireVector_init_tmp _ st Hbw Hfree) as (d & st1 & Hd).
  pose proof Hd as Hd'.
  apply WireVector_init_fresh in Hd' as (_ & [[L1 _ _ M1 C1] _ _] & _).
  destruct (update_post h m (add_read item d m) st
              (set_memblocks (alter (add_read item d) h (memblocks st1)) st1)
              Hwf Hm)
    as (st3 & Hrun & _); simpl; try done.
  - intros b. change (logic_at st1 b = logic_at st b).
    by rewrite L1, log_at_nil, app_nil_r.
  - rewrite M1. by apply alter_present.
  - apply (wf_len _ Hwf _ _ Hm).
  - apply (wf_len _ Hwf _ _ Hm).
  - rewrite !length_app. simpl. f_equal. apply (wf_len _ Hwf _ _ Hm).
  - exists d, st3. unfold MemBlock_getitem, bind at 1, get_mem. rewrite Hm.
    unfold bind at 1, len at 1. rewrite Hi. unfold ret at 1.
    rewrite Z.eqb_refl. cbn [negb]. unfold bind at 1. rewrite Hd.
    unfold bind at 1, upd_mem at 1, modify at 1.
    change (λ m0 : MemBlock, mkMem (mem_block m0) (mem_bitwidth m0) (mem_name m0)
              (mem_addrwidth m0) (stored_net m0) (mem_id m0)
              (read_addr m0 ++ [item]) (read_data m0 ++ [d])
              (write_addr m0) (write_data m0) (write_enable m0))
      with (add_read item d).
    unfold bind. rewrite Hrun. done.
Qed.

(** C5. In a state that satisfies the invariant of the memory blocks, after
    every successful read or write access to a block its object holds the
    port lists extended by the new port, at the end; its stored net is the
    net derived from these lists: the inputs are the read addresses in call
    order followed by the (address, data, enable) triples of the write
    ports in call order, the outputs are the read data wires in call
    order, and the parameter is the memory identity with the two port
    counts.  This net is the only live net of the block in the netlist:
    the net registered before, if any, was removed, every other net kept
    its place, and the invariant holds again.  Such accesses exist: on a
    block whose widths are positive [int]s, a write whose address, data
    and enable have the widths of the block succeeds, and so does a read
    whose address has the address width when the next temporary name is
    free for the data wire. *)
Theorem C5_memblock_single_net h m st :
  wf st → memblocks st !! h = Some m →
  (∀ item data st',
     MemBlock_getitem h (OWire item) st = (Ok data, st') →
     ∃ m', mem_post st' h m' ∧ net_replaced st st' m m'
       ∧ read_addr m' = read_addr m ++ [item]
       ∧ read_data m' = read_data m ++ [data]
       ∧ mem_net_of m'
         = mkNet (Some "m")
             (PMem (mem_id m) (S (length (read_addr m))) (length (write_addr m)))
             ((read_addr m ++ [item]) ++ flattened_write_args m)
             (read_data m ++ [data]))
  ∧ (∀ item val st',
     MemBlock_setitem h (OWire item) val st = (Ok tt, st') →
     ∃ m' data enable stc,
       write_value val st data enable stc
       ∧ mem_post st' h m' ∧ net_replaced st st' m m'
       ∧ write_addr m' = write_addr m ++ [item]
       ∧ write_data m' = write_data m ++ [data]
       ∧ write_enable m' = write_enable m ++ [enable]
       ∧ mem_net_of m'
         = mkNet (Some "m")
             (PMem (mem_id m) (length (read_addr m)) (S (length (write_addr m))))
             (read_addr m ++ flattened_write_args m ++ [item; data; enable])
             (read_data m))
  ∧ (0 < mem_addrwidth m ≤ maxint → 0 < mem_bitwidth m ≤ maxint →
     (∀ item val data enable stc,
        write_value val st data enable stc →
        bitwidth item = Some (mem_addrwidth m) →
        bitwidth data = Some (mem_bitwidth m) → bitwidth enable = Some 1 →
        ∃ st', MemBlock_setitem h (OWire item) val st = (Ok tt, st'))
     ∧ (∀ item,
        bitwidth item = Some (mem_addrwidth m) →
        name_free (name_of None st) st →
        ∃ data st', MemBlock_getitem h (OWire item) st = (Ok data, st'))).
Proof.
  intros Hwf Hh. split_and!.
  - intros item data st' H.
    apply (MemBlock_getitem_Ok _ _ _ _ _ _ Hwf Hh) in H as (_ & _ & Hpost & Hrep).
    eexists. split_and!; try done.
    unfold mem_net_of. simpl. rewrite length_app. simpl. do 2 f_equal. lia.
  - intros item val st' H.
    apply (MemBlock_setitem_Ok _ _ _ _ _ _ Hwf Hh) in H
      as (data & enable & stc & Hval & _ & _ & _ & Hpost & Hrep).
    eexists _, data, enable, stc. split_and!; try done.
    unfold mem_net_of.
    change (flattened_write_args (store_net _ ?x)) with (flattened_write_args x).
    rewrite flattened_write_args_snoc by apply (wf_len _ Hwf _ _ Hh).
    simpl. rewrite length_app. simpl. do 2 f_equal. lia.
  - intros Ha Hb. split.
    + intros item val data enable stc. by apply MemBlock_setitem_succeeds.
    + intros item. by apply MemBlock_getitem_succeeds.
Qed.

(** ** The invariant holds in every state the module reaches *)

Lemma wf_initial : wf initial_state.
Proof.
  split.
  - intros h m H. simpl in H. by rewrite lookup_empty in H.
  - intros h m H. simpl in H. by rewrite lookup_empty in H.
  - intros h1 h2 m1 m2 H. simpl in H. by rewrite lookup_empty in H.
  - intros h m H. simpl in H. by rewrite lookup_empty in H.
  - intros b n i r w H. unfold logic_at, get_block in H. simpl in H.
    destruct (decide (b = 0%nat)) as [->|Hb].
    + rewrite lookup_singleton_eq in H. simpl in H. by apply elem_of_nil in H.
    + rewrite lookup_singleton_ne in H by done.
      simpl in H. by apply elem_of_nil in H.
Qed.

Lemma mem_frame_refl st : mem_frame st st.
Proof. exists []. split; [apply grows_refl | apply Forall_nil_2]. Qed.

Lemma mem_frame_trans st1 st2 st3 :
  mem_frame st1 st2 → mem_frame st2 st3 → mem_frame st1 st3.
Proof.
  intros (l1 & H1 & F1) (l2 & H2 & F2). exists (l1 ++ l2).
  split; [by eapply grows_trans | by apply Forall_app].
Qed.

Lemma steps_mem_frame st st' k : steps st st' [] k → mem_frame st st'.
Proof. intros [Hg _ _]. exists []. split; [done | apply Forall_nil_2]. Qed.

Lemma mem_frame_tempvar : preserves mem_frame next_tempvar_name.
Proof.
  intros st r st' H. apply next_tempvar_name_run in H as (_ & Hs & _).
  by eapply steps_mem_frame.
Qed.

Lemma mem_frame_constvar v : preserves mem_frame (next_constvar_name v).
Proof.
  intros st r st' H. apply next_constvar_name_run in H as (_ & Hs & _).
  by eapply steps_mem_frame.
Qed.

Lemma mem_frame_new_oid : preserves mem_frame new_oid.
Proof.
  intros st r st' H. apply new_oid_run in H as (_ & Hs & _).
  by eapply steps_mem_frame.
Qed.

Lemma mem_frame_add_wirevector b w : preserves mem_frame (add_wirevector b w).
Proof.
  intros st r st' H. apply add_wirevector_run in H as (Hs & _).
  by eapply steps_mem_frame.
Qed.

Lemma mem_frame_add_net b net : nonmem net → preserves mem_frame (add_net b net).
Proof.
  intros Hn st r st' H. apply add_net_run in H as (_ & [Hg _ _] & _).
  exists [(b, net)]. split; [done|]. apply Forall_cons_2; [done | apply Forall_nil_2].
Qed.

Lemma mem_frame_const_val f :
  preserves mem_frame (modify (λ st, set_const_val (f st) st)).
Proof.
  intros st r st' [= <- <-]. exists []. split; [|apply Forall_nil_2].
  split; try done. intros b. by rewrite log_at_nil, app_nil_r.
Qed.

Lemma mem_frame_reg_in f :
  preserves mem_frame (modify (λ st, set_reg_in (f st) st)).
Proof.
  intros st r st' [= <- <-]. exists []. split; [|apply Forall_nil_2].
  split; try done. intros b. by rewrite log_at_nil, app_nil_r.
Qed.

(** Every operation on wire vectors and registers, whether it returns or
    raises, leaves the memory blocks and their nets alone. *)
Lemma mem_frame_operations :
  (∀ c bw nm blk, preserves mem_frame (WireVector_init c bw nm blk))
  ∧ (∀ c v bw, preserves mem_frame (Const_init c v bw))
  ∧ (∀ c bw nm, preserves mem_frame (Register_init c bw nm))
  ∧ (∀ w, preserves mem_frame (invert w))
  ∧ (∀ w item, preserves mem_frame (getitem w item))
  ∧ (∀ l, preserves mem_frame (concat l))
  ∧ (∀ w n, preserves mem_frame (extended w n))
  ∧ (∀ w o, preserves mem_frame (ilshift w o))
  ∧ (∀ w o op, preserves mem_frame (logicop w o op))
  ∧ (∀ w, preserves mem_frame (next_get w))
  ∧ (∀ w v, preserves mem_frame (next_set w v))
  ∧ (∀ w v, preserves mem_frame (next_ilshift w v)).
Proof.
  split_and!; intros;
    first [ apply preserves_WireVector_init | apply preserves_Const_init
          | apply preserves_Register_init | apply preserves_invert
          | apply preserves_getitem | apply preserves_concat
          | apply preserves_extended | apply preserves_ilshift
          | apply preserves_logicop | apply preserves__makereg
          | apply preserves_next_set | apply preserves_next_ilshift ];
    first [ exact mem_frame_refl | exact mem_frame_trans
          | exact mem_frame_tempvar | exact mem_frame_constvar
          | exact mem_frame_new_oid | exact mem_frame_add_wirevector
          | exact mem_frame_add_net | exact mem_frame_const_val
          | exact mem_frame_reg_in ].
Qed.

Lemma filter_nonmem id (l : list (nat * LogicNet)) b :
  Forall (λ p, nonmem p.2) l →
  filter (λ n, is_mem_net id n) (log_at b l) = [].
Proof.
  intros H. unfold log_at. induction H as [|[b' n] l Hn _ IH]; [done|].
  rewrite filter_cons. case_decide; [|done]. simpl.
  rewrite filter_cons_False; [done|].
  unfold nonmem in Hn. unfold is_mem_net. simpl in *.
  destruct (op_param n); try done; by intros [].
Qed.

Lemma wf_mem_frame st st' : wf st → mem_frame st st' → wf st'.
Proof.
  intros Hwf (adds & [L _ _ M C] & Hnon). split.
  - intros h m Hm. rewrite M in Hm. intros b. unfold mem_nets.
    rewrite L, filter_app, filter_nonmem, app_nil_r by done.
    apply (wf_ok _ Hwf _ _ Hm).
  - intros h m Hm. rewrite M in Hm. apply (wf_len _ Hwf _ _ Hm).
  - intros h1 h2 m1 m2. rewrite M. apply (wf_inj _ Hwf).
  - intros h m. rewrite M, C. apply (wf_ids _ Hwf).
  - intros b n i r w Hn Hp. rewrite C. rewrite L in Hn.
    apply elem_of_app in Hn as [Hn|Hn]; [by eapply (wf_nets _ Hwf)|].
    exfalso. unfold log_at in Hn. apply list_elem_of_fmap in Hn as ([b' n'] & -> & Hn).
    apply list_elem_of_filter in Hn as [_ Hn].
    rewrite Forall_forall in Hnon. specialize (Hnon _ Hn).
    unfold nonmem in Hnon. simpl in *. by rewrite Hp in Hnon.
Qed.

Lemma filter_mem_none id (l : list LogicNet) :
  (∀ x, x ∈ l → is_mem_net id x = false) → filter (λ n, is_mem_net id n) l = [].
Proof.
  induction l as [|x l IH]; intros H; [done|].
  rewrite filter_cons_False.
  - apply IH. intros y Hy. apply H. by right.
  - rewrite (H x) by left. by intros [].
Qed.

(** Creating a memory block keeps the invariant: the new block has a new
    identity and no net yet. *)
Lemma wf_MemBlock_init bw aw nm blk st r st' :
  wf st → MemBlock_init bw aw nm blk st = (r, st') → wf st'.
Proof.
  intros Hwf H. unfold MemBlock_init in H.
  apply bind_run in H as [(b & st0 & Hb & H)|(e & Hb & _)].
  2:{ destruct blk; unfold working_block, gets, ret, raise in Hb; by simplify_eq. }
  assert (st0 = st) as ->.
  { destruct blk; unfold working_block, gets, ret, raise in Hb; by simplify_eq. }
  destruct (bw <=? 0); [by apply raise_run in H as [_ ->]|].
  destruct (aw <=? 0); [by apply raise_run in H as [_ ->]|].
  apply bind_run in H as [(n & st1 & Hn & H)|(e & Hn & _)].
  2:{ destruct nm; [by apply ret_run in Hn as [? _]|].
      by apply next_tempvar_name_run in Hn as (? & _). }
  assert (wf st1) as Hwf1.
  { destruct nm; [by apply ret_run in Hn as [_ ->]|].
    apply (wf_mem_frame st); [done|]. by eapply mem_frame_tempvar. }
  clear Hn Hwf.
  unfold bind, next_memid, new_oid, modify, ret in H. simpl in H.
  injection H as _ <-. split; simpl.
  - intros h m Hm.
    destruct (decide (h = next_oid st1)) as [->|Hne].
    + rewrite lookup_insert_eq in Hm. injection Hm as <-. intros b'.
      unfold mem_nets. simpl.
      rewrite filter_mem_none; [by case_decide|]. intros x Hx.
      unfold is_mem_net. destruct (op_param x) eqn:Hp; try done.
      apply bool_decide_eq_false. intros ->.
      pose proof (wf_nets _ Hwf1 _ _ _ _ _ Hx Hp). lia.
    + rewrite lookup_insert_ne in Hm by done. apply (wf_ok _ Hwf1 _ _ Hm).
  - intros h m Hm.
    destruct (decide (h = next_oid st1)) as [->|Hne].
    + rewrite lookup_insert_eq in Hm. by injection Hm as <-.
    + rewrite lookup_insert_ne in Hm by done. apply (wf_len _ Hwf1 _ _ Hm).
  - intros h1 h2 m1 m2 H1 H2 E.
    destruct (decide (h1 = next_oid st1)) as [->|Hne1];
      destruct (decide (h2 = next_oid st1)) as [->|Hne2]; try done.
    + rewrite lookup_insert_eq in H1. rewrite lookup_insert_ne in H2 by done.
      injection H1 as <-. simpl in E. pose proof (wf_ids _ Hwf1 _ _ H2). lia.
    + rewrite lookup_insert_eq in H2. rewrite lookup_insert_ne in H1 by done.
      injection H2 as <-. simpl in E. pose proof (wf_ids _ Hwf1 _ _ H1). lia.
    + rewrite lookup_insert_ne in H1, H2 by done. by apply (wf_inj _ Hwf1 _ _ _ _ H1 H2).
  - intros h m Hm.
    destruct (decide (h = next_oid st1)) as [->|Hne].
    + rewrite lookup_insert_eq in Hm. injection Hm as <-. simpl. lia.
    + rewrite lookup_insert_ne in Hm by done. pose proof (wf_ids _ Hwf1 _ _ Hm). lia.
  - intros b' n' i r' w Hn Hp. pose proof (wf_nets _ Hwf1 _ _ _ _ _ Hn Hp). lia.
Qed.

Lemma get_mem_run h st r st' :
  get_mem h st = (r, st') →
  st' = st ∧ match r with
             | Ok m => memblocks st !! h = Some m
             | Raise _ => memblocks st !! h = None
             end.
Proof.
  unfold get_mem. destruct (memblocks st !! h); intros [= <- <-]; done.
Qed.

(** A read access keeps the invariant, whether it returns or raises. *)
Lemma wf_MemBlock_getitem h item st r st' :
  wf st → MemBlock_getitem h item st = (r, st') → wf st'.
Proof.
  intros Hwf H. destruct r as [data|e].
  - destruct item as [item|z]; [|discriminate].
    destruct (memblocks st !! h) as [m|] eqn:Hm.
    + pose proof (MemBlock_getitem_Ok _ _ _ _ _ _ Hwf Hm H) as Hp.
      cbv zeta in Hp. by destruct Hp as (_ & _ & (_ & _ & _ & ?) & _).
    + unfold MemBlock_getitem, bind, get_mem in H. rewrite Hm in H. discriminate.
  - unfold MemBlock_getitem in H. destruct item as [item|z].
    2:{ by apply raise_run in H as [_ ->]. }
    apply bind_run in H as [(m & st0 & Hg & H)|(e' & Hg & _)].
    2:{ by apply get_mem_run in Hg as [-> _]. }
    apply get_mem_run in Hg as [-> Hm].
    apply bind_run in H as [(n & st0 & Hn & H)|(e' & Hn & _)].
    2:{ by apply len_run in Hn as [-> _]. }
    apply len_run in Hn as [-> _].
    destruct (negb (n =? mem_addrwidth m)); [by apply raise_run in H as [_ ->]|].
    apply bind_run in H as [(d & st1 & Hd & H)|(e' & Hd & _)].
    2:{ apply (wf_mem_frame st); [done|].
        by eapply (proj1 mem_frame_operations). }
    exfalso.
    apply WireVector_init_fresh in Hd as (_ & [[L1 _ _ M1 C1] _ _] & _).
    destruct (update_post h m (add_read item d m) st
                (set_memblocks (alter (add_read item d) h (memblocks st1)) st1)
                Hwf Hm)
      as (st3 & Hrun & _); simpl; try done.
    + intros b. change (logic_at st1 b = logic_at st b).
      by rewrite L1, log_at_nil, app_nil_r.
    + rewrite M1. by apply alter_present.
    + apply (wf_len _ Hwf _ _ Hm).
    + apply (wf_len _ Hwf _ _ Hm).
    + rewrite !length_app. simpl. f_equal. apply (wf_len _ Hwf _ _ Hm).
    + unfold bind, upd_mem, modify in H.
      change (λ m0 : MemBlock, mkMem (mem_block m0) (mem_bitwidth m0) (mem_name m0)
                (mem_addrwidth m0) (stored_net m0) (mem_id m0)
                (read_addr m0 ++ [item]) (read_data m0 ++ [d])
                (write_addr m0) (write_data m0) (write_enable m0))
        with (add_read item d) in H.
      rewrite Hrun in H. discriminate.
Qed.

(** A write access keeps the invariant, whether it returns or raises. *)
Lemma wf_MemBlock_setitem h item val st r st' :
  wf st → MemBlock_setitem h item val st = (r, st') → wf st'.
Proof.
  intros Hwf H. destruct r as [[]|e].
  - destruct item as [item|z]; [|discriminate].
    destruct (memblocks st !! h) as [m|] eqn:Hm.
    + pose proof (MemBlock_setitem_Ok _ _ _ _ _ _ Hwf Hm H)
        as (? & ? & ? & _ & _ & _ & _ & Hp).
      cbv zeta in Hp. by destruct Hp as ((_ & _ & _ & ?) & _).
    + unfold MemBlock_setitem, bind, get_mem in H. rewrite Hm in H. discriminate.
  - unfold MemBlock_setitem in H. destruct item as [item|z].
    2:{ by apply raise_run in H as [_ ->]. }
    apply bind_run in H as [(m & st0 & Hg & H)|(e' & Hg & _)].
    2:{ by apply get_mem_run in Hg as [-> _]. }
    apply get_mem_run in Hg as [-> Hm].
    apply bind_run in H as [(n & st0 & Hn & H)|(e' & Hn & _)].
    2:{ by apply len_run in Hn as [-> _]. }
    apply len_run in Hn as [-> _].
    destruct (negb (n =? mem_addrwidth m)); [by apply raise_run in H as [_ ->]|].
    apply bind_run in H as [([data enable] & stc & Hde & H)|(e' & Hde & _)].
    2:{ destruct val.
        - apply bind_run in Hde as [(? & ? & _ & Hde)|(? & Hde & _)];
            [by apply ret_run in Hde as [? _]|].
          apply (wf_mem_frame st); [done|].
          by eapply (proj1 (proj2 mem_frame_operations)).
        - by apply ret_run in Hde as [? _].
        - by apply raise_run in Hde as [_ ->]. }
    assert (mem_frame st stc) as Hfr.
    { destruct val.
      - apply bind_run in Hde as [(? & ? & Hc & Hde)|(? & _ & ?)]; [|done].
        apply ret_run in Hde as [_ ->].
        by eapply (proj1 (proj2 mem_frame_operations)).
      - apply ret_run in Hde as [_ ->]. apply mem_frame_refl.
      - by apply raise_run in Hde as [? _]. }
    clear Hde.
    apply bind_run in H as [(ld & ? & Hld & H)|(e' & Hld & _)].
    2:{ apply len_run in Hld as [-> _]. by apply (wf_mem_frame st). }
    apply len_run in Hld as [-> _].
    destruct (negb (ld =? mem_bitwidth m)).
    { apply raise_run in H as [_ ->]. by apply (wf_mem_frame st). }
    apply bind_run in H as [(le & ? & Hle & H)|(e' & Hle & _)].
    2:{ apply len_run in Hle as [-> _]. by apply (wf_mem_frame st). }
    apply len_run in Hle as [-> _].
    destruct (negb (le =? 1)).
    { apply raise_run in H as [_ ->]. by apply (wf_mem_frame st). }
    exfalso. pose proof (wf_mem_frame _ _ Hwf Hfr) as Hwfc.
    destruct Hfr as (adds & [L _ _ M C] & Hnon).
    rewrite <- M in Hm.
    destruct (update_post h m (add_write item data enable m) stc
                (set_memblocks (alter (add_write item data enable) h (memblocks stc)) stc)
                Hwfc Hm)
      as (st3 & Hrun & _); simpl; try done.
    + by apply alter_present.
    + rewrite !length_app. simpl. f_equal. apply (wf_len _ Hwfc _ _ Hm).
    + rewrite !length_app. simpl. f_equal. apply (wf_len _ Hwfc _ _ Hm).
    + apply (wf_len _ Hwfc _ _ Hm).
    + unfold bind, upd_mem, modify in H.
      change (λ m0 : MemBlock, mkMem (mem_block m0) (mem_bitwidth m0) (mem_name m0)
                (mem_addrwidth m0) (stored_net m0) (mem_id m0)
                (read_addr m0) (read_data m0)
                (write_addr m0 ++ [item]) (write_data m0 ++ [data])
                (write_enable m0 ++ [enable]))
        with (add_write item data enable) in H.
      rewrite Hrun in H. discriminate.
Qed.

Lemma wf_st_mem : wf st_mem.
Proof.
  unfold st_mem.
  destruct ((declare_abs ;; MemBlock_init 8 2 None BNone) initial_state)
    as [r st'] eqn:E. simpl.
  apply bind_run in E as [(? & st1 & H1 & H2)|(e & H1 & _)].
  - eapply wf_MemBlock_init; [|exact H2].
    apply (wf_mem_frame initial_state); [apply wf_initial|].
    assert (preserves mem_frame declare_abs) as Hd; [|by eapply Hd].
    unfold declare_abs.
    repeat (apply preserves_bind;
            first [ exact mem_frame_trans | exact mem_frame_refl
                  | apply (proj1 mem_frame_operations) | intros ? ]).
    apply preserves_ret. exact mem_frame_refl.
  - vm_compute in H1. discriminate.
Qed.

Lemma wf_st_mem1 : wf st_mem1.
Proof.
  unfold st_mem1.
  destruct (MemBlock_getitem 4 (OWire wire_a) st_mem) as [r st'] eqn:E. simpl.
  eapply wf_MemBlock_getitem; [exact wf_st_mem | exact E].
Qed.

(** The sample memory after its first read, which has left the net of one
    read port behind.  A second read [mem[a]] and a write [mem[a] = d] each
    remove that net and leave the net of the longer port lists; the write
    contributes the triple of [a], [d] and the constant 1 built as its
    enable. *)
Lemma C5_memblock_single_net_witness :
  let m1 := mkMem 0 8 "tmp0" 2
              (Some (mkNet (Some "m") (PMem 0 1 0) [wire_a] [wire_d]))
              0 [wire_a] [wire_d] [] [] [] in
  let d2 := mkWire 6 CWireVector 0 "tmp2" (Some 8) in
  let en := mkWire 6 CConst 0 "const0_1" (Some 1) in
  let str := (MemBlock_getitem 4 (OWire wire_a) st_mem1).2 in
  let stw := (MemBlock_setitem 4 (OWire wire_a) (MVWire wire_d) st_mem1).2 in
  (∃ m', mem_post str 4 m' ∧ net_replaced st_mem1 str m1 m'
     ∧ read_addr m' = [wire_a; wire_a] ∧ read_data m' = [wire_d; d2]
     ∧ mem_net_of m'
       = mkNet (Some "m") (PMem 0 2 0) [wire_a; wire_a] [wire_d; d2])
  ∧ (∃ m' stc, Const_init CConst 1 (Some 1) st_mem1 = (Ok en, stc)
     ∧ mem_post stw 4 m' ∧ net_replaced st_mem1 stw m1 m'
     ∧ write_addr m' = [wire_a] ∧ write_data m' = [wire_d]
     ∧ write_enable m' = [en]
     ∧ mem_net_of m'
       = mkNet (Some "m") (PMem 0 1 1) [wire_a; wire_a; wire_d; en] [wire_d])
  ∧ logic_at st_mem1 0 = [mkNet (Some "m") (PMem 0 1 0) [wire_a] [wire_d]]
  ∧ logic_at stw 0
    = [mkNet (Some "m") (PMem 0 1 1) [wire_a; wire_a; wire_d; en] [wire_d]]
  ∧ ∃ st', MemBlock_setitem 4 (OWire wire_a)
             (MVEnable wire_d (mkWire 7 CInput 0 "we" (Some 1))) st_mem1
           = (Ok tt, st').
Proof.
  intros m1 d2 en str stw.
  destruct (C5_memblock_single_net 4%nat m1 st_mem1)
    as (Hread & Hwrite & Hsucc); [exact wf_st_mem1 | by vm_compute |].
  destruct Hsucc as [Hws _]; [simpl; unfold maxint; lia..|].
  split; [|split; [|split; [|split]]];
    [| | | | by apply (Hws wire_a _ wire_d (mkWire 7 CInput 0 "we" (Some 1)) st_mem1)].
  - destruct (Hread wire_a d2 str) as (m' & ? & ? & ? & ? & ?); [by vm_compute|].
    by exists m'.
  - destruct (Hwrite wire_a (MVWire wire_d) stw)
      as (m' & data & enable & stc & Hval & ? & ? & ? & Hd & He & Hnet);
      [by vm_compute|].
    destruct Hval as [-> Hc].
    assert (enable = en) as ->.
    { apply Const_init_Ok in Hc as (-> & _). by vm_compute. }
    by exists m', stc.
  - by vm_compute.
  - by vm_compute.
Defined.

(** In the sample design the first read leaves one memory net, with the
    address wire as its only input and the data wire as its only output. *)
Lemma first_read_netlist :
  logic_at (MemBlock_getitem 4 (OWire wire_a) st_mem).2 0
  = [mkNet (Some "m") (PMem 0 1 0) [wire_a] [wire_d]].
Proof. by vm_compute. Qed.

(** * Further properties of the module *)

(** ** Selecting bits *)

Lemma omap_fmap_on {A B} (f : A → option B) (g : A → B) (l : list A) :
  (∀ x, x ∈ l → f x = Some (g x)) → omap f l = g <$> l.
Proof.
  induction l as [|x l IH]; intros Hf; [done|]. simpl.
  rewrite (Hf x) by left. f_equal. apply IH. intros y Hy. apply Hf. by right.
Qed.

Lemma omap_lookup_seqZ_from (bw a n : Z) :
  0 ≤ a → a + n ≤ bw →
  omap (λ k, seqZ 0 bw !! Z.to_nat (a + k * 1)) (seqZ 0 n) = seqZ a n.
Proof.
  intros Ha Hn. rewrite (omap_fmap_on _ (Z.add a)).
  - rewrite fmap_add_seqZ. by rewrite Z.add_0_r.
  - intros x Hx. apply elem_of_seqZ in Hx.
    rewrite lookup_seqZ_lt by lia. f_equal. lia.
Qed.

Lemma slice_clip_bounds v k : 0 ≤ k → 0 ≤ slice_clip v 1 k ≤ k.
Proof.
  intros Hk. unfold slice_clip.
  repeat match goal with
  | |- context [Z.ltb ?a ?b] => destruct (Z.ltb_spec a b)
  | |- context [Z.leb ?a ?b] => destruct (Z.leb_spec a b)
  end; lia.
Qed.

Lemma slice_bounds start stop k :
  0 ≤ k → 0 ≤ slice_lo start k ≤ k ∧ 0 ≤ slice_hi stop k ≤ k.
Proof.
  intros Hk. unfold slice_lo, slice_hi.
  destruct start, stop; repeat split; try lia; by apply slice_clip_bounds.
Qed.

(** A slice without a step selects the contiguous positions between its
    clipped bounds, in increasing order. *)
Lemma selectednums_slice k start stop :
  0 ≤ k →
  selectednums (seqZ 0 k) (ISlice start stop None)
  = Ok (seqZ (slice_lo start k) (slice_hi stop k - slice_lo start k)).
Proof.
  intros Hk. destruct (slice_bounds start stop k Hk) as [Hlo Hhi].
  unfold selectednums, list_getslice. simpl.
  rewrite length_seqZ, Z2Nat.id by lia.
  change (match start with Some v => slice_clip v 1 k | None => 0 end)
    with (slice_lo start k).
  change (match stop with Some v => slice_clip v 1 k | None => k end)
    with (slice_hi stop k).
  destruct (Z.leb_spec (slice_hi stop k) (slice_lo start k)) as [Hle|Hlt]; simpl.
  - by rewrite (seqZ_nil _ (_ - _)) by lia.
  - rewrite Z.div_1_r.
    replace (slice_hi stop k - slice_lo start k - 1 + 1)
      with (slice_hi stop k - slice_lo start k) by lia.
    by rewrite omap_lookup_seqZ_from by lia.
Qed.

(** A wire of width 0 is refused, and only the counter of temporary names
    has moved. *)
Lemma WireVector_init_zero_width st :
  ∃ msg, WireVector_init CWireVector (Some 0) None BNone st
         = (Raise (PyrtlError msg), set_tempvar_count (S (tempvar_count st)) st).
Proof.
  unfold WireVector_init, bind, working_block, gets, next_tempvar_name.
  rewrite bool_decide_false by apply tmp_name_not_clock. simpl. eauto.
Qed.

(** A select whose positions are defined succeeds when the wire for its
    result can be built. *)
Lemma getitem_succeeds self k item sel st :
  bitwidth self = Some k → selectednums (seqZ 0 k) item = Ok sel →
  0 < Z.of_nat (length sel) ≤ maxint → name_free (name_of None st) st →
  ∃ w st', getitem self item st = (Ok w, st').
Proof.
  intros Hk Hsel Hlen Hfree. unfold getitem. rewrite Hk.
  destruct (WireVector_init_tmp _ st Hlen Hfree) as (w & st1 & E).
  unfold bind, lift. rewrite Hsel, E. unfold add_net, ret. eauto.
Qed.

Lemma selectednums_index k i :
  -k ≤ i < k →
  selectednums (seqZ 0 k) (IInt i) = Ok [if i <? 0 then i + k else i].
Proof.
  intros Hi. unfold selectednums, list_getitem.
  rewrite length_seqZ, Z2Nat.id by lia.
  destruct (Z.ltb_spec i 0).
  - destruct (Z.ltb_spec (i + k) 0); [lia|].
    destruct (Z.leb_spec k (i + k)); [lia|]. simpl.
    rewrite lookup_seqZ_lt by lia. simpl.
    replace (Z.of_nat (Z.to_nat (i + k))) with (i + k) by lia. done.
  - destruct (Z.ltb_spec i 0); [lia|].
    destruct (Z.leb_spec k i); [lia|]. simpl.
    rewrite lookup_seqZ_lt by lia. simpl.
    replace (Z.of_nat (Z.to_nat i)) with i by lia. done.
Qed.

(** Subscripting a [k]-bit wire, [k] an [int], with an integer.  With an
    index [i] such that [-k <= i < k], and the next temporary name free,
    the call returns a new 1-bit wire and has appended exactly one select
    net, which names the single position [i], counted from the most
    significant end when [i] is negative.  Any other index raises
    [IndexError] before anything is built. *)
Theorem getitem_index self k i st :
  bitwidth self = Some k → k ≤ maxint →
  (-k ≤ i < k → name_free (name_of None st) st →
     ∃ w st', getitem self (IInt i) st = (Ok w, st')
       ∧ fresh_wire st 0 w 1
       ∧ steps st st'
           [(block self, select_net [if i <? 0 then i + k else i] self w)] 1)
  ∧ (i < -k ∨ k ≤ i → getitem self (IInt i) st = (Raise IndexError, st)).
Proof.
  intros Hk _. split.
  - intros Hi Hfree. pose proof (selectednums_index k i Hi) as Hsel.
    destruct (getitem_succeeds self k (IInt i) _ st Hk Hsel) as (w & st' & H);
      [simpl; unfold maxint; lia | done |].
    exists w, st'. split; [done|].
    apply getitem_Ok in H as (k' & sel & Hk' & Hsel' & Hf & Hs).
    assert (k' = k) as -> by congruence. rewrite Hsel in Hsel'.
    injection Hsel' as <-. done.
  - intros Hi. unfold getitem. rewrite Hk. unfold bind, lift.
    assert (selectednums (seqZ 0 k) (IInt i) = Raise IndexError) as ->; [|done].
    unfold selectednums, list_getitem. rewrite length_seqZ.
    destruct (Z.ltb_spec i 0).
    + destruct (Z.ltb_spec (i + Z.of_nat (Z.to_nat k)) 0); [reflexivity|].
      exfalso. lia.
    + destruct (Z.ltb_spec i 0); [lia|].
      destruct (Z.leb_spec (Z.of_nat (Z.to_nat k)) i); [reflexivity|].
      exfalso. lia.
Qed.

(** [b[-1]] is the new wire [tmp0] with a select net over position 2, and
    [b[3]] is out of range. *)
Lemma getitem_index_witness :
  (∃ w st', getitem wire_b (IInt (-1)) st_abs = (Ok w, st')
     ∧ fresh_wire st_abs 0 w 1
     ∧ steps st_abs st'
         [(block wire_b, select_net [if -1 <? 0 then -1 + 3 else -1] wire_b w)] 1)
  ∧ getitem wire_b (IInt 3) st_abs = (Raise IndexError, st_abs).
Proof.
  split.
  - apply (getitem_index wire_b 3 (-1) st_abs);
      [reflexivity | unfold maxint; lia | lia | reflexivity].
  - apply (getitem_index wire_b 3 3 st_abs);
      [reflexivity | unfold maxint; lia | lia].
Defined.

(** Whatever the subscript, a select that succeeds names only positions of
    its input wire, at least one of them, and its output is as wide as the
    number of positions named. *)
Theorem getitem_positions_valid self item st w st' :
  getitem self item st = (Ok w, st') →
  ∃ k sel, bitwidth self = Some k
    ∧ steps st st' [(block self, select_net sel self w)] 1
    ∧ (∀ p, p ∈ sel → 0 ≤ p < k)
    ∧ sel ≠ []
    ∧ bitwidth w = Some (Z.of_nat (length sel)).
Proof.
  intros H. pose proof H as H0.
  apply getitem_Ok in H as (k & sel & Hk & Hsel & Hf & Hs).
  exists k, sel. split_and!; try done.
  - intros p Hp. cut (p ∈ seqZ 0 k); [intros Hin; apply elem_of_seqZ in Hin; lia|].
    destruct item as [i|start stop step]; simpl in Hsel.
    + destruct (list_getitem (seqZ 0 k) i) as [x|] eqn:E; [|discriminate].
      simplify_eq. apply list_elem_of_singleton in Hp as ->.
      unfold list_getitem in E.
      destruct ((_ <? 0) || _); [discriminate|].
      destruct (seqZ 0 k !! _) eqn:El; [|discriminate]. simplify_eq.
      by eapply list_elem_of_lookup_2.
    + unfold list_getslice in Hsel. destruct (_ =? 0); [discriminate|].
      simplify_eq. apply list_elem_of_omap in Hp as (idx & _ & Hl).
      by eapply list_elem_of_lookup_2.
  - intros ->. unfold getitem in H0. rewrite Hk in H0.
    unfold bind, lift in H0. rewrite Hsel in H0.
    destruct (WireVector_init_zero_width st) as [msg E].
    change (Z.of_nat (length (@nil Z))) with 0 in H0. rewrite E in H0.
    discriminate.
  - apply Hf.
Qed.

Lemma getitem_positions_valid_witness :
  ∃ k sel, bitwidth wire_b = Some k
    ∧ steps st_abs (getitem wire_b (ISlice (Some 1) None None) st_abs).2
        [(block wire_b,
          select_net sel wire_b (mkWire 4 CWireVector 0 "tmp0" (Some 2)))] 1
    ∧ (∀ p, p ∈ sel → 0 ≤ p < k)
    ∧ sel ≠ []
    ∧ bitwidth (mkWire 4 CWireVector 0 "tmp0" (Some 2))
      = Some (Z.of_nat (length sel)).
Proof.
  apply (getitem_positions_valid wire_b (ISlice (Some 1) None None) st_abs).
  by vm_compute.
Defined.

(** Slicing a [k]-bit wire without a step.  With the bounds clipped as the
    interpreter clips them (negative bounds count from the top, bounds
    beyond the ends are cut), a slice whose start lies below its stop, taken
    when the next temporary name is free, returns a new wire of stop -
    start bits and has appended exactly one select net, which names the
    positions from start to stop - 1 in increasing order.  A slice whose
    start does not lie below its stop selects nothing: the call raises the
    error of a wire without bits and appends no net. *)
Theorem getitem_slice self k start stop st :
  bitwidth self = Some k → 0 ≤ k ≤ maxint →
  let a := slice_lo start k in
  let b := slice_hi stop k in
  (a < b → name_free (name_of None st) st →
     ∃ w st', getitem self (ISlice start stop None) st = (Ok w, st')
       ∧ fresh_wire st 0 w (b - a)
       ∧ steps st st' [(block self, select_net (seqZ a (b - a)) self w)] 1)
  ∧ (b ≤ a → ∃ msg,
       getitem self (ISlice start stop None) st
       = (Raise (PyrtlError msg), set_tempvar_count (S (tempvar_count st)) st)).
Proof.
  intros Hk [Hpos Hmax] a b.
  destruct (slice_bounds start stop k Hpos) as [Hlo Hhi]. fold a b in Hlo, Hhi.
  split.
  - intros Hab Hfree.
    pose proof (selectednums_slice k start stop Hpos) as Hsel. fold a b in Hsel.
    destruct (getitem_succeeds self k _ _ st Hk Hsel) as (w & st' & H);
      [rewrite length_seqZ, Z2Nat.id by lia; lia | done |].
    exists w, st'. split; [done|].
    apply getitem_Ok in H as (k' & sel & Hk' & Hsel' & Hf & Hs).
    assert (k' = k) as -> by congruence. rewrite Hsel in Hsel'.
    injection Hsel' as <-.
    rewrite length_seqZ, Z2Nat.id in Hf by lia. done.
  - intros Hab. unfold getitem. rewrite Hk. unfold bind, lift.
    rewrite selectednums_slice by done. fold a b.
    rewrite seqZ_nil by lia.
    destruct (WireVector_init_zero_width st) as [msg E].
    change (Z.of_nat (length (@nil Z))) with 0. rewrite E. eauto.
Qed.

(** [b[1:]] is a new 2-bit wire over the positions 1 and 2, and [b[2:1]]
    selects nothing and is refused. *)
Lemma getitem_slice_witness :
  (∃ w st', getitem wire_b (ISlice (Some 1) None None) st_abs = (Ok w, st')
     ∧ fresh_wire st_abs 0 w (slice_hi None 3 - slice_lo (Some 1) 3)
     ∧ steps st_abs st'
         [(block wire_b,
           select_net (seqZ (slice_lo (Some 1) 3)
                            (slice_hi None 3 - slice_lo (Some 1) 3)) wire_b w)] 1)
  ∧ (∃ msg,
       getitem wire_b (ISlice (Some 2) (Some 1) None) st_abs
       = (Raise (PyrtlError msg),
          set_tempvar_count (S (tempvar_count st_abs)) st_abs)).
Proof.
  split.
  - apply (getitem_slice wire_b 3 (Some 1) None st_abs);
      [reflexivity | unfold maxint; lia | vm_compute; reflexivity | reflexivity].
  - apply (getitem_slice wire_b 3 (Some 2) (Some 1) st_abs);
      [reflexivity | unfold maxint; lia | vm_compute; discriminate].
Defined.

(** ** Concatenation and complement *)

Lemma mapM_len_unsized l st :
  (∃ x, x ∈ l ∧ bitwidth x = None) → mapM len l st = (Raise TypeError, st).
Proof.
  induction l as [|y l IH]; intros (x & Hx & Hnone).
  - by apply elem_of_nil in Hx.
  - simpl. unfold bind, len at 1. destruct (bitwidth y) as [n|] eqn:Hy; [|done].
    simpl. apply elem_of_cons in Hx as [->|Hx]; [congruence|].
    rewrite IH by eauto. done.
Qed.

(** [concat] of no wire raises [PyrtlError]; of two or more wires of known
    widths, a successful call gives a new wire as wide as the widths added
    up and appends one net that lists the arguments in the order given;
    and when one of two or more arguments has no width the call raises
    [TypeError] before anything is built. *)
Theorem concat_contract st :
  concat [] st = (Raise (PyrtlError EmptyString), st)
  ∧ (∀ a b l w st', concat (a :: b :: l) st = (Ok w, st') →
       ∃ widths, bitwidth <$> (a :: b :: l) = Some <$> widths
         ∧ bitwidth w = Some (foldr Z.add 0 widths)
         ∧ steps st st'
             [(_singleton_block st, mkNet (Some "c") PNone (a :: b :: l) [w])] 1)
  ∧ (∀ a b l, (∃ x, x ∈ a :: b :: l ∧ bitwidth x = None) →
       concat (a :: b :: l) st = (Raise TypeError, st)).
Proof.
  split_and!.
  - done.
  - intros a b l w st' H. apply concat_Ok in H as (widths & Hw & Hf & Hs).
    exists widths. split_and!; try done. apply Hf.
  - intros a b l Hx. unfold concat, bind. by rewrite mapM_len_unsized.
Qed.

(** The complement of a wire is a new wire of the same width, made by one
    net; the complement of a wire without width raises [TypeError] before
    anything is built. *)
Theorem invert_contract self st :
  (∀ w st', invert self st = (Ok w, st') →
     bitwidth w = bitwidth self
     ∧ (next_oid st ≤ oid w)%nat
     ∧ steps st st' [(block self, mkNet (Some "~") PNone [self] [w])] 1)
  ∧ (bitwidth self = None → invert self st = (Raise TypeError, st)).
Proof.
  split.
  - intros w st' H. apply invert_Ok in H as (n & Hn & Hf & Hs).
    split_and!; [|by eapply fresh_wire_new|done].
    rewrite Hn. apply Hf.
  - intros Hnone. unfold invert, bind, len. by rewrite Hnone.
Qed.

(** ** Wires without a width *)

(** A wire constructed without a bit width cannot be operated on: select
    and sign extension fail their assertion, the two-operand operators and
    the extension helper raise [TypeError], and connecting to it raises
    [PyrtlError].  With a wire as the other operand nothing has been built
    when the exception leaves and the state is as before.  With an integer
    as the other operand the constant made of it is built first: the same
    exception leaves in the state that the construction of the constant
    has reached, with the constant registered; this is also what zero
    extension does with its constant 0. *)
Theorem unsized_wire_operations self st :
  bitwidth self = None →
  (∀ item, getitem self item st = (Raise AssertionError, st))
  ∧ (∀ n, sign_extended self n st = (Raise AssertionError, st))
  ∧ (∀ n e, _extend_with_bit self n e st = (Raise TypeError, st))
  ∧ (∀ b op, logicop self (OWire b) op st = (Raise TypeError, st))
  ∧ (∀ b op n, bitwidth b = Some n →
       logicop b (OWire self) op st = (Raise TypeError, st))
  ∧ (assign_forbidden (cls self) = false →
       ∀ src, ilshift self (OWire src) st = (Raise (PyrtlError EmptyString), st))
  ∧ (∀ z op c stc, Const_init CConst z None st = (Ok c, stc) →
       logicop self (OInt z) op st = (Raise TypeError, stc)
       ∧ wirevector_by_name (get_block (block c) stc) !! name c = Some c)
  ∧ (assign_forbidden (cls self) = false →
       ∀ z c stc, Const_init CConst z None st = (Ok c, stc) →
         ilshift self (OInt z) st = (Raise (PyrtlError EmptyString), stc)
         ∧ wirevector_by_name (get_block (block c) stc) !! name c = Some c)
  ∧ (∀ n c stc, Const_init CConst 0 (Some 1) st = (Ok c, stc) →
       zero_extended self n st = (Raise TypeError, stc)).
Proof.
  intros Hnone.
  assert (∀ z bw c stc, Const_init CConst z bw st = (Ok c, stc) →
            wirevector_by_name (get_block (block c) stc) !! name c = Some c)
    as Hreg.
  { intros z bw c stc H. unfold Const_init in H.
    apply bind_Ok in H as (n & st1 & Hn & H).
    destruct (is_int z).
    2:{ destruct bw as [b|]; [|discriminate]. destruct (is_int b); discriminate. }
    destruct (match bw with Some _ => _ | None => _ end) as [width|];
      [|discriminate].
    destruct (negb (is_int width)); [discriminate|].
    destruct (z <? 0); [discriminate|]. destruct (_ <? 0); [discriminate|].
    destruct (negb _); [discriminate|].
    apply bind_Ok in H as (k & st2 & Hk & H).
    apply WireVector_init_Ok in Hk as (_ & _ & _ & _ & _ & Hk).
    unfold bind, modify, ret in H. injection H as <- <-. exact Hk. }
  split_and!.
  - intros item. unfold getitem. by rewrite Hnone.
  - intros n. unfold sign_extended, bind, getitem. by rewrite Hnone.
  - intros n e. unfold _extend_with_bit. by rewrite Hnone.
  - intros b op. unfold logicop, bind, ret, len. by rewrite Hnone.
  - intros b op n Hb. unfold logicop, bind, ret, len. by rewrite Hb, Hnone.
  - intros Hcls src. unfold ilshift, WireVector_ilshift, bind, ret.
    destruct (cls self); try discriminate; by rewrite Hnone.
  - intros z op c stc Hc. split; [|by eapply Hreg].
    unfold logicop, bind. rewrite Hc. unfold len. by rewrite Hnone.
  - intros Hcls z c stc Hc. split; [|by eapply Hreg].
    unfold ilshift, WireVector_ilshift, bind.
    destruct (cls self); try discriminate; by rewrite Hc, Hnone.
  - intros n c stc Hc. unfold zero_extended, bind. rewrite Hc.
    unfold _extend_with_bit. by rewrite Hnone.
Qed.

(** A wire [u] without a width, taken after the three sample wires: [u & b]
    leaves the state alone, [u & 5] leaves the constant 5 behind. *)
Lemma unsized_wire_operations_witness :
  logicop (mkWire 9 CWireVector 0 "u" None) (OWire wire_b) "&" st_abs
  = (Raise TypeError, st_abs)
  ∧ logicop (mkWire 9 CWireVector 0 "u" None) (OInt 5) "&" st_abs
    = (Raise TypeError, (Const_init CConst 5 None st_abs).2)
  ∧ wirevector_by_name (get_block 0 (Const_init CConst 5 None st_abs).2)
      !! "const0_5" = Some (mkWire 4 CConst 0 "const0_5" (Some 3))
  ∧ ilshift (mkWire 9 CWireVector 0 "u" None) (OInt 5) st_abs
    = (Raise (PyrtlError EmptyString), (Const_init CConst 5 None st_abs).2).
Proof.
  destruct (unsized_wire_operations (mkWire 9 CWireVector 0 "u" None) st_abs
              eq_refl) as (_ & _ & _ & H4 & _ & _ & H7 & H8 & _).
  split; [apply H4|].
  destruct (H7 5 "&" (mkWire 4 CConst 0 "const0_5" (Some 3))
              (Const_init CConst 5 None st_abs).2) as [Hl Hr];
    [by vm_compute|].
  split; [exact Hl|]. split; [exact Hr|].
  apply (H8 eq_refl 5 (mkWire 4 CConst 0 "const0_5" (Some 3))
           (Const_init CConst 5 None st_abs).2).
  by vm_compute.
Defined.

(** ** Constructors *)

(** What a constructor needs of the name it is given. *)
Lemma WireVector_init_Ok_free c bw nm blk st w st' :
  WireVector_init c bw nm blk st = (Ok w, st') →
  wirevector_by_name (get_block (block_of blk st) st) !! name_of nm st = None.
Proof.
  unfold WireVector_init. intros H.
  apply bind_Ok in H as (b & st1 & Hb & H).
  assert (b = block_of blk st ∧ st1 = st) as [-> ->].
  { destruct blk; simpl in *; unfold working_block, gets, ret, raise in *;
      by simplify_eq. }
  apply bind_Ok in H as (n & st1 & Hn & H).
  assert (n = name_of nm st ∧ blocks st1 = blocks st) as [-> Hb1].
  { destruct nm; simpl in *.
    - by apply ret_run in Hn as [[= <-] ->].
    - unfold next_tempvar_name in Hn. by simplify_eq. }
  destruct (bool_decide _); [discriminate|].
  apply bind_Ok in H as ([] & st2 & Hbw & H).
  assert (st2 = st1) as ->.
  { destruct bw as [k|]; simpl in *.
    - destruct (is_int k); [|discriminate]. simpl in Hbw.
      destruct (k <=? 0); [discriminate|]. by apply ret_run in Hbw as [_ ->].
    - by apply ret_run in Hbw as [_ ->]. }
  apply bind_Ok in H as (o & st2 & Ho & H). unfold new_oid in Ho. simplify_eq.
  apply bind_Ok in H as ([] & st3 & Hadd & H).
  apply add_wirevector_run in Hadd as (_ & _ & _ & Hw).
  destruct (Hw eq_refl) as [Hfree _]. simpl in Hfree.
  unfold get_block in *. simpl in Hfree. by rewrite Hb1 in Hfree.
Qed.

(** A width the constructor accepts is a positive [int]. *)
Lemma WireVector_init_Ok_int c k nm blk st w st' :
  WireVector_init c (Some k) nm blk st = (Ok w, st') → 0 < k ≤ maxint.
Proof.
  unfold WireVector_init. intros H.
  apply bind_Ok in H as (b & st1 & _ & H).
  apply bind_Ok in H as (n & st2 & _ & H).
  destruct (bool_decide _); [discriminate|].
  apply bind_Ok in H as ([] & st3 & Hbw & _).
  destruct (is_int k) eqn:Hk; [|discriminate]. simpl in Hbw.
  apply is_int_spec in Hk.
  destruct (Z.leb_spec k 0); [discriminate|]. lia.
Qed.

(** With an explicit name in the working block the constructor succeeds
    as soon as the name is usable and the width, if given, is a positive
    [int]. *)
Lemma WireVector_init_named c bw n st :
  lower n ∉ clock_names → (∀ k, bw = Some k → 0 < k ≤ maxint) →
  name_free n st →
  ∃ w st', WireVector_init c bw (Some n) BNone st = (Ok w, st')
    ∧ block w = _singleton_block st ∧ name w = n.
Proof.
  intros Hclk Hpos Hfree.
  unfold WireVector_init, bind, working_block, gets, ret.
  rewrite bool_decide_false by done.
  assert (match bw with
          | Some k =>
              if negb (is_int k) then @raise unit (PyrtlError
                ("error attempting to create wirevector with bitwidth of type "
                 +:+ dq +:+ "<type 'long'>" +:+ dq +:+ " instead of integer"))
              else if k <=? 0 then raise (PyrtlError
                (("error attempting to create wirevector with bitwidth of length "
                  +:+ dq +:+ pretty k +:+ dq +:+ ", all bitwidths must be > 0")))
              else λ st, (Ok (), st)
          | None => λ st, (Ok (), st)
          end st = (Ok (), st)) as ->.
  { destruct bw as [k|]; [|done]. specialize (Hpos k eq_refl).
    rewrite is_int_true by (unfold maxint in *; lia). simpl.
    destruct (Z.leb_spec k 0); [lia|done]. }
  unfold new_oid, add_wirevector. simpl.
  unfold name_free, get_block in Hfree. unfold get_block. simpl.
  rewrite Hfree. eauto.
Qed.

(** Constructing a wire vector under an explicit name in the working block
    succeeds exactly when the name is not a clock name, the bit width, if
    given, is a positive [int], and the name is not taken in the working
    block. *)
Theorem WireVector_init_iff c bw n st :
  (∃ w st', WireVector_init c bw (Some n) BNone st = (Ok w, st'))
  ↔ (lower n ∉ clock_names) ∧ (∀ k, bw = Some k → 0 < k ≤ maxint)
    ∧ name_free n st.
Proof.
  split.
  - intros (w & st' & H). pose proof H as H0. pose proof H as H1.
    apply WireVector_init_Ok in H as (-> & _ & _ & _ & Hclk & _).
    apply WireVector_init_Ok_free in H0. split_and!; try done.
    intros k ->. by apply WireVector_init_Ok_int in H1.
  - intros (Hclk & Hpos & Hfree).
    destruct (WireVector_init_named c bw n st) as (w & st' & H & _); eauto.
Qed.

(** A width that is not a positive [int] is refused, and with an explicit
    name the state is left as it was: an [int] that is not positive with a
    message that quotes it, a [long] with a message that names its type. *)
Theorem WireVector_init_nonpositive c k n blk st :
  lower n ∉ clock_names → blk ≠ BOther →
  (- maxint - 1 ≤ k ≤ 0 →
     ∃ pre post,
       WireVector_init c (Some k) (Some n) blk st
       = (Raise (PyrtlError (pre +:+ pretty k +:+ post)), st))
  ∧ (k < - maxint - 1 ∨ maxint < k →
     ∃ pre post,
       WireVector_init c (Some k) (Some n) blk st
       = (Raise (PyrtlError (pre +:+ "<type 'long'>" +:+ post)), st)).
Proof.
  intros Hclk Hblk. split.
  - intros Hk.
    exists ("error attempting to create wirevector with bitwidth of length " +:+ dq),
           (dq +:+ ", all bitwidths must be > 0").
    unfold WireVector_init, bind, working_block, gets, ret.
    destruct blk; try done; simpl; rewrite bool_decide_false by done;
      rewrite is_int_true by (unfold maxint in *; lia); simpl;
      destruct (Z.leb_spec k 0); try lia; reflexivity.
  - intros Hk.
    exists ("error attempting to create wirevector with bitwidth of type " +:+ dq),
           (dq +:+ " instead of integer").
    unfold WireVector_init, bind, working_block, gets, ret.
    destruct blk; try done; simpl; rewrite bool_decide_false by done;
      rewrite is_int_false by lia; reflexivity.
Qed.

Lemma WireVector_init_nonpositive_witness :
  (∃ pre post,
     WireVector_init CInput (Some (-3)) (Some "x") BNone st_abs
     = (Raise (PyrtlError (pre +:+ pretty (-3) +:+ post)), st_abs))
  ∧ (∃ pre post,
     WireVector_init CInput (Some (2 ^ 63)) (Some "x") BNone st_abs
     = (Raise (PyrtlError (pre +:+ "<type 'long'>" +:+ post)), st_abs)).
Proof.
  split.
  - apply (WireVector_init_nonpositive CInput (-3) "x" BNone st_abs);
      [ apply (bool_decide_unpack _); reflexivity | done | unfold maxint; lia ].
  - apply (WireVector_init_nonpositive CInput (2 ^ 63) "x" BNone st_abs);
      [ apply (bool_decide_unpack _); reflexivity | done | unfold maxint; lia ].
Defined.

Lemma registers_nothing_refl st : registers_nothing st st.
Proof. done. Qed.

Lemma WireVector_init_Raise c bw nm blk st e st' :
  WireVector_init c bw nm blk st = (Raise e, st') →
  registers_nothing st st' ∧ ∃ msg, e = PyrtlError msg.
Proof.
  unfold WireVector_init, bind, working_block, gets, ret, raise,
    next_tempvar_name, new_oid, add_wirevector.
  intros H. destruct blk, nm, bw as [k|]; simpl in H;
    repeat (match type of H with
    | context [bool_decide ?P] => destruct (bool_decide P)
    | context [is_int ?a] => destruct (is_int a)
    | context [Z.leb ?a ?b] => destruct (Z.leb a b)
    | context [wirevector_by_name ?b !! ?n] =>
        destruct (wirevector_by_name b !! n)
    end; simpl in H); simplify_eq; split; by eauto.
Qed.

Ltac raised_PyrtlError H :=
  let He := fresh "He" in
  apply raise_run in H as [He ->]; injection He as ->;
  split; [done | left; eauto].

(** What a failed construction of a constant has raised: a [PyrtlError], or
    [UnboundLocalError] for a value that is a [long]. *)
Lemma Const_init_Raise_kind c v bw st e st' :
  Const_init c v bw st = (Raise e, st') →
  registers_nothing st st'
  ∧ ((∃ msg, e = PyrtlError msg)
     ∨ (e = UnboundLocalError ∧ (v < - maxint - 1 ∨ maxint < v))).
Proof.
  intros H. unfold Const_init in H.
  apply bind_run in H as [(n & st1 & Hn & H)|(e' & Hn & _)];
    [|by apply next_constvar_name_run in Hn as (? & _)].
  unfold next_constvar_name in Hn. simplify_eq.
  destruct (is_int v) eqn:Hv.
  - destruct (match bw with Some _ => _ | None => _ end) as [width|];
      [|raised_PyrtlError H].
    destruct (negb (is_int width)); [raised_PyrtlError H|].
    destruct (v <? 0); [raised_PyrtlError H|].
    destruct (width <? 0); [raised_PyrtlError H|].
    destruct (negb _); [raised_PyrtlError H|].
    apply bind_run in H as [(w & st1 & Hw & H)|(e' & Hw & [= <-])].
    + unfold bind, modify, ret in H. discriminate.
    + apply WireVector_init_Raise in Hw as [? ?]. split; [done|]. by left.
  - destruct bw as [width|]; [|raised_PyrtlError H].
    destruct (negb (is_int width)); [raised_PyrtlError H|].
    apply raise_run in H as [He ->]. injection He as ->. split; [done|].
    right. split; [done|].
    assert (¬ (- maxint - 1 ≤ v ≤ maxint)) as Hn.
    { intros Hr. apply is_int_spec in Hr. congruence. }
    lia.
Qed.

(** A constructor of wire vectors, constants or registers that raises has
    registered nothing: the blocks, the register bindings, the recorded
    constant values and the memory blocks are those of before the call.
    What it raised is a [PyrtlError], except that the constructor of
    constants raises [UnboundLocalError] for some values that are
    [long]. *)
Theorem constructor_failure_registers_nothing st e st' :
  (∀ c bw nm blk, WireVector_init c bw nm blk st = (Raise e, st') →
     registers_nothing st st' ∧ ∃ msg, e = PyrtlError msg)
  ∧ (∀ c v bw, Const_init c v bw st = (Raise e, st') →
     registers_nothing st st'
     ∧ ((∃ msg, e = PyrtlError msg)
        ∨ (e = UnboundLocalError ∧ (v < - maxint - 1 ∨ maxint < v))))
  ∧ (∀ c bw nm, Register_init c bw nm st = (Raise e, st') →
     registers_nothing st st' ∧ ∃ msg, e = PyrtlError msg).
Proof.
  split_and!.
  - intros c bw nm blk. apply WireVector_init_Raise.
  - intros c v bw. apply Const_init_Raise_kind.
  - intros c bw nm H. unfold Register_init in H.
    apply bind_run in H as [(w & st1 & Hw & H)|(e' & Hw & [= <-])].
    + unfold bind, modify, ret in H. discriminate.
    + by apply WireVector_init_Raise in Hw.
Qed.

(** A run of the constructor of constants that returns was given an [int]
    that is not negative, and a width, given or inferred, that is a
    positive [int]. *)
Lemma Const_init_Ok_int c v bw st w st' :
  Const_init c v bw st = (Ok w, st') →
  0 ≤ v ≤ maxint ∧ 0 < default (inferred_width v) bw ≤ maxint.
Proof.
  intros H. pose proof H as H0.
  apply Const_init_Ok in H0 as (_ & _ & _ & Hv & Hw). cbv zeta in *.
  unfold Const_init in H.
  apply bind_Ok in H as (n & st1 & Hn & H).
  destruct (is_int v) eqn:Hi.
  2:{ destruct bw as [b|]; [|discriminate]. destruct (is_int b); discriminate. }
  apply is_int_spec in Hi. split; [lia|].
  fold (inferred_width v) in H.
  replace (match bw with Some bw0 => Some bw0 | None => Some (inferred_width v) end)
    with (Some (default (inferred_width v) bw)) in H by (by destruct bw).
  destruct (is_int (default (inferred_width v) bw)) eqn:Hiw; [|discriminate].
  apply is_int_spec in Hiw. lia.
Qed.

(** Constructing a constant from an integer succeeds exactly when the value
    is an [int] that is not negative, the width (given, or inferred from
    the value) is a positive [int] and holds the value, and the name
    allocated for the constant is not taken in the working block. *)
Theorem Const_init_iff c v bw st :
  (∃ k st', Const_init c v bw st = (Ok k, st'))
  ↔ 0 ≤ v ≤ maxint ∧ 0 < default (inferred_width v) bw ≤ maxint
    ∧ v < 2 ^ default (inferred_width v) bw
    ∧ name_free (const_name v st) st.
Proof.
  split.
  - intros (k & st' & H). pose proof H as H0. pose proof H as H1.
    apply Const_init_Ok in H as (_ & _ & _ & Hv & Hw).
    apply Const_init_Ok_int in H1 as [Hvi Hwi].
    split_and!; try done; try lia.
    unfold Const_init in H0.
    apply bind_Ok in H0 as (n & st1 & Hn & H0).
    unfold next_constvar_name in Hn. simplify_eq.
    destruct (is_int v).
    2:{ destruct bw as [b|]; [|discriminate]. destruct (is_int b); discriminate. }
    destruct (match bw with Some _ => _ | None => _ end) as [width|];
      [|discriminate].
    destruct (negb (is_int width)); [discriminate|].
    destruct (v <? 0); [discriminate|]. destruct (_ <? 0); [discriminate|].
    destruct (negb _); [discriminate|].
    apply bind_Ok in H0 as (w & st1 & Hinit & _).
    by apply WireVector_init_Ok_free in Hinit.
  - intros (Hv & Hw & Hfit & Hfree).
    destruct (Const_init_fits c v bw st) as (k & st' & H & _); eauto.
Qed.

(** The width inferred for a positive value is one more than the position
    of its highest set bit. *)
Theorem inferred_width_log2 v :
  0 < v → inferred_width v = Z.log2 v + 1.
Proof.
  intros Hv. destruct v as [|p|p]; try lia.
  pose proof (bin_digits_bounds p) as Hb. cbv zeta in Hb.
  destruct Hb as (Hn & Hlo & Hhi).
  assert (inferred_width (Z.pos p) = Z.of_nat (String.length (bin_digits p)))
    as ->.
  { unfold inferred_width, bin. rewrite string_length_app.
    simpl String.length. lia. }
  set (n := Z.of_nat (String.length (bin_digits p))) in *.
  assert (Z.log2 (Z.pos p) = n - 1) as ->; [|lia].
  apply Z.log2_unique; [lia|]. replace (Z.succ (n - 1)) with n by lia. lia.
Qed.

Lemma inferred_width_log2_witness : inferred_width 5 = Z.log2 5 + 1.
Proof. apply (inferred_width_log2 5). lia. Defined.

(** ** The next surface of a register *)

(** Reading [r.next] of a register that has no next wire yet creates it: a
    plain wire named after the register with a prime, as wide as the
    register, together with the register net.  From then on reading
    [r.next] returns that same wire and changes nothing. *)
Theorem next_get_contract self st n st1 :
  reg_in st !! oid self = None →
  next_get self st = (Ok n, st1) →
  name n = name self +:+ "'" ∧ bitwidth n = bitwidth self
  ∧ cls n = CWireVector ∧ oid n = next_oid st
  ∧ grows st st1 [(block self, reg_net n self)]
  ∧ reg_in st1 !! oid self = Some n
  ∧ next_get self st1 = (Ok n, st1).
Proof.
  intros Hnone H. unfold next_get in *.
  apply _makereg_first in H as (Hn & Hg & _ & Hreg); [|done].
  assert (reg_in st1 !! oid self = Some n) as Hb
    by (rewrite Hreg; apply lookup_insert_eq).
  split_and!; try done; try (by rewrite Hn).
  by apply _makereg_again.
Qed.

Lemma next_get_contract_witness :
  name wire_rn = name wire_r +:+ "'" ∧ bitwidth wire_rn = bitwidth wire_r
  ∧ cls wire_rn = CWireVector ∧ oid wire_rn = next_oid st_r0
  ∧ grows st_r0 (next_get wire_r st_r0).2 [(block wire_r, reg_net wire_rn wire_r)]
  ∧ reg_in (next_get wire_r st_r0).2 !! oid wire_r = Some wire_rn
  ∧ next_get wire_r (next_get wire_r st_r0).2
    = (Ok wire_rn, (next_get wire_r st_r0).2).
Proof.
  apply (next_get_contract wire_r st_r0 wire_rn (next_get wire_r st_r0).2);
    by vm_compute.
Defined.

(** Assigning to [r.next] once the next wire [n] of the register exists:
    assigning [n] itself does nothing, and assigning anything else, a wire
    or an integer, raises [PyrtlError] and leaves the state as it was. *)
Theorem next_set_when_bound self n st :
  reg_in st !! oid self = Some n →
  (∀ v, oid v = oid n → next_set self (OWire v) st = (Ok tt, st))
  ∧ (∀ value, (∀ v, value = OWire v → oid v ≠ oid n) →
       next_set self value st = (Raise (PyrtlError EmptyString), st)).
Proof.
  intros Hn. split.
  - intros v Hv. unfold next_set, bind, gets. rewrite Hn.
    by rewrite bool_decide_true.
  - intros value Hv. by eapply next_set_rebinding_rejected.
Qed.

Lemma next_set_when_bound_witness :
  (∀ v, oid v = oid wire_rn → next_set wire_r (OWire v) st_reg = (Ok tt, st_reg))
  ∧ (∀ value, (∀ v, value = OWire v → oid v ≠ oid wire_rn) →
       next_set wire_r value st_reg = (Raise (PyrtlError EmptyString), st_reg)).
Proof. apply (next_set_when_bound wire_r wire_rn st_reg). by vm_compute. Defined.

(** Reading [r.next] before binding it spoils the binding by assignment:
    after the read, assigning to [r.next] an integer or any wire that
    existed before the read raises [PyrtlError]. *)
Theorem next_get_then_set self st n st1 value :
  reg_in st !! oid self = None →
  next_get self st = (Ok n, st1) →
  (∀ v, value = OWire v → (oid v < next_oid st)%nat) →
  next_set self value st1 = (Raise (PyrtlError EmptyString), st1).
Proof.
  intros Hnone H Hold. unfold next_get in H.
  apply _makereg_first in H as (Hn & _ & _ & Hreg); [|done].
  apply (next_set_rebinding_rejected self value n).
  - rewrite Hreg. apply lookup_insert_eq.
  - intros v Hv. specialize (Hold v Hv). rewrite Hn. simpl. lia.
Qed.

Lemma next_get_then_set_witness :
  next_set wire_r (OWire wire_a) (next_get wire_r st_r0).2
  = (Raise (PyrtlError EmptyString), (next_get wire_r st_r0).2).
Proof.
  apply (next_get_then_set wire_r st_r0 wire_rn (next_get wire_r st_r0).2
           (OWire wire_a)); [by vm_compute | by vm_compute |].
  intros v [= <-]. vm_compute. lia.
Defined.

(** The first binding of [r.next] by assignment, to a wire [v] as wide as
    the register: a successful call creates the next wire [n] and appends
    exactly the register net and the net that connects [v] to [n], in this
    order; the register is bound to [n] afterwards. *)
Theorem next_set_first_nets self v st st' t :
  reg_in st !! oid self = None →
  bitwidth self = Some t → 0 < t → bitwidth v = Some t →
  next_set self (OWire v) st = (Ok tt, st') →
  ∃ n, name n = name self +:+ "'" ∧ bitwidth n = Some t
    ∧ oid n = next_oid st
    ∧ grows st st' [(block self, reg_net n self); (block n, connect_net v n)]
    ∧ reg_in st' !! oid self = Some n.
Proof.
  intros Hnone Ht Hpos Hv H.
  apply next_set_first_binding in H as (n & st1 & Hmk & Hg & Hi & Hb); [|done].
  apply _makereg_first in Hmk as (Hn & _ & _ & _); [|done].
  assert (bitwidth n = Some t) as Hnt by (by rewrite Hn).
  apply ilshift_plain in Hi.
  apply WireVector_ilshift_Ok with (t := t) in Hi
    as (_ & src & stb & s & x & st2 & Hop & Hs & _ & _ & Heq & _ & Hc); try done.
  destruct Hop as [-> ->]. assert (s = t) as -> by congruence.
  destruct (Heq eq_refl) as [-> ->].
  exists n. split_and!; try done; try (by rewrite Hn).
  apply (grows_trans _ _ _ _ _ Hg (s_grows _ _ _ _ Hc)).
Qed.

Lemma next_set_first_nets_witness :
  ∃ n, name n = name wire_r +:+ "'" ∧ bitwidth n = Some 2
    ∧ oid n = next_oid st_r0
    ∧ grows st_r0 (next_set wire_r (OWire wire_a) st_r0).2
        [(block wire_r, reg_net n wire_r); (block n, connect_net wire_a n)]
    ∧ reg_in (next_set wire_r (OWire wire_a) st_r0).2 !! oid wire_r = Some n.
Proof.
  apply (next_set_first_nets wire_r wire_a st_r0
           (next_set wire_r (OWire wire_a) st_r0).2 2);
    [by vm_compute | reflexivity | lia | reflexivity | by vm_compute].
Defined.

(** ** Memory blocks: creation *)

(** A memory block cannot be created with a data or address width that is
    not positive: the call raises [PyrtlError] and the state is as before.
    With positive widths the creation always succeeds: the new object has
    no port and no stored net, its identity is the next one of the
    counter, which moves on, and no block of the netlist is touched. *)
Theorem MemBlock_init_contract bw aw nm blk st :
  blk ≠ BOther →
  (bw ≤ 0 ∨ aw ≤ 0 →
     MemBlock_init bw aw nm blk st = (Raise (PyrtlError EmptyString), st))
  ∧ (0 < bw → 0 < aw →
     ∃ st', MemBlock_init bw aw nm blk st = (Ok (next_oid st), st')
       ∧ memblocks st'
         = <[next_oid st := mkMem (block_of blk st) bw (name_of nm st) aw None
                              (memid_count st) [] [] [] [] []]> (memblocks st)
       ∧ memid_count st' = S (memid_count st)
       ∧ blocks st' = blocks st).
Proof.
  intros Hblk. split.
  - intros Hbad. unfold MemBlock_init, bind, working_block, gets, ret.
    destruct blk; try done; simpl;
      destruct (Z.leb_spec bw 0); try done;
      destruct (Z.leb_spec aw 0); try done; lia.
  - intros Hbw Haw.
    unfold MemBlock_init, bind, working_block, gets, ret, next_tempvar_name,
      next_memid, new_oid, modify.
    destruct blk; try done; simpl;
      destruct (Z.leb_spec bw 0); try lia;
      destruct (Z.leb_spec aw 0); try lia;
      destruct nm; simpl; eexists; split_and!; reflexivity.
Qed.

Lemma MemBlock_init_contract_witness :
  (8 ≤ 0 ∨ 2 ≤ 0 →
     MemBlock_init 8 2 None BNone st_abs = (Raise (PyrtlError EmptyString), st_abs))
  ∧ (0 < 8 → 0 < 2 →
     ∃ st', MemBlock_init 8 2 None BNone st_abs = (Ok (next_oid st_abs), st')
       ∧ memblocks st'
         = <[next_oid st_abs := mkMem (block_of BNone st_abs) 8
                                  (name_of None st_abs) 2 None
                                  (memid_count st_abs) [] [] [] [] []]>
             (memblocks st_abs)
       ∧ memid_count st' = S (memid_count st_abs)
       ∧ blocks st' = blocks st_abs).
Proof. apply (MemBlock_init_contract 8 2 None BNone st_abs). done. Defined.

(** ** Accesses that fail *)

(** The checks of an access.  An integer index is refused; an address wire
    whose width is not the address width of the block is refused, on a
    read with a message that quotes the name of the wire; a value to write
    that is neither a wire nor a data-enable pair is refused; so is data of
    the wrong width given with an enable, and an enable that is not one bit
    wide.  Each of these raises [PyrtlError] with the state as it was. *)
Theorem mem_access_checks h m st :
  memblocks st !! h = Some m →
  (∀ z, ∃ msg, MemBlock_getitem h (OInt z) st = (Raise (PyrtlError msg), st))
  ∧ (∀ z val, MemBlock_setitem h (OInt z) val st
              = (Raise (PyrtlError EmptyString), st))
  ∧ (∀ item n, bitwidth item = Some n → n ≠ mem_addrwidth m →
       (∃ pre post, MemBlock_getitem h (OWire item) st
          = (Raise (PyrtlError (pre +:+ name item +:+ post)), st))
       ∧ ∀ val, MemBlock_setitem h (OWire item) val st
                = (Raise (PyrtlError EmptyString), st))
  ∧ (∀ item, bitwidth item = Some (mem_addrwidth m) →
       MemBlock_setitem h (OWire item) MVOther st
       = (Raise (PyrtlError EmptyString), st))
  ∧ (∀ item data enable d, bitwidth item = Some (mem_addrwidth m) →
       bitwidth data = Some d → d ≠ mem_bitwidth m →
       MemBlock_setitem h (OWire item) (MVEnable data enable) st
       = (Raise (PyrtlError EmptyString), st))
  ∧ (∀ item data enable e, bitwidth item = Some (mem_addrwidth m) →
       bitwidth data = Some (mem_bitwidth m) →
       bitwidth enable = Some e → e ≠ 1 →
       MemBlock_setitem h (OWire item) (MVEnable data enable) st
       = (Raise (PyrtlError EmptyString), st)).
Proof.
  intros Hm. split_and!.
  - intros z. unfold MemBlock_getitem, raise. eauto.
  - done.
  - intros item n Hn Hne. split.
    + exists ("error, width of memblock index " +:+ dq),
             (dq +:+ " is " +:+ pretty n +:+ ", addrwidth is "
              +:+ pretty (mem_addrwidth m)).
      unfold MemBlock_getitem, bind, get_mem, len. rewrite Hm, Hn. simpl.
      destruct (Z.eqb_spec n (mem_addrwidth m)); [done|]. reflexivity.
    + intros val. unfold MemBlock_setitem, bind, get_mem, len. rewrite Hm, Hn.
      simpl. by destruct (Z.eqb_spec n (mem_addrwidth m)).
  - intros item Hi. unfold MemBlock_setitem, bind, get_mem, len.
    rewrite Hm, Hi. simpl. by rewrite Z.eqb_refl.
  - intros item data enable d Hi Hd Hne.
    unfold MemBlock_setitem, bind, get_mem, len, ret.
    rewrite Hm, Hi. simpl. rewrite Z.eqb_refl. simpl. rewrite Hd. simpl.
    by destruct (Z.eqb_spec d (mem_bitwidth m)).
  - intros item data enable e Hi Hd He Hne.
    unfold MemBlock_setitem, bind, get_mem, len, ret.
    rewrite Hm, Hi. simpl. rewrite Z.eqb_refl. simpl. rewrite Hd. simpl.
    rewrite Z.eqb_refl. simpl. rewrite He. simpl.
    by destruct (Z.eqb_spec e 1).
Qed.

Lemma mem_access_checks_witness :
  ∃ pre post, MemBlock_getitem 4 (OWire wire_b) st_mem
    = (Raise (PyrtlError (pre +:+ name wire_b +:+ post)), st_mem).
Proof.
  destruct (mem_access_checks 4%nat mem0 st_mem) as (_ & _ & H & _);
    [by vm_compute|].
  apply (H wire_b 3); [reflexivity | by vm_compute].
Defined.

Lemma Const_init_Raise c v bw st e st' :
  Const_init c v bw st = (Raise e, st') → registers_nothing st st'.
Proof. intros H. by apply Const_init_Raise_kind in H as [? _]. Qed.

Lemma registers_nothing_untouched st st' :
  registers_nothing st st' → mem_untouched st st'.
Proof.
  intros (Hb & _ & _ & Hm). split; [done|].
  intros b. unfold logic_at, get_block. by rewrite Hb.
Qed.

Lemma grows_nil_untouched st st' : grows st st' [] → mem_untouched st st'.
Proof.
  intros [L _ _ M _]. split; [done|]. intros b.
  by rewrite L, log_at_nil, app_nil_r.
Qed.

Lemma mem_untouched_refl st : mem_untouched st st.
Proof. done. Qed.

(** A read access that raises has left the memory blocks and the nets
    alone. *)
Lemma MemBlock_getitem_Raise h item st e st' :
  wf st → MemBlock_getitem h item st = (Raise e, st') → mem_untouched st st'.
Proof.
  intros Hwf H. unfold MemBlock_getitem in H. destruct item as [item|z].
  2:{ by apply raise_run in H as [_ ->]. }
  apply bind_run in H as [(m & st0 & Hg & H)|(e' & Hg & _)].
  2:{ by apply get_mem_run in Hg as [-> _]. }
  apply get_mem_run in Hg as [-> Hm].
  apply bind_run in H as [(n & st0 & Hn & H)|(e' & Hn & _)].
  2:{ by apply len_run in Hn as [-> _]. }
  apply len_run in Hn as [-> _].
  destruct (negb (n =? mem_addrwidth m)); [by apply raise_run in H as [_ ->]|].
  apply bind_run in H as [(d & st1 & Hd & H)|(e' & Hd & _)].
  2:{ apply registers_nothing_untouched.
      by apply WireVector_init_Raise in Hd as [? _]. }
  exfalso.
  apply WireVector_init_fresh in Hd as (_ & [[L1 _ _ M1 C1] _ _] & _).
  destruct (update_post h m (add_read item d m) st
              (set_memblocks (alter (add_read item d) h (memblocks st1)) st1)
              Hwf Hm)
    as (st3 & Hrun & _); simpl; try done.
  - intros b. change (logic_at st1 b = logic_at st b).
    by rewrite L1, log_at_nil, app_nil_r.
  - rewrite M1. by apply alter_present.
  - apply (wf_len _ Hwf _ _ Hm).
  - apply (wf_len _ Hwf _ _ Hm).
  - rewrite !length_app. simpl. f_equal. apply (wf_len _ Hwf _ _ Hm).
  - unfold bind, upd_mem, modify in H.
    change (λ m0 : MemBlock, mkMem (mem_block m0) (mem_bitwidth m0) (mem_name m0)
              (mem_addrwidth m0) (stored_net m0) (mem_id m0)
              (read_addr m0 ++ [item]) (read_data m0 ++ [d])
              (write_addr m0) (write_data m0) (write_enable m0))
      with (add_read item d) in H.
    rewrite Hrun in H. discriminate.
Qed.

(** A write access that raises has left the memory blocks and the nets
    alone. *)
Lemma MemBlock_setitem_Raise h item val st e st' :
  wf st → MemBlock_setitem h item val st = (Raise e, st') → mem_untouched st st'.
Proof.
  intros Hwf H. unfold MemBlock_setitem in H. destruct item as [item|z].
  2:{ by apply raise_run in H as [_ ->]. }
  apply bind_run in H as [(m & st0 & Hg & H)|(e' & Hg & _)].
  2:{ by apply get_mem_run in Hg as [-> _]. }
  apply get_mem_run in Hg as [-> Hm].
  apply bind_run in H as [(n & st0 & Hn & H)|(e' & Hn & _)].
  2:{ by apply len_run in Hn as [-> _]. }
  apply len_run in Hn as [-> _].
  destruct (negb (n =? mem_addrwidth m)); [by apply raise_run in H as [_ ->]|].
  apply bind_run in H as [([data enable] & stc & Hde & H)|(e' & Hde & _)].
  2:{ destruct val.
      - apply bind_run in Hde as [(? & ? & _ & Hde)|(? & Hde & _)];
          [by apply ret_run in Hde as [? _]|].
        apply registers_nothing_untouched. by eapply Const_init_Raise.
      - by apply ret_run in Hde as [? _].
      - by apply raise_run in Hde as [_ ->]. }
  assert (grows st stc []) as Hg.
  { destruct val.
    - apply bind_run in Hde as [(? & ? & Hc & Hde)|(? & _ & ?)]; [|done].
      apply ret_run in Hde as [_ ->].
      by apply Const_init_Ok in Hc as (_ & [? _ _] & _).
    - apply ret_run in Hde as [_ ->]. apply grows_refl.
    - by apply raise_run in Hde as [? _]. }
  clear Hde. pose proof (grows_nil_untouched _ _ Hg) as Hun.
  apply bind_run in H as [(ld & ? & Hld & H)|(e' & Hld & _)].
  2:{ by apply len_run in Hld as [-> _]. }
  apply len_run in Hld as [-> _].
  destruct (negb (ld =? mem_bitwidth m)); [by apply raise_run in H as [_ ->]|].
  apply bind_run in H as [(le & ? & Hle & H)|(e' & Hle & _)].
  2:{ by apply len_run in Hle as [-> _]. }
  apply len_run in Hle as [-> _].
  destruct (negb (le =? 1)); [by apply raise_run in H as [_ ->]|].
  exfalso. destruct Hun as [M L].
  destruct (update_post h m (add_write item data enable m) st
              (set_memblocks (alter (add_write item data enable) h (memblocks stc)) stc)
              Hwf Hm)
    as (st3 & Hrun & _); simpl; try done.
  - by destruct Hg.
  - rewrite M. by apply alter_present.
  - rewrite !length_app. simpl. f_equal. apply (wf_len _ Hwf _ _ Hm).
  - rewrite !length_app. simpl. f_equal. apply (wf_len _ Hwf _ _ Hm).
  - apply (wf_len _ Hwf _ _ Hm).
  - unfold bind, upd_mem, modify in H.
    change (λ m0 : MemBlock, mkMem (mem_block m0) (mem_bitwidth m0) (mem_name m0)
              (mem_addrwidth m0) (stored_net m0) (mem_id m0)
              (read_addr m0) (read_data m0)
              (write_addr m0 ++ [item]) (write_data m0 ++ [data])
              (write_enable m0 ++ [enable]))
      with (add_write item data enable) in H.
    rewrite Hrun in H. discriminate.
Qed.

(** An access that raises, for whatever reason, has changed neither a
    memory block object nor a net of any block: in a state that satisfies
    the invariant the exception always leaves before the port is
    recorded. *)
Theorem mem_access_failure_untouched h st e st' :
  wf st →
  (∀ item, MemBlock_getitem h item st = (Raise e, st') → mem_untouched st st')
  ∧ (∀ item val, MemBlock_setitem h item val st = (Raise e, st') →
       mem_untouched st st').
Proof.
  intros Hwf. split.
  - intros item. by apply MemBlock_getitem_Raise.
  - intros item val. by apply MemBlock_setitem_Raise.
Qed.

Lemma mem_access_failure_untouched_witness :
  mem_untouched st_mem (MemBlock_getitem 4 (OWire wire_b) st_mem).2.
Proof.
  destruct (mem_access_failure_untouched 4%nat st_mem
              (PyrtlError ("error, width of memblock index " +:+ dq +:+ "b" +:+ dq
                 +:+ " is 3, addrwidth is 2"))
              (MemBlock_getitem 4 (OWire wire_b) st_mem).2) as [H _];
    [exact wf_st_mem|].
  apply (H (OWire wire_b)). by vm_compute.
Defined.

(** A write of a plain wire whose width is not the data width of the block
    raises [PyrtlError] only after the enable constant 1 was built: the
    memory is as before, but the constant stays registered in the working
    block. *)
Theorem setitem_wrong_width_leaves_enable h m item w d st :
  memblocks st !! h = Some m → bitwidth item = Some (mem_addrwidth m) →
  bitwidth w = Some d → d ≠ mem_bitwidth m →
  name_free (const_name 1 st) st →
  ∃ en st',
    MemBlock_setitem h (OWire item) (MVWire w) st
    = (Raise (PyrtlError EmptyString), st')
    ∧ Const_init CConst 1 (Some 1) st = (Ok en, st')
    ∧ mem_untouched st st'
    ∧ wirevector_by_name (get_block (_singleton_block st) st') !! const_name 1 st
      = Some en.
Proof.
  intros Hm Hi Hw Hne Hfree.
  destruct (Const_init_fits CConst 1 (Some 1) st) as (en & st' & Hc & _);
    try done; simpl; try lia.
  exists en, st'. split_and!; try done.
  - unfold MemBlock_setitem, bind, get_mem, len, ret. rewrite Hm, Hi. simpl.
    rewrite Z.eqb_refl. simpl. rewrite Hc. simpl. rewrite Hw. simpl.
    by destruct (Z.eqb_spec d (mem_bitwidth m)).
  - apply grows_nil_untouched.
    by apply Const_init_Ok in Hc as (_ & [? _ _] & _).
  - unfold Const_init in Hc.
    apply bind_Ok in Hc as (n & st1 & Hn & Hc).
    unfold next_constvar_name in Hn. injection Hn as <- <-.
    change (negb (1 ≫ 1 =? 0)) with false in Hc. cbv iota in Hc.
    apply bind_Ok in Hc as (k & st2 & Hk & Hc).
    apply WireVector_init_Ok in Hk as (Hkw & _ & _ & _ & _ & Hreg).
    unfold bind, modify, ret in Hc. injection Hc as <- <-.
    rewrite Hkw in Hreg. simpl in Hreg. rewrite Hkw.
    unfold const_name, get_block in *. simpl. exact Hreg.
Qed.

Lemma setitem_wrong_width_leaves_enable_witness :
  ∃ en st',
    MemBlock_setitem 4 (OWire wire_a) (MVWire wire_b) st_mem
    = (Raise (PyrtlError EmptyString), st')
    ∧ Const_init CConst 1 (Some 1) st_mem = (Ok en, st')
    ∧ mem_untouched st_mem st'
    ∧ wirevector_by_name (get_block (_singleton_block st_mem) st')
        !! const_name 1 st_mem = Some en.
Proof.
  apply (setitem_wrong_width_leaves_enable 4%nat mem0 wire_a wire_b 3 st_mem);
    by vm_compute.
Defined.

(** ** One memory block among others *)

Lemma _update_net_memblocks h st r st' :
  _update_net h st = (r, st') →
  ∀ h', h' ≠ h → memblocks st' !! h' = memblocks st !! h'.
Proof.
  unfold _update_net, bind, get_mem, logic_remove, add_net, upd_mem, modify,
    raise, ret.
  intros H h' Hne. destruct (memblocks st !! h) as [m|]; [|by simplify_eq].
  destruct (stored_net m) as [net|].
  - destruct (list_remove net _); [|by simplify_eq].
    destruct (negb _); simplify_eq; [done|]. simpl.
    by rewrite lookup_alter_ne.
  - destruct (negb _); simplify_eq; [done|]. simpl.
    by rewrite lookup_alter_ne.
Qed.

Lemma MemBlock_getitem_memblocks h item st r st' :
  MemBlock_getitem h item st = (r, st') →
  ∀ h', h' ≠ h → memblocks st' !! h' = memblocks st !! h'.
Proof.
  intros H h' Hne. unfold MemBlock_getitem in H. destruct item as [item|z].
  2:{ by apply raise_run in H as [_ ->]. }
  apply bind_run in H as [(m & st0 & Hg & H)|(e' & Hg & _)].
  2:{ by apply get_mem_run in Hg as [-> _]. }
  apply get_mem_run in Hg as [-> Hm].
  apply bind_run in H as [(n & st0 & Hn & H)|(e' & Hn & _)].
  2:{ by apply len_run in Hn as [-> _]. }
  apply len_run in Hn as [-> _].
  destruct (negb (n =? mem_addrwidth m)); [by apply raise_run in H as [_ ->]|].
  apply bind_run in H as [(d & st1 & Hd & H)|(e' & Hd & _)].
  2:{ apply (proj1 mem_frame_operations) in Hd as (? & [_ _ _ M _] & _).
      by rewrite M. }
  apply (proj1 mem_frame_operations) in Hd as (? & [_ _ _ M _] & _).
  apply bind_run in H as [([] & st2 & Hu & H)|(e' & Hu & _)].
  2:{ unfold upd_mem, modify in Hu. discriminate. }
  unfold upd_mem, modify in Hu. injection Hu as <-.
  apply bind_run in H as [([] & st3 & Hup & H)|(e' & Hup & _)].
  - apply ret_run in H as [_ ->].
    rewrite (_update_net_memblocks _ _ _ _ Hup) by done. simpl.
    by rewrite lookup_alter_ne, M.
  - rewrite (_update_net_memblocks _ _ _ _ Hup) by done. simpl.
    by rewrite lookup_alter_ne, M.
Qed.

Lemma MemBlock_setitem_memblocks h item val st r st' :
  MemBlock_setitem h item val st = (r, st') →
  ∀ h', h' ≠ h → memblocks st' !! h' = memblocks st !! h'.
Proof.
  intros H h' Hne. unfold MemBlock_setitem in H. destruct item as [item|z].
  2:{ by apply raise_run in H as [_ ->]. }
  apply bind_run in H as [(m & st0 & Hg & H)|(e' & Hg & _)].
  2:{ by apply get_mem_run in Hg as [-> _]. }
  apply get_mem_run in Hg as [-> Hm].
  apply bind_run in H as [(n & st0 & Hn & H)|(e' & Hn & _)].
  2:{ by apply len_run in Hn as [-> _]. }
  apply len_run in Hn as [-> _].
  destruct (negb (n =? mem_addrwidth m)); [by apply raise_run in H as [_ ->]|].
  assert (∀ (r : result (WireVector * WireVector)) stc,
    match val with
    | MVWire w => enable <- Const_init CConst 1 (Some 1) ;; ret (w, enable)
    | MVEnable data enable => ret (data, enable)
    | MVOther => raise (PyrtlError EmptyString)
    end st = (r, stc) → memblocks stc = memblocks st) as Hval.
  { intros r0 stc Hde. destruct val.
    - apply bind_run in Hde as [(? & ? & Hc & Hde)|(? & Hc & _)].
      + apply ret_run in Hde as [_ ->].
        by apply (proj1 (proj2 mem_frame_operations)) in Hc as (? & [_ _ _ M _] & _).
      + by apply (proj1 (proj2 mem_frame_operations)) in Hc as (? & [_ _ _ M _] & _).
    - by apply ret_run in Hde as [_ ->].
    - by apply raise_run in Hde as [_ ->]. }
  apply bind_run in H as [([data enable] & stc & Hde & H)|(e' & Hde & _)].
  2:{ by rewrite (Hval _ _ Hde). }
  apply Hval in Hde as M.
  apply bind_run in H as [(ld & ? & Hld & H)|(e' & Hld & _)].
  2:{ apply len_run in Hld as [-> _]. by rewrite M. }
  apply len_run in Hld as [-> _].
  destruct (negb (ld =? mem_bitwidth m)).
  { apply raise_run in H as [_ ->]. by rewrite M. }
  apply bind_run in H as [(le & ? & Hle & H)|(e' & Hle & _)].
  2:{ apply len_run in Hle as [-> _]. by rewrite M. }
  apply len_run in Hle as [-> _].
  destruct (negb (le =? 1)).
  { apply raise_run in H as [_ ->]. by rewrite M. }
  apply bind_run in H as [([] & st2 & Hu & H)|(e' & Hu & _)].
  2:{ unfold upd_mem, modify in Hu. discriminate. }
  unfold upd_mem, modify in Hu. injection Hu as <-.
  rewrite (_update_net_memblocks _ _ _ _ H) by done. simpl.
  by rewrite lookup_alter_ne, M.
Qed.

Lemma others_kept_of h st st' :
  wf st → wf st' →
  (∀ h', h' ≠ h → memblocks st' !! h' = memblocks st !! h') →
  others_kept h st st'.
Proof.
  intros Hwf Hwf' Hm h' m2 Hne H2.
  assert (memblocks st' !! h' = Some m2) as H2' by (by rewrite Hm).
  split; [done|]. intros b.
  rewrite (wf_ok _ Hwf' _ _ H2' b). by rewrite (wf_ok _ Hwf _ _ H2 b).
Qed.

(** An access to one memory block, whether it returns or raises, leaves
    every other memory block as it was: the object with its port lists
    and stored net, and the nets of that memory in every block. *)
Theorem mem_access_others_kept h st :
  wf st →
  (∀ item r st', MemBlock_getitem h item st = (r, st') → others_kept h st st')
  ∧ (∀ item val r st', MemBlock_setitem h item val st = (r, st') →
       others_kept h st st').
Proof.
  intros Hwf. split.
  - intros item r st' H. apply others_kept_of; [done| |].
    + by eapply wf_MemBlock_getitem.
    + by eapply MemBlock_getitem_memblocks.
  - intros item val r st' H. apply others_kept_of; [done| |].
    + by eapply wf_MemBlock_setitem.
    + by eapply MemBlock_setitem_memblocks.
Qed.

Lemma wf_st_mem2 : wf st_mem2.
Proof.
  unfold st_mem2.
  destruct (MemBlock_init 8 2 None BNone st_mem) as [r st'] eqn:E. simpl.
  eapply wf_MemBlock_init; [exact wf_st_mem | exact E].
Qed.

Lemma mem_access_others_kept_witness :
  others_kept 4 st_mem2 (MemBlock_getitem 4 (OWire wire_a) st_mem2).2.
Proof.
  destruct (mem_access_others_kept 4%nat st_mem2) as [H _]; [exact wf_st_mem2|].
  apply (H (OWire wire_a) (MemBlock_getitem 4 (OWire wire_a) st_mem2).1).
  by destruct (MemBlock_getitem 4 (OWire wire_a) st_mem2).
Defined.

(** ** The ports of a memory block and its net *)

Lemma zip3_length {A} (xs ys zs : list A) :
  length xs = length ys → length ys = length zs →
  length (zip3 xs ys zs) = length xs.
Proof.
  revert ys zs. induction xs as [|a xs IH]; intros [|b ys] [|c zs] H1 H2;
    simplify_eq/=; [done|]. f_equal. by apply IH.
Qed.

Lemma length_flattened_write_args m :
  length (write_addr m) = length (write_data m) →
  length (write_data m) = length (write_enable m) →
  length (flattened_write_args m) = (3 * length (write_addr m))%nat.
Proof.
  intros H1 H2. unfold flattened_write_args.
  rewrite <- (zip3_length _ _ _ H1 H2).
  induction (zip3 _ _ _) as [|[[a d] e] l IH]; [done|].
  rewrite fmap_cons.
  change (length ([a; d; e] ++ mjoin ((λ '(a, d, e), [a; d; e]) <$> l))
          = (3 * length ((a, d, e) :: l))%nat).
  rewrite length_app, IH. simpl. lia.
Qed.

Lemma ports_inv_memblocks st st' :
  memblocks st' = memblocks st → ports_inv st → ports_inv st'.
Proof. intros M H h m Hm. rewrite M in Hm. by apply (H h). Qed.

Lemma ports_inv_initial : ports_inv initial_state.
Proof. intros h m H. simpl in H. by rewrite lookup_empty in H. Qed.

Lemma ports_inv_MemBlock_init bw aw nm blk st r st' :
  ports_inv st → MemBlock_init bw aw nm blk st = (r, st') → ports_inv st'.
Proof.
  intros Hinv H. unfold MemBlock_init in H.
  apply bind_run in H as [(b & st0 & Hb & H)|(e & Hb & _)].
  2:{ destruct blk; unfold working_block, gets, ret, raise in Hb; by simplify_eq. }
  assert (st0 = st) as ->.
  { destruct blk; unfold working_block, gets, ret, raise in Hb; by simplify_eq. }
  destruct (bw <=? 0); [by apply raise_run in H as [_ ->]|].
  destruct (aw <=? 0); [by apply raise_run in H as [_ ->]|].
  apply bind_run in H as [(n & st1 & Hn & H)|(e & Hn & _)].
  2:{ destruct nm; [by apply ret_run in Hn as [? _]|].
      by apply next_tempvar_name_run in Hn as (? & _). }
  assert (memblocks st1 = memblocks st) as M.
  { destruct nm; [by apply ret_run in Hn as [_ ->]|].
    by apply next_tempvar_name_run in Hn as (_ & [[_ _ _ ? _] _ _] & _). }
  unfold bind, next_memid, new_oid, modify, ret in H. simpl in H.
  injection H as _ <-. intros h m Hm. simpl in Hm.
  destruct (decide (h = next_oid st1)) as [->|Hne].
  - rewrite lookup_insert_eq in Hm. injection Hm as <-. split; [|done].
    unfold ports_ok. simpl. split_and!; apply Forall_nil_2.
  - rewrite lookup_insert_ne, M in Hm by done. by apply (Hinv h).
Qed.

Lemma ports_inv_MemBlock_getitem h item st r st' :
  wf st → ports_inv st → MemBlock_getitem h item st = (r, st') → ports_inv st'.
Proof.
  intros Hwf Hinv H. destruct r as [data|e].
  2:{ apply MemBlock_getitem_Raise in H as [M _]; [|done].
      by apply (ports_inv_memblocks st). }
  destruct item as [item|z]; [|discriminate].
  destruct (memblocks st !! h) as [m|] eqn:Hm.
  2:{ unfold MemBlock_getitem, bind, get_mem in H. rewrite Hm in H. discriminate. }
  pose proof (MemBlock_getitem_memblocks _ _ _ _ _ H) as Hoth.
  pose proof (MemBlock_getitem_Ok _ _ _ _ _ _ Hwf Hm H) as Hp. cbv zeta in Hp.
  destruct Hp as (Hi & (_ & _ & _ & Hd) & (Hm' & _) & _).
  destruct (Hinv _ _ Hm) as [(P1 & P2 & P3 & P4 & P5) _].
  intros h' m' Hh'. destruct (decide (h' = h)) as [->|Hne].
  - rewrite Hm' in Hh'. injection Hh' as <-. split.
    + unfold ports_ok. simpl. split_and!; try done.
      * apply Forall_app. split; [done|]. by apply Forall_singleton.
      * apply Forall_app. split; [done|]. by apply Forall_singleton.
    + simpl. by intros net [= <-].
  - rewrite Hoth in Hh' by done. by apply (Hinv h').
Qed.

Lemma ports_inv_MemBlock_setitem h item val st r st' :
  wf st → ports_inv st → MemBlock_setitem h item val st = (r, st') →
  ports_inv st'.
Proof.
  intros Hwf Hinv H. destruct r as [[]|e].
  2:{ apply MemBlock_setitem_Raise in H as [M _]; [|done].
      by apply (ports_inv_memblocks st). }
  destruct item as [item|z]; [|discriminate].
  destruct (memblocks st !! h) as [m|] eqn:Hm.
  2:{ unfold MemBlock_setitem, bind, get_mem in H. rewrite Hm in H. discriminate. }
  pose proof (MemBlock_setitem_memblocks _ _ _ _ _ _ H) as Hoth.
  pose proof (MemBlock_setitem_Ok _ _ _ _ _ _ Hwf Hm H)
    as (data & enable & stc & _ & Hi & Hd & He & Hp).
  cbv zeta in Hp. destruct Hp as ((Hm' & _) & _).
  destruct (Hinv _ _ Hm) as [(P1 & P2 & P3 & P4 & P5) _].
  intros h' m' Hh'. destruct (decide (h' = h)) as [->|Hne].
  - rewrite Hm' in Hh'. injection Hh' as <-. split.
    + unfold ports_ok. simpl. split_and!; try done.
      * apply Forall_app. split; [done|]. by apply Forall_singleton.
      * apply Forall_app. split; [done|]. by apply Forall_singleton.
      * apply Forall_app. split; [done|]. by apply Forall_singleton.
    + simpl. by intros net [= <-].
  - rewrite Hoth in Hh' by done. by apply (Hinv h').
Qed.

Lemma keeps_frame {A} (c : M A) : preserves mem_frame c → keeps c.
Proof.
  intros Hc st r st' [Hwf Hinv] H. pose proof (Hc _ _ _ H) as Hfr. split.
  - by apply (wf_mem_frame st).
  - destruct Hfr as (? & [_ _ _ M _] & _). by apply (ports_inv_memblocks st).
Qed.

(** The invariants of the memory blocks are invariants of the module.  They
    hold in the initial state: each memory has its stored net as its only
    live net, the port lists of a block are equally long, identities are
    distinct, every port has the widths of its block and the stored net is
    the one derived from the port lists.  And creating a memory block, a
    read access, a write access and every operation on wire vectors and
    registers ends in a state that satisfies them again, whether the call
    returns or raises. *)
Theorem memory_invariants_kept :
  mem_inv initial_state
  ∧ (∀ bw aw nm blk, keeps (MemBlock_init bw aw nm blk))
  ∧ (∀ h item, keeps (MemBlock_getitem h item))
  ∧ (∀ h item val, keeps (MemBlock_setitem h item val))
  ∧ (∀ c bw nm blk, keeps (WireVector_init c bw nm blk))
  ∧ (∀ c v bw, keeps (Const_init c v bw))
  ∧ (∀ c bw nm, keeps (Register_init c bw nm))
  ∧ (∀ w, keeps (invert w))
  ∧ (∀ w item, keeps (getitem w item))
  ∧ (∀ l, keeps (concat l))
  ∧ (∀ w n, keeps (extended w n))
  ∧ (∀ w o, keeps (ilshift w o))
  ∧ (∀ w o op, keeps (logicop w o op))
  ∧ (∀ w, keeps (next_get w))
  ∧ (∀ w v, keeps (next_set w v))
  ∧ (∀ w v, keeps (next_ilshift w v)).
Proof.
  pose proof mem_frame_operations
    as (F1 & F2 & F3 & F4 & F5 & F6 & F7 & F8 & F9 & F10 & F11 & F12).
  split_and!; try (intros; apply keeps_frame; auto; fail).
  - split; [apply wf_initial | apply ports_inv_initial].
  - intros bw aw nm blk st r st' [Hwf Hinv] H. split.
    + by eapply wf_MemBlock_init.
    + by eapply ports_inv_MemBlock_init.
  - intros h item st r st' [Hwf Hinv] H. split.
    + by eapply wf_MemBlock_getitem.
    + by eapply ports_inv_MemBlock_getitem.
  - intros h item val st r st' [Hwf Hinv] H. split.
    + by eapply wf_MemBlock_setitem.
    + by eapply ports_inv_MemBlock_setitem.
Qed.

Lemma ports_inv_st_mem : ports_inv st_mem.
Proof.
  unfold st_mem.
  destruct ((declare_abs ;; MemBlock_init 8 2 None BNone) initial_state)
    as [r st'] eqn:E. simpl.
  apply bind_run in E as [(? & st1 & H1 & H2)|(e & H1 & _)].
  - eapply ports_inv_MemBlock_init; [|exact H2].
    apply (ports_inv_memblocks initial_state); [|apply ports_inv_initial].
    assert (preserves mem_frame declare_abs) as Hd.
    { unfold declare_abs.
      repeat (apply preserves_bind;
              first [ exact mem_frame_trans | exact mem_frame_refl
                    | apply (proj1 mem_frame_operations) | intros ? ]).
      apply preserves_ret. exact mem_frame_refl. }
    by apply Hd in H1 as (? & [_ _ _ M _] & _).
  - vm_compute in H1. discriminate.
Qed.

(** What a netlist holds for a memory block.  In a state that satisfies the
    two invariants, a net found in any block with the identity of a memory
    block [m] in its parameter sits in the block of [m] and is the net
    derived from the port lists of [m]: its counts are the numbers of read
    and write ports, it has one input per read port and three per write
    port and one output per read port, every output has the data width of
    [m], and the first inputs, one per read port, have its address
    width. *)
Theorem memory_net_shape st h m b n r w :
  wf st → ports_inv st → memblocks st !! h = Some m →
  n ∈ logic_at st b → op_param n = PMem (mem_id m) r w →
  b = mem_block m ∧ n = mem_net_of m
  ∧ r = length (read_addr m) ∧ w = length (write_addr m)
  ∧ net_arity_ok n
  ∧ Forall (λ d, bitwidth d = Some (mem_bitwidth m)) (dests n)
  ∧ Forall (λ a, bitwidth a = Some (mem_addrwidth m)) (take r (args n)).
Proof.
  intros Hwf Hinv Hm Hn Hp.
  assert (n ∈ mem_nets (mem_id m) st b) as Hin.
  { unfold mem_nets. apply list_elem_of_filter. split; [|done].
    unfold is_mem_net. rewrite Hp. by rewrite bool_decide_true. }
  rewrite (wf_ok _ Hwf _ _ Hm b) in Hin.
  case_decide as Hb; [|by apply elem_of_nil in Hin].
  destruct (stored_net m) as [net|] eqn:Hs; simpl in Hin;
    [|by apply elem_of_nil in Hin].
  apply list_elem_of_singleton in Hin as ->.
  destruct (Hinv _ _ Hm) as [(P1 & P2 & _) Hnet].
  specialize (Hnet _ Hs). subst net. simpl in Hp. injection Hp as <- <-.
  destruct (wf_len _ Hwf _ _ Hm) as (L1 & L2 & L3).
  split_and!; try done.
  - unfold net_arity_ok. simpl. split; [|done].
    rewrite length_app, length_flattened_write_args by done. done.
  - simpl. by rewrite take_app_length.
Qed.

Lemma ports_inv_st_mem1 : ports_inv st_mem1.
Proof.
  unfold st_mem1.
  destruct (MemBlock_getitem 4 (OWire wire_a) st_mem) as [r st'] eqn:E. simpl.
  eapply ports_inv_MemBlock_getitem;
    [exact wf_st_mem | exact ports_inv_st_mem | exact E].
Qed.

Lemma memory_net_shape_witness :
  let m := mkMem 0 8 "tmp0" 2 (Some (mkNet (Some "m") (PMem 0 1 0) [wire_a] [wire_d]))
             0 [wire_a] [wire_d] [] [] [] in
  let n := mkNet (Some "m") (PMem 0 1 0) [wire_a] [wire_d] in
  0%nat = mem_block m ∧ n = mem_net_of m
  ∧ 1%nat = length (read_addr m) ∧ 0%nat = length (write_addr m)
  ∧ net_arity_ok n
  ∧ Forall (λ d, bitwidth d = Some (mem_bitwidth m)) (dests n)
  ∧ Forall (λ a, bitwidth a = Some (mem_addrwidth m)) (take 1 (args n)).
Proof.
  apply (memory_net_shape st_mem1 4%nat
           (mkMem 0 8 "tmp0" 2
              (Some (mkNet (Some "m") (PMem 0 1 0) [wire_a] [wire_d]))
              0 [wire_a] [wire_d] [] [] [])
           0%nat (mkNet (Some "m") (PMem 0 1 0) [wire_a] [wire_d]) 1 0).
  - exact wf_st_mem1.
  - exact ports_inv_st_mem1.
  - by vm_compute.
  - vm_compute. left.
  - reflexivity.
Defined.

(** ** What no operation undoes *)

Lemma monotone_refl st : monotone st st.
Proof. by split_and!. Qed.

Lemma monotone_trans st1 st2 st3 :
  monotone st1 st2 → monotone st2 st3 → monotone st1 st3.
Proof.
  intros (W1 & L1 & O1 & S1 & M1 & N1) (W2 & L2 & O2 & S2 & M2 & N2).
  split_and!.
  - intros b n w H. by apply W2, W1.
  - intros b. trans (logic_at st2 b); [apply L1 | apply L2].
  - lia.
  - congruence.
  - congruence.
  - intros id b. by rewrite N2.
Qed.

Lemma monotone_same st st' :
  blocks st' = blocks st → (next_oid st ≤ next_oid st')%nat →
  _singleton_block st' = _singleton_block st → memblocks st' = memblocks st →
  monotone st st'.
Proof.
  intros B O S M.
  assert (∀ b, get_block b st' = get_block b st) as G
    by (intros b; unfold get_block; by rewrite B).
  split_and!; try done.
  - intros b n w. by rewrite G.
  - intros b. unfold logic_at. by rewrite G.
  - intros id b. unfold mem_nets, logic_at. by rewrite G.
Qed.

Lemma monotone_tempvar : preserves monotone next_tempvar_name.
Proof. intros st r st' [= <- <-]. by apply monotone_same. Qed.

Lemma monotone_constvar v : preserves monotone (next_constvar_name v).
Proof. intros st r st' [= <- <-]. by apply monotone_same. Qed.

Lemma monotone_new_oid : preserves monotone new_oid.
Proof. intros st r st' [= <- <-]. apply monotone_same; simpl; try done. lia. Qed.

Lemma monotone_const_val f :
  preserves monotone (modify (λ st, set_const_val (f st) st)).
Proof. intros st r st' [= <- <-]. by apply monotone_same. Qed.

Lemma monotone_reg_in f :
  preserves monotone (modify (λ st, set_reg_in (f st) st)).
Proof. intros st r st' [= <- <-]. by apply monotone_same. Qed.

Lemma get_block_set_block b blk st b' :
  get_block b' (set_block b blk st) = if decide (b = b') then blk else get_block b' st.
Proof.
  unfold get_block, set_block; simpl.
  case_decide; subst; [by rewrite lookup_insert_eq | by rewrite lookup_insert_ne].
Qed.

Lemma monotone_add_wirevector b w : preserves monotone (add_wirevector b w).
Proof.
  intros st r st' H. unfold add_wirevector in H.
  destruct (wirevector_by_name (get_block b st) !! name w) eqn:E;
    injection H as <- <-; [apply monotone_refl|].
  split_and!; try done.
  - intros b' n w' Hw. rewrite get_block_set_block. case_decide; [|done].
    subst b'. simpl. rewrite lookup_insert_ne; [done|]. intros <-. congruence.
  - intros b'. rewrite logic_at_set_block. by case_decide; subst.
  - intros id b'. unfold mem_nets. rewrite logic_at_set_block.
    by case_decide; subst.
Qed.

Lemma monotone_add_net b net : nonmem net → preserves monotone (add_net b net).
Proof.
  intros Hn st r st' [= <- <-]. split_and!; try done.
  - intros b' n w' Hw. rewrite get_block_set_block. by case_decide; subst.
  - intros b'. rewrite logic_at_set_block. case_decide; [|done].
    subst b'. simpl. by apply prefix_app_r.
  - intros id b'. unfold mem_nets. rewrite logic_at_set_block.
    case_decide; [|done]. subst b'. simpl. rewrite filter_app.
    rewrite filter_cons_False, filter_nil; [by rewrite app_nil_r|].
    unfold nonmem in Hn. unfold is_mem_net.
    destruct (op_param net); try done; by intros [].
Qed.

(** No operation on wire vectors or registers, whether it returns or
    raises, undoes anything: a wire registered in a block stays registered
    there under its name, the nets of a block are never removed or
    reordered, only followed by new ones, no object identity is given
    back, the working block is not switched, and the memory blocks and
    their nets are left alone. *)
Theorem operations_monotone :
  (∀ c bw nm blk, preserves monotone (WireVector_init c bw nm blk))
  ∧ (∀ c v bw, preserves monotone (Const_init c v bw))
  ∧ (∀ c bw nm, preserves monotone (Register_init c bw nm))
  ∧ (∀ w, preserves monotone (invert w))
  ∧ (∀ w item, preserves monotone (getitem w item))
  ∧ (∀ l, preserves monotone (concat l))
  ∧ (∀ w n, preserves monotone (extended w n))
  ∧ (∀ w o, preserves monotone (ilshift w o))
  ∧ (∀ w o op, preserves monotone (logicop w o op))
  ∧ (∀ w, preserves monotone (next_get w))
  ∧ (∀ w v, preserves monotone (next_set w v))
  ∧ (∀ w v, preserves monotone (next_ilshift w v)).
Proof.
  split_and!; intros;
    first [ apply preserves_WireVector_init | apply preserves_Const_init
          | apply preserves_Register_init | apply preserves_invert
          | apply preserves_getitem | apply preserves_concat
          | apply preserves_extended | apply preserves_ilshift
          | apply preserves_logicop | apply preserves__makereg
          | apply preserves_next_set | apply preserves_next_ilshift ];
    first [ exact monotone_refl | exact monotone_trans
          | exact monotone_tempvar | exact monotone_constvar
          | exact monotone_new_oid | exact monotone_add_wirevector
          | exact monotone_add_net | exact monotone_const_val
          | exact monotone_reg_in ].
Qed.

(** ** Extension, at a sample wire *)

(** The 2-bit wire [a]: one bit is refused, two bits give [a] back, three
    bits give the new wire [tmp1] by zero extension and [tmp2] by sign
    extension. *)
Lemma extension_contract_witness :
  (∃ e, (extended wire_a 1 st_abs).1 = Raise e)
  ∧ (wire_a = wire_a ∧ steps st_abs (zero_extended wire_a 2 st_abs).2 [] 1
     ∧ ∃ c, zero_bit st_abs (zero_extended wire_a 2 st_abs).2 c)
  ∧ (∃ c ext, zero_bit st_abs (zero_extended wire_a 3 st_abs).2 c
       ∧ fresh_wire st_abs 1 ext (3 - 2)
       ∧ fresh_wire st_abs 2 (mkWire 6 CWireVector 0 "tmp1" (Some 3)) 3
       ∧ steps st_abs (zero_extended wire_a 3 st_abs).2
           [(block wire_a, ext_net (3 - 2) c ext);
            (_singleton_block st_abs,
             cat_net ext wire_a (mkWire 6 CWireVector 0 "tmp1" (Some 3)))] 3)
  ∧ (∃ sb ext, fresh_wire st_abs 0 sb 1 ∧ fresh_wire st_abs 1 ext (3 - 2)
       ∧ fresh_wire st_abs 2 (mkWire 6 CWireVector 0 "tmp2" (Some 3)) 3
       ∧ steps st_abs (sign_extended wire_a 3 st_abs).2
           [(block wire_a, signbit_net 2 wire_a sb);
            (block wire_a, ext_net (3 - 2) sb ext);
            (_singleton_block st_abs,
             cat_net ext wire_a (mkWire 6 CWireVector 0 "tmp2" (Some 3)))] 3).
Proof.
  destruct (extension_contract wire_a 2 1 st_abs eq_refl) as (H1 & H2 & _).
  destruct (extension_contract wire_a 2 3 st_abs eq_refl) as (_ & _ & H3 & H4).
  split; [|split; [|split]].
  - apply (H1 ltac:(lia) _ (extended wire_a 1 st_abs).2).
    by destruct (extended wire_a 1 st_abs).
  - apply (H2 wire_a). by vm_compute.
  - apply (H3 ltac:(lia)). by vm_compute.
  - apply (H4 ltac:(lia)). by vm_compute.
Defined.

(** ** A new working block *)

Lemma new_block_id_new st : blocks st !! new_block_id st = None.
Proof.
  destruct (blocks st !! new_block_id st) as [blk|] eqn:E; [|done]. exfalso.
  assert (new_block_id st ∈ elements (dom (blocks st))) as Hin.
  { apply elem_of_elements, elem_of_dom. by exists blk. }
  apply max_list_elem_of_le in Hin. unfold new_block_id in Hin at 1. lia.
Qed.

Lemma new_block_id_oid st : (next_oid st ≤ new_block_id st)%nat.
Proof. unfold new_block_id. lia. Qed.

(** The blocks of the heap read the same after the reset as before. *)
Lemma reset_working_block_run st :
  ∃ st', reset_working_block st = (Ok tt, st')
    ∧ _singleton_block st' = new_block_id st
    ∧ (∀ b, get_block b st' = get_block b st)
    ∧ get_block (new_block_id st) st' = empty_Block
    ∧ memblocks st' = memblocks st ∧ memid_count st' = memid_count st.
Proof.
  eexists. split; [reflexivity|].
  set (st' := set_singleton _ _).
  assert (get_block (new_block_id st) st' = empty_Block) as Hnew.
  { unfold st', get_block. simpl. by rewrite lookup_insert_eq. }
  split_and!; try done.
  intros b. destruct (decide (b = new_block_id st)) as [->|Hb].
  - rewrite Hnew. unfold get_block. by rewrite new_block_id_new.
  - unfold st', get_block. simpl. by rewrite lookup_insert_ne.
Qed.

(** The invariant of the memory blocks looks at the memory objects, the
    memory identities and the nets only. *)
Lemma wf_same_nets st st' :
  memblocks st' = memblocks st → memid_count st' = memid_count st →
  (∀ b, logic_at st' b = logic_at st b) → wf st → wf st'.
Proof.
  intros M C L Hwf. split.
  - intros h m Hm. rewrite M in Hm. intros b. unfold mem_nets. rewrite L.
    apply (wf_ok _ Hwf _ _ Hm).
  - intros h m Hm. rewrite M in Hm. apply (wf_len _ Hwf _ _ Hm).
  - intros h1 h2 m1 m2. rewrite M. apply (wf_inj _ Hwf).
  - intros h m. rewrite M, C. apply (wf_ids _ Hwf).
  - intros b n i r w. rewrite L, C. apply (wf_nets _ Hwf).
Qed.

(** Switching to a new working block keeps the invariants of the memory
    blocks: the new block is a new object, so no net is lost. *)
Lemma mem_inv_reset_working_block : keeps reset_working_block.
Proof.
  intros st r st' [Hwf Hinv] H.
  destruct (reset_working_block_run st) as (st1 & Hr & _ & Hb & _ & M & C).
  rewrite Hr in H. injection H as _ <-. split.
  - apply (wf_same_nets st); try done. intros b. unfold logic_at. by rewrite Hb.
  - by apply (ports_inv_memblocks st).
Qed.

(** [reset_working_block] always succeeds and makes a new, empty block the
    working block; it is a new object, and every block reads as before.
    After it every name that is not a clock name can be used again for a
    wire of no width or of a width that is a positive [int], and the wire
    belongs to the new block.  An operator applied to a wire of an earlier
    block still appends its net to that earlier block, while the wire it
    returns belongs to the new working block. *)
Theorem reset_working_block_contract st :
  ∃ st', reset_working_block st = (Ok tt, st')
    ∧ _singleton_block st' = new_block_id st
    ∧ blocks st !! new_block_id st = None
    ∧ get_block (new_block_id st) st' = empty_Block
    ∧ (∀ b, get_block b st' = get_block b st)
    ∧ (∀ c bw n, (lower n ∉ clock_names) →
         (∀ k, bw = Some k → 0 < k ≤ maxint) →
         ∃ w st'', WireVector_init c bw (Some n) BNone st' = (Ok w, st'')
           ∧ block w = new_block_id st ∧ name w = n)
    ∧ (∀ self w st'', block self ≠ new_block_id st →
         invert self st' = (Ok w, st'') →
         block w = new_block_id st
         ∧ logic_at st'' (block self)
           = logic_at st (block self) ++ [mkNet (Some "~") PNone [self] [w]]
         ∧ logic_at st'' (new_block_id st) = []).
Proof.
  destruct (reset_working_block_run st) as (st' & Hr & Hs & Hold & Hnew & _).
  exists st'. split_and!; try done.
  - apply new_block_id_new.
  - intros c bw n Hclk Hpos.
    destruct (WireVector_init_named c bw n st' Hclk Hpos)
      as (w & st'' & H & Hb & Hn).
    { unfold name_free. by rewrite Hs, Hnew. }
    exists w, st''. by rewrite <- Hs.
  - intros self w st'' Hb H.
    apply invert_Ok in H as (n & _ & (_ & _ & Hw & _) & [[L _ _ _ _] _ _]).
    split_and!; [by rewrite <- Hs| |].
    + rewrite L, log_at_here. unfold logic_at. by rewrite Hold.
    + rewrite L, log_at_there by done. unfold logic_at. by rewrite Hnew.
Qed.

(** After the three sample wires the block of the reset is object 4, and
    [~a] then puts its net into block 0 and its result into block 4. *)
Lemma reset_working_block_contract_witness :
  blocks st_abs !! 4%nat = None
  ∧ block (mkWire 5 CWireVector 4 "tmp0" (Some 2)) = 4%nat
  ∧ logic_at (invert wire_a (reset_working_block st_abs).2).2 (block wire_a)
    = logic_at st_abs (block wire_a)
      ++ [mkNet (Some "~") PNone [wire_a] [mkWire 5 CWireVector 4 "tmp0" (Some 2)]]
  ∧ logic_at (invert wire_a (reset_working_block st_abs).2).2 4 = [].
Proof.
  destruct (reset_working_block_contract st_abs)
    as (st' & Hr & _ & Hnone & _ & _ & _ & Hinv).
  injection Hr as <-.
  split; [exact Hnone|].
  apply (Hinv wire_a (mkWire 5 CWireVector 4 "tmp0" (Some 2))
           (invert wire_a (reset_working_block st_abs).2).2).
  - vm_compute. lia.
  - by vm_compute.
Defined.

(** ** Sample runs of the operators and constructors *)

Lemma concat_contract_witness :
  ∃ widths, bitwidth <$> [wire_a; wire_b] = Some <$> widths
    ∧ bitwidth (mkWire 4 CWireVector 0 "tmp0" (Some 5))
      = Some (foldr Z.add 0 widths)
    ∧ steps st_abs (concat [wire_a; wire_b] st_abs).2
        [(_singleton_block st_abs,
          mkNet (Some "c") PNone [wire_a; wire_b]
                [mkWire 4 CWireVector 0 "tmp0" (Some 5)])] 1.
Proof.
  destruct (concat_contract st_abs) as (_ & H & _).
  apply (H wire_a wire_b [] (mkWire 4 CWireVector 0 "tmp0" (Some 5))
           (concat [wire_a; wire_b] st_abs).2).
  by vm_compute.
Defined.

Lemma invert_contract_witness :
  bitwidth (mkWire 4 CWireVector 0 "tmp0" (Some 2)) = bitwidth wire_a
  ∧ (next_oid st_abs ≤ oid (mkWire 4 CWireVector 0 "tmp0" (Some 2%Z)))%nat
  ∧ steps st_abs (invert wire_a st_abs).2
      [(block wire_a,
        mkNet (Some "~") PNone [wire_a] [mkWire 4 CWireVector 0 "tmp0" (Some 2)])] 1.
Proof.
  destruct (invert_contract wire_a st_abs) as (H & _).
  apply (H (mkWire 4 CWireVector 0 "tmp0" (Some 2)) (invert wire_a st_abs).2).
  by vm_compute.
Defined.

Lemma constructor_failure_registers_nothing_witness :
  registers_nothing st_abs
    (WireVector_init CWireVector (Some 2) (Some "a") BNone st_abs).2
  ∧ ∃ msg, PyrtlError ("duplicate wirevector name " +:+ "a") = PyrtlError msg.
Proof.
  destruct (constructor_failure_registers_nothing st_abs
              (PyrtlError ("duplicate wirevector name " +:+ "a"))
              (WireVector_init CWireVector (Some 2) (Some "a") BNone st_abs).2)
    as (H & _).
  apply (H CWireVector (Some 2) (Some "a") BNone). by vm_compute.
Defined.
